(** * lmarshal.c: a shallow embedding of the Lua table marshaller

    The development follows [src/lmarshal.c] function by function.  The C code
    drives the Lua 5.1 C API, so the embedding has three layers:

    - machine data: bytes, little-endian integers and IEEE-754 bit patterns,
      for an LP64 little-endian host (x86-64, AArch64);
    - the part of the Lua C API the library calls: a value stack addressed by
      absolute and relative indices, a heap of tables, closures, userdata and
      coroutines, raw table access and [lua_next];
    - the library itself: [buf_write], [pack_value], [mar_pack],
      [unpack_value], [mar_unpack], [tbl_marshal], [tbl_unmarshal],
      [tbl_clone], written in a state-and-error monad so that each definition
      can be read next to its C function.

    What the host decides (running a Lua function, loading a bytecode chunk)
    is a variable of the section [Marshal]. *)

From Stdlib Require Import ZArith List String Lia.
From Stdlib.Strings Require Import Byte.
From stdpp Require Import base option list.
Import ListNotations.

Local Open Scope Z_scope.

(** ** Machine data *)

Module Bytes.

Definition byte_of_Z (z : Z) : byte :=
  match Byte.of_N (Z.to_N (z mod 256)) with
  | Some b => b
  | None => x00
  end.

Definition Z_of_byte (b : byte) : Z := Z.of_N (Byte.to_N b).

(** The in-memory representation of the integer [v] in an object of [n]
    bytes on a little-endian host: least significant byte first. *)
Fixpoint le_bytes (n : nat) (v : Z) : list byte :=
  match n with
  | O => []
  | S n' => byte_of_Z v :: le_bytes n' (v / 256)
  end.

(** The same object as a big-endian host lays it out. *)
Fixpoint be_bytes (n : nat) (v : Z) : list byte :=
  match n with
  | O => []
  | S n' => byte_of_Z (v / 256 ^ Z.of_nat n') :: be_bytes n' v
  end.

(** Reading an unsigned integer back from its little-endian bytes. *)
Fixpoint le_Z (bs : list byte) : Z :=
  match bs with
  | [] => 0
  | b :: bs' => Z_of_byte b + 256 * le_Z bs'
  end.

(** Two's complement reading of a 32-bit pattern ([int], [int32_t]). *)
Definition wrap32s (z : Z) : Z :=
  let u := z mod 2 ^ 32 in
  if u <? 2 ^ 31 then u else u - 2 ^ 32.

Definition zlen {A} (l : list A) : Z := Z.of_nat (length l).

End Bytes.
Import Bytes.

Definition UINT32_MAX : Z := 2 ^ 32 - 1.

(** ** lua_Number: IEEE-754 binary64, kept as its 64-bit pattern

    The library never computes with numbers; it copies their eight bytes,
    converts reference ids between [int] and [lua_Number], and relies on the
    host's key equality.  Those three operations are exact on bit patterns. *)

Module Num.

Definition expo (bits : Z) : Z := (bits / 2 ^ 52) mod 2 ^ 11.
Definition mant (bits : Z) : Z := bits mod 2 ^ 52.
Definition sign (bits : Z) : Z := (bits / 2 ^ 63) mod 2.

Definition is_nan (bits : Z) : bool :=
  (expo bits =? 2047) && negb (mant bits =? 0).

Definition is_zero (bits : Z) : bool :=
  (expo bits =? 0) && (mant bits =? 0).

(** C's [==] on doubles: NaN differs from everything, the two zeros agree. *)
Definition eqb (a b : Z) : bool :=
  if is_nan a || is_nan b then false
  else (a mod 2 ^ 64 =? b mod 2 ^ 64) || (is_zero a && is_zero b).

(** [(lua_Number) i] for an integer of magnitude below 2^53 (exact). *)
Definition of_int (i : Z) : Z :=
  if i =? 0 then 0
  else
    let a := Z.abs i in
    let e := Z.log2 a in
    (if i <? 0 then 2 ^ 63 else 0) + (e + 1023) * 2 ^ 52 + (a - 2 ^ e) * 2 ^ (52 - e).

(** [(lua_Integer) x] where [x] holds an integer value; [None] otherwise
    (the conversion then depends on the rounding the host was built with). *)
Definition to_int (bits : Z) : option Z :=
  let e := expo bits in
  let m := mant bits in
  let s := if sign bits =? 1 then -1 else 1 in
  if is_zero bits then Some 0
  else if (e <? 1023) || (1086 <=? e) then None
  else if 1075 <=? e then Some (s * ((2 ^ 52 + m) * 2 ^ (e - 1075)))
  else if (2 ^ 52 + m) mod 2 ^ (1075 - e) =? 0
       then Some (s * ((2 ^ 52 + m) / 2 ^ (1075 - e)))
       else None.

End Num.

(** ** Lua values and the heap *)

Definition addr := nat.

(** A [TValue].  Collectable objects are named by their heap address;
    a number is its bit pattern; a string is its bytes. *)
Inductive value : Type :=
  | VNil
  | VBool (b : bool)
  | VLight (p : Z)
  | VNum (bits : Z)
  | VStr (s : list byte)
  | VTable (a : addr)
  | VFun (a : addr)
  | VUdata (a : addr)
  | VThread (a : addr).

#[global] Instance byte_eq_dec : EqDecision byte := Byte.byte_eq_dec.
#[global] Instance value_eq_dec : EqDecision value.
Proof. solve_decision. Defined.

(** What [lua_getinfo] reports in [ar.what] for a function. *)
Inductive fwhat : Type := WhatC | WhatLua | WhatMain.

#[global] Instance fwhat_eq_dec : EqDecision fwhat.
Proof. solve_decision. Defined.

(** Heap objects.  A table keeps its pairs in traversal order (the order
    [lua_next] yields them); a closure is either a C function or a Lua
    function given by the bytes [lua_dump] writes for it and its upvalues;
    [what] is what [lua_getinfo] reports about it. *)
Inductive object : Type :=
  | OTable (entries : list (value * value)) (meta : option addr)
  | OFun (what : fwhat) (code : list byte) (upvals : list value)
  | OUdata (meta : option addr)
  | OThread.

(** lua.h, Lua 5.1. *)
Definition LUA_TNONE : Z := -1.
Definition LUA_TNIL : Z := 0.
Definition LUA_TBOOLEAN : Z := 1.
Definition LUA_TLIGHTUSERDATA : Z := 2.
Definition LUA_TNUMBER : Z := 3.
Definition LUA_TSTRING : Z := 4.
Definition LUA_TTABLE : Z := 5.
Definition LUA_TFUNCTION : Z := 6.
Definition LUA_TUSERDATA : Z := 7.
Definition LUA_TTHREAD : Z := 8.

Definition type_of (v : value) : Z :=
  match v with
  | VNil => LUA_TNIL
  | VBool _ => LUA_TBOOLEAN
  | VLight _ => LUA_TLIGHTUSERDATA
  | VNum _ => LUA_TNUMBER
  | VStr _ => LUA_TSTRING
  | VTable _ => LUA_TTABLE
  | VFun _ => LUA_TFUNCTION
  | VUdata _ => LUA_TUSERDATA
  | VThread _ => LUA_TTHREAD
  end.

(** lmarshal.c, lines 49-57. *)
Definition MAR_TREF : Z := 1.
Definition MAR_TVAL : Z := 2.
Definition MAR_TUSR : Z := 3.
Definition MAR_CHR : Z := 1.
Definition MAR_I32 : Z := 4.
Definition MAR_I64 : Z := 8.
Definition MAR_MAGIC : Z := 142.

(** ** Raw table access ([luaH_get], [luaH_set]) *)

Module Tbl.

(** Raw equality of keys ([luaO_rawequalObj]). *)
Definition key_eqb (k1 k2 : value) : bool :=
  match k1, k2 with
  | VNum a, VNum b => Num.eqb a b
  | _, _ => bool_decide (k1 = k2)
  end.

Fixpoint get (es : list (value * value)) (k : value) : value :=
  match es with
  | [] => VNil
  | (k', v) :: es' => if key_eqb k' k then v else get es' k
  end.

Fixpoint remove (es : list (value * value)) (k : value) : list (value * value) :=
  match es with
  | [] => []
  | (k', v) :: es' => if key_eqb k' k then remove es' k else (k', v) :: remove es' k
  end.

(** A new key goes to the end of the list, which is the order [lua_next]
    walks in: one order among those a host may traverse a table in (Lua
    leaves it open). *)
Fixpoint update (es : list (value * value)) (k v : value) : list (value * value) :=
  match es with
  | [] => [(k, v)]
  | (k', v') :: es' =>
      if key_eqb k' k then (k', v) :: es' else (k', v') :: update es' k v
  end.

(** Storing nil erases the pair. *)
Definition set (es : list (value * value)) (k v : value) : list (value * value) :=
  match v with
  | VNil => remove es k
  | _ => update es k v
  end.

(** The pair that follows key [k] in traversal order; [None] when [k] is
    not a key of the table. *)
Fixpoint after (es : list (value * value)) (k : value)
  : option (option (value * value)) :=
  match es with
  | [] => None
  | (k', _) :: es' => if key_eqb k' k then Some (head es') else after es' k
  end.

(** A border of the table: the count of consecutive keys 1, 2, ...; of a
    table with holes [lua_objlen] may return another of its borders. *)
Fixpoint border (fuel : nat) (es : list (value * value)) (n : Z) : Z :=
  match fuel with
  | O => n
  | S fuel' =>
      match get es (VNum (Num.of_int (n + 1))) with
      | VNil => n
      | _ => border fuel' es (n + 1)
      end
  end.

End Tbl.

(** ** The Lua state and the monad of C functions over it *)

(** The part of [lua_State] the library touches: the stack of the running
    C function (the top is the head of the list, index 1 its last element)
    and the heap.  [calls] is a ghost log of the
    functions run through [lua_call], each with its arguments. *)
Record lua_State : Type := mkState {
  stack : list value;
  heap : list object;
  calls : list (value * list value)
}.

(** How a C function ends: it returns, it raises a Lua error ([luaL_error],
    [lua_error]: a longjmp out of the whole call), or it leaves the behaviour
    this embedding defines: undefined behaviour in C (an API function applied
    outside its precondition, a read outside the mapped bytes, signed
    overflow) or a host facility that is not modelled.  [OutOfFuel] belongs
    to the embedding only: the bound on recursion was too small. *)
Inductive outcome (A : Type) : Type :=
  | Ok (a : A)
  | LuaError (msg : string)
  | Undefined (why : string)
  | OutOfFuel.
Arguments Ok {A} a.
Arguments LuaError {A} msg%_string.
Arguments Undefined {A} why%_string.
Arguments OutOfFuel {A}.

Definition M (A : Type) : Type := lua_State -> outcome (A * lua_State).

Definition ret {A} (a : A) : M A := fun L => Ok (a, L).

Definition bind {A B} (m : M A) (k : A -> M B) : M B :=
  fun L =>
    match m L with
    | Ok (a, L') => k a L'
    | LuaError msg => LuaError msg
    | Undefined why => Undefined why
    | OutOfFuel => OutOfFuel
    end.

Declare Scope lua_scope.
Delimit Scope lua_scope with lua.
Notation "x <- c1 ;; c2" := (bind c1 (fun x => c2))
  (at level 100, c1 at next level, c2 at level 200, right associativity) : lua_scope.
Notation "'let*' pat := c1 'in' c2" := (bind c1 (fun x => match x with pat => c2 end))
  (at level 10, pat pattern, c1 at level 100, c2 at level 200) : lua_scope.
Notation "c1 ;; c2" := (bind c1 (fun _ => c2))
  (at level 100, c2 at level 200, right associativity) : lua_scope.
Local Open Scope lua_scope.

Definition luaL_error {A} (msg : string) : M A := fun _ => LuaError msg.
Arguments luaL_error {A} msg%_string.
Definition undefined {A} (why : string) : M A := fun _ => Undefined why.
Arguments undefined {A} why%_string.
Definition out_of_fuel {A} : M A := fun _ => OutOfFuel.

Definition get_stack : M (list value) := fun L => Ok (stack L, L).
Definition put_stack (s : list value) : M unit :=
  fun L => Ok (tt, mkState s (heap L) (calls L)).
Definition get_heap : M (list object) := fun L => Ok (heap L, L).
Definition put_heap (h : list object) : M unit :=
  fun L => Ok (tt, mkState (stack L) h (calls L)).
Definition log_call (f : value) (args : list value) : M unit :=
  fun L => Ok (tt, mkState (stack L) (heap L) (calls L ++ [(f, args)])).

(** ** The Lua C API, as far as lmarshal.c uses it *)

(** [index2adr]: the position, counted from the top, of a stack index;
    positive indices are absolute (counted from the bottom), negative ones
    count from the top.  The position names a slot when it is below the
    stack's length. *)
Definition index2adr (s : list value) (idx : Z) : option nat :=
  if 0 <? idx then
    if idx <=? zlen s then Some (length s - Z.to_nat idx)%nat else None
  else if idx <? 0 then Some (Z.to_nat (- idx - 1))
  else None.

Definition lua_at (idx : Z) : M value :=
  s <- get_stack ;;
  match index2adr s idx ≫= (s !!.) with
  | Some v => ret v
  | None => undefined "invalid stack index"
  end.

Fixpoint pop_n (n : nat) (s : list value) : option (list value) :=
  match n, s with
  | O, _ => Some s
  | S n', _ :: s' => pop_n n' s'
  | S _, [] => None
  end.

(** The stack is not bounded here.  A C function is given [LUA_MINSTACK]
    = 20 free slots, and the source never asks for more with
    [lua_checkstack]: what is stated of nested tables is stated for the
    depth these slots suffice for. *)
Definition lua_push (v : value) : M unit :=
  s <- get_stack ;; put_stack (v :: s).

Definition lua_pop (n : Z) : M unit :=
  s <- get_stack ;;
  match (if n <? 0 then None else pop_n (Z.to_nat n) s) with
  | Some s' => put_stack s'
  | None => undefined "lua_pop: stack underflow"
  end.

Definition lua_remove (idx : Z) : M unit :=
  s <- get_stack ;;
  match index2adr s idx with
  | Some i =>
      match s !! i with
      | Some _ => put_stack (delete i s)
      | None => undefined "lua_remove: invalid stack index"
      end
  | None => undefined "lua_remove: invalid stack index"
  end.

Definition lua_pushvalue (idx : Z) : M unit := v <- lua_at idx ;; lua_push v.
Definition lua_pushnil : M unit := lua_push VNil.
Definition lua_pushboolean (b : Z) : M unit := lua_push (VBool (negb (b =? 0))).
Definition lua_pushnumber (bits : Z) : M unit := lua_push (VNum bits).
Definition lua_pushinteger (i : Z) : M unit := lua_push (VNum (Num.of_int i)).
Definition lua_pushlstring (s : list byte) : M unit := lua_push (VStr s).

Definition lua_type (idx : Z) : M Z := v <- lua_at idx ;; ret (type_of v).

Definition lua_isnil (idx : Z) : M bool :=
  t <- lua_type idx ;; ret (t =? LUA_TNIL).

Definition lua_isfunction (idx : Z) : M bool :=
  t <- lua_type idx ;; ret (t =? LUA_TFUNCTION).

Definition lua_toboolean (idx : Z) : M Z :=
  v <- lua_at idx ;;
  ret match v with VNil | VBool false => 0 | _ => 1 end.

(** On a string: its bytes.  On a number the API converts the stack slot in
    place through the host's number format, which is not modelled. *)
Definition lua_tolstring (idx : Z) : M (list byte) :=
  v <- lua_at idx ;;
  match v with
  | VStr s => ret s
  | _ => undefined "lua_tolstring: not a string"
  end.

Definition lua_tonumber (idx : Z) : M Z :=
  v <- lua_at idx ;;
  match v with
  | VNum bits => ret bits
  | VStr _ => undefined "lua_tonumber: string conversion"
  | _ => ret 0
  end.

Definition lua_tointeger (idx : Z) : M Z :=
  v <- lua_at idx ;;
  match v with
  | VNum bits =>
      match Num.to_int bits with
      | Some i => ret i
      | None => undefined "lua_tointeger: not an integer value"
      end
  | VStr _ => undefined "lua_tointeger: string conversion"
  | _ => ret 0
  end.

Definition alloc (o : object) : M addr :=
  h <- get_heap ;; put_heap (h ++ [o]) ;; ret (length h).

Definition lua_newtable : M unit :=
  a <- alloc (OTable [] None) ;; lua_push (VTable a).

(** The pairs of the table at a stack index; the raw accessors require a
    table there ([api_check], compiled out in a release build). *)
Definition table_at (idx : Z) : M (addr * list (value * value) * option addr) :=
  v <- lua_at idx ;;
  h <- get_heap ;;
  match v with
  | VTable a =>
      match h !! a with
      | Some (OTable es mt) => ret (a, es, mt)
      | _ => undefined "dangling table"
      end
  | _ => undefined "raw access to a value that is not a table"
  end.

Definition store_table (a : addr) (es : list (value * value)) (mt : option addr) : M unit :=
  h <- get_heap ;; put_heap (<[a := OTable es mt]> h).

(** [luaH_set]: nil and NaN cannot be keys. *)
Definition check_key (k : value) : M unit :=
  match k with
  | VNil => luaL_error "table index is nil"
  | VNum bits => if Num.is_nan bits then luaL_error "table index is NaN" else ret tt
  | _ => ret tt
  end.

Definition lua_rawget (idx : Z) : M unit :=
  let* (_, es, _) := table_at idx in
  k <- lua_at (-1) ;;
  lua_pop 1 ;;
  lua_push (Tbl.get es k).

Definition lua_rawgeti (idx : Z) (n : Z) : M unit :=
  let* (_, es, _) := table_at idx in
  lua_push (Tbl.get es (VNum (Num.of_int n))).

Definition lua_rawset (idx : Z) : M unit :=
  let* (a, es, mt) := table_at idx in
  k <- lua_at (-2) ;;
  v <- lua_at (-1) ;;
  check_key k ;;
  store_table a (Tbl.set es k v) mt ;;
  lua_pop 2.

Definition lua_rawseti (idx : Z) (n : Z) : M unit :=
  let* (a, es, mt) := table_at idx in
  v <- lua_at (-1) ;;
  store_table a (Tbl.set es (VNum (Num.of_int n)) v) mt ;;
  lua_pop 1.

(** [lua_settable] honours metamethods; on a table without a metatable it
    is [lua_rawset].  Every table the decoder stores into was created by
    [lua_newtable] a moment before, so only that case is defined here. *)
Definition lua_settable (idx : Z) : M unit :=
  let* (a, es, mt) := table_at idx in
  match mt with
  | None =>
      k <- lua_at (-2) ;;
      v <- lua_at (-1) ;;
      check_key k ;;
      store_table a (Tbl.set es k v) mt ;;
      lua_pop 2
  | Some _ => undefined "lua_settable: metamethod dispatch"
  end.

(** [lua_next]: pops a key and pushes the pair that follows it, or nothing
    at the end of the traversal. *)
Definition lua_next (idx : Z) : M bool :=
  let* (_, es, _) := table_at idx in
  k <- lua_at (-1) ;;
  lua_pop 1 ;;
  match k with
  | VNil =>
      match es with
      | [] => ret false
      | (k', v') :: _ => lua_push k' ;; lua_push v' ;; ret true
      end
  | _ =>
      match Tbl.after es k with
      | None => luaL_error "invalid key to 'next'"
      | Some None => ret false
      | Some (Some (k', v')) => lua_push k' ;; lua_push v' ;; ret true
      end
  end.

(** [lua_objlen]: a border for a table, the length for a string. *)
Definition lua_objlen (idx : Z) : M Z :=
  v <- lua_at idx ;;
  h <- get_heap ;;
  match v with
  | VStr s => ret (zlen s)
  | VTable a =>
      match h !! a with
      | Some (OTable es _) => ret (Tbl.border (length es) es 0)
      | _ => undefined "dangling table"
      end
  | VNum _ => undefined "lua_objlen: number conversion"
  | _ => ret 0
  end.

(** The metatable of a table or full userdata.  The other types share one
    metatable per type, which a stock host leaves unset except for strings;
    the library asks only for tables and userdata. *)
Definition metatable_of (h : list object) (v : value) : option addr :=
  match v with
  | VTable a => match h !! a with Some (OTable _ mt) => mt | _ => None end
  | VUdata a => match h !! a with Some (OUdata mt) => mt | _ => None end
  | _ => None
  end.

(** [luaL_getmetafield]: pushes the field and returns 1, or pushes nothing
    and returns 0. *)
Definition luaL_getmetafield (obj : Z) (event : list byte) : M bool :=
  v <- lua_at obj ;;
  h <- get_heap ;;
  match metatable_of h v with
  | None => ret false
  | Some m =>
      match h !! m with
      | Some (OTable es _) =>
          match Tbl.get es (VStr event) with
          | VNil => ret false
          | f => lua_push f ;; ret true
          end
      | _ => undefined "dangling metatable"
      end
  end.

Definition closure_at (idx : Z) : M (option (addr * fwhat * list byte * list value)) :=
  v <- lua_at idx ;;
  h <- get_heap ;;
  match v with
  | VFun a =>
      match h !! a with
      | Some (OFun w code ups) => ret (Some (a, w, code, ups))
      | _ => undefined "dangling function"
      end
  | _ => ret None
  end.

(** [lua_getinfo(L, ">uS", &ar)]: pops the function, fills [ar.what] and
    [ar.nups]. *)
Definition lua_getinfo_uS : M (fwhat * Z) :=
  c <- closure_at (-1) ;;
  match c with
  | Some (_, w, _, ups) => lua_pop 1 ;; ret (w, zlen ups)
  | None => undefined "lua_getinfo: not a function"
  end.

(** [lua_getupvalue]: pushes upvalue [n] when the function has one. *)
Definition lua_getupvalue (funcindex : Z) (n : Z) : M bool :=
  c <- closure_at funcindex ;;
  match c with
  | Some (_, _, _, ups) =>
      if (1 <=? n) && (n <=? zlen ups)
      then lua_push (default VNil (ups !! Z.to_nat (n - 1))) ;; ret true
      else ret false
  | None => ret false
  end.

(** [lua_setupvalue]: pops the value into upvalue [n] when the function
    has one; otherwise it returns NULL and leaves the stack as it is. *)
Definition lua_setupvalue (funcindex : Z) (n : Z) : M bool :=
  c <- closure_at funcindex ;;
  match c with
  | Some (a, w, code, ups) =>
      if (1 <=? n) && (n <=? zlen ups)
      then
        v <- lua_at (-1) ;;
        h <- get_heap ;;
        put_heap (<[a := OFun w code (<[Z.to_nat (n - 1) := v]> ups)]> h) ;;
        lua_pop 1 ;;
        ret true
      else ret false
  | None => ret false
  end.

(** [lua_dump] on the function at the top: the bytes handed to the writer.
    For a C function nothing is written. *)
Definition lua_dump_bytes : M (list byte) :=
  c <- closure_at (-1) ;;
  match c with
  | Some (_, WhatC, _, _) => ret []
  | Some (_, _, code, _) => ret code
  | None => undefined "lua_dump: not a function"
  end.

(** The decimal digits of [i], at most [n] of them, in front of [acc]. *)
Fixpoint digits (n : nat) (i : Z) (acc : list byte) : list byte :=
  match n with
  | O => acc
  | S n' =>
      let acc := byte_of_Z (48 + i mod 10) :: acc in
      if i <? 10 then acc else digits n' (i / 10) acc
  end.

(** [lua_number2str], the "%.14g" of the stock host, for a number that
    holds an integer of magnitude below 10^14: its decimal digits, behind
    a minus sign when the sign bit is set.  The other numbers need the
    floating-point formatting of the C library and are left out. *)
Definition number2str (bits : Z) : option (list byte) :=
  match Num.to_int bits with
  | Some i =>
      if Z.abs i <? 10 ^ 14
      then Some ((if Num.sign bits =? 1 then [x2d] else []) ++ digits 14 (Z.abs i) [])
      else None
  | None => None
  end.

(** [luaL_checklstring]: a number is converted to a string where it lies
    on the stack. *)
Definition luaL_checklstring (idx : Z) : M (list byte) :=
  v <- lua_at idx ;;
  match v with
  | VStr s => ret s
  | VNum bits =>
      match number2str bits with
      | Some str =>
          s <- get_stack ;;
          match index2adr s idx with
          | Some i => put_stack (<[i := VStr str]> s) ;; ret str
          | None => undefined "invalid stack index"
          end
      | None => undefined "luaL_checklstring: number formatting"
      end
  | _ => luaL_error "bad argument (string expected)"
  end.

(** ** lmarshal.c *)

(** [mar_Buffer] (lines 59-64).  [data] holds the bytes written so far, so
    the C field [head] is their count; [size] is the allocated capacity.
    [malloc] and [realloc] are taken to succeed. *)
Record mar_Buffer : Type := mkBuffer {
  size : Z;
  seek : Z;
  data : list byte
}.

Definition head (buf : mar_Buffer) : Z := zlen (data buf).

(** [buf_init] (lines 69-75). *)
Definition buf_init : M mar_Buffer := ret (mkBuffer 128 0 []).

(** [buf_done] (lines 77-81). *)
Definition buf_done (buf : mar_Buffer) : M unit := lua_pushlstring (data buf).

(** The doubling loop of [buf_write] (lines 89-91); a [size_t] cannot be
    doubled more than 64 times. *)
Fixpoint buf_grow (fuel : nat) (new_size cur_head len : Z) : Z :=
  match fuel with
  | O => new_size
  | S fuel' =>
      if new_size - cur_head <=? len
      then buf_grow fuel' (new_size * 2) cur_head len
      else new_size
  end.

(** The capacity after room for [len] more bytes has been made
    (lines 86-96). *)
Definition buf_reserve (buf : mar_Buffer) (len : Z) : Z :=
  if size buf - head buf <? len
  then buf_grow 64 (size buf * 2) (head buf) len
  else size buf.

(** [buf_write] (lines 83-100): appends the first [len] bytes of the object
    at [str]. *)
Definition buf_write (str : list byte) (len : Z) (buf : mar_Buffer) : M mar_Buffer :=
  if UINT32_MAX <? len then luaL_error "buffer too long"
  else
    ret (mkBuffer (buf_reserve buf len) (seek buf)
                  (data buf ++ take (Z.to_nat len) str)).

(** [buf_read] (lines 102-111), the [lua_Reader] the decoder hands to
    [lua_load]: the whole buffer the first time, [NULL] afterwards.  The
    result is the block handed over, if any, and the buffer as the call
    leaves it. *)
Definition buf_read (buf : mar_Buffer) : option (list byte) * mar_Buffer :=
  if seek buf <? head buf
  then (Some (data buf), mkBuffer (size buf) (head buf) (data buf))
  else (None, buf).

(** The post-increment of the [int] behind [idx]. *)
Definition int_succ (i : Z) : Z := wrap32s (i + 1).

(** [mar_incr_ptr] (lines 326-327); [buf] and [p] are addresses. *)
Definition mar_incr_ptr (buf len p l : Z) : M Z :=
  if len <? (p - buf) + l then luaL_error "bad code" else ret (p + l).

(** The bytes [p, p + n) of the memory the decoder runs on.  [mem] is every
    byte that can be read from the address 0 of the model onwards: the
    buffer handed to the decoder and whatever lies behind it. *)
Definition peek (mem : list byte) (p n : Z) : M (list byte) :=
  if (0 <=? p) && (0 <=? n) && (p + n <=? zlen mem)
  then ret (take (Z.to_nat n) (drop (Z.to_nat p) mem))
  else undefined "read outside the mapped bytes".

Definition peek_char (mem : list byte) (p : Z) : M Z :=
  bs <- peek mem p 1 ;; ret (le_Z bs).

(** [mar_next_len] (lines 329-331) at a 4-byte type. *)
Definition mar_next_len (mem : list byte) (buf len p : Z) : M (Z * Z) :=
  if len <? (p - buf) + 4 then luaL_error "bad code"
  else bs <- peek mem p 4 ;; ret (le_Z bs, p + 4).

(** The byte reversal of [tbl_unmarshal] (lines 507-509): [cnt] swaps of
    [p[i]] and [p[j]], [i] going up and [j] going down. *)
Fixpoint swap_loop (cnt : nat) (i j : Z) (p : list byte) : list byte :=
  match cnt with
  | O => p
  | S cnt' =>
      let t := default x00 (p !! Z.to_nat i) in
      let p := <[Z.to_nat i := default x00 (p !! Z.to_nat j)]> p in
      let p := <[Z.to_nat j := t]> p in
      swap_loop cnt' (i + 1) (j - 1) p
  end.

Section Marshal.

(** The host runs a called value on its arguments and the heap; one
    result is asked for. *)
Variable host_call : value -> list value -> list object -> outcome (value * list object).

(** The host's chunk loader: what the loaded function is and how many
    upvalues it has, or the error message. *)
Variable host_load : list byte -> (fwhat * nat) + list byte.

(** [lua_call(L, nargs, 1)]. *)
Definition lua_call (nargs : Z) : M unit :=
  f <- lua_at (- (nargs + 1)) ;;
  s <- get_stack ;;
  let args := rev (take (Z.to_nat nargs) s) in
  lua_pop (nargs + 1) ;;
  log_call f args ;;
  h <- get_heap ;;
  match host_call f args h with
  | Ok (r, h') => put_heap h' ;; lua_push r
  | LuaError msg => luaL_error msg
  | Undefined why => undefined why
  | OutOfFuel => out_of_fuel
  end.

(** [lua_load] fed by [buf_read] (lines 102-111), which hands over the
    whole chunk at once: pushes the function, or the error message. *)
Definition lua_load (chunk : list byte) : M unit :=
  match host_load chunk with
  | inl (w, nups) =>
      a <- alloc (OFun w chunk (replicate nups VNil)) ;; lua_push (VFun a)
  | inr msg => lua_push (VStr msg)
  end.

Definition str__persist : list byte :=
  [x5f; x5f; x70; x65; x72; x73; x69; x73; x74].

(** The upvalue loops of the function cases (lines 241-244, 412-415). *)
Fixpoint getupvalues (n : nat) (i : Z) : M unit :=
  match n with
  | O => ret tt
  | S n' => lua_getupvalue (-2) i ;; lua_rawseti (-2) i ;; getupvalues n' (i + 1)
  end.

Fixpoint setupvalues (n : nat) (i : Z) : M unit :=
  match n with
  | O => ret tt
  | S n' => lua_rawgeti (-1) i ;; lua_setupvalue (-3) i ;; setupvalues n' (i + 1)
  end.

(** [pack_value] (lines 113-312) and [mar_pack] (lines 314-324).
    [buf] and [idx] are passed by pointer in C and returned here;
    [mar_pack] takes [idx] by value. *)
Fixpoint pack_value (fuel : nat) (buf : mar_Buffer) (val : Z) (idx : Z)
  {struct fuel} : M (mar_Buffer * Z) :=
  match fuel with
  | O => out_of_fuel
  | S fuel' =>
  val_type <- lua_type val ;;
  buf <- buf_write (le_bytes 4 val_type) MAR_CHR buf ;;
  if val_type =? LUA_TBOOLEAN then
    int_val <- lua_toboolean val ;;
    buf <- buf_write (le_bytes 4 int_val) MAR_CHR buf ;;
    ret (buf, idx)
  else if val_type =? LUA_TSTRING then
    str_val <- lua_tolstring val ;;
    let l := zlen str_val in
    buf <- buf_write (le_bytes 8 l) MAR_I32 buf ;;
    buf <- buf_write str_val l buf ;;
    ret (buf, idx)
  else if val_type =? LUA_TNUMBER then
    num_val <- lua_tonumber val ;;
    buf <- buf_write (le_bytes 8 num_val) MAR_I64 buf ;;
    ret (buf, idx)
  else if val_type =? LUA_TTABLE then
    lua_pushvalue val ;;
    lua_rawget 2 ;;
    isnil <- lua_isnil (-1) ;;
    if negb isnil then
      i <- lua_tointeger (-1) ;;
      let ref := wrap32s i in
      buf <- buf_write (le_bytes 4 MAR_TREF) MAR_CHR buf ;;
      buf <- buf_write (le_bytes 4 ref) MAR_I32 buf ;;
      lua_pop 1 ;;
      ret (buf, idx)
    else
      lua_pop 1 ;;
      has <- luaL_getmetafield val str__persist ;;
      if has : bool then
        lua_pushvalue (val - 1) ;;
        lua_pushinteger idx ;;
        let idx := int_succ idx in
        lua_rawset 2 ;;
        lua_pushvalue (val - 1) ;;
        lua_call 1 ;;
        isf <- lua_isfunction (-1) ;;
        (if isf : bool then ret tt
         else luaL_error "__persist must return a function") ;;
        lua_newtable ;;
        lua_pushvalue (-2) ;;
        lua_rawseti (-2) 1 ;;
        lua_remove (-2) ;;
        rec_buf <- buf_init ;;
        rec_buf <- mar_pack fuel' rec_buf idx ;;
        buf_done rec_buf ;;
        rec_packed <- lua_tolstring (-1) ;;
        let rec_l := zlen rec_packed in
        buf <- buf_write (le_bytes 4 MAR_TUSR) MAR_CHR buf ;;
        buf <- buf_write (le_bytes 8 rec_l) MAR_I32 buf ;;
        buf <- buf_write rec_packed rec_l buf ;;
        lua_pop 2 ;;
        ret (buf, idx)
      else
        lua_pushvalue val ;;
        lua_pushinteger idx ;;
        let idx := int_succ idx in
        lua_rawset 2 ;;
        lua_pushvalue val ;;
        rec_buf <- buf_init ;;
        rec_buf <- mar_pack fuel' rec_buf idx ;;
        buf_done rec_buf ;;
        rec_packed <- lua_tolstring (-1) ;;
        let rec_l := zlen rec_packed in
        buf <- buf_write (le_bytes 4 MAR_TVAL) MAR_CHR buf ;;
        buf <- buf_write (le_bytes 8 rec_l) MAR_I32 buf ;;
        buf <- buf_write rec_packed rec_l buf ;;
        lua_pop 2 ;;
        ret (buf, idx)
  else if val_type =? LUA_TFUNCTION then
    lua_pushvalue val ;;
    lua_rawget 2 ;;
    isnil <- lua_isnil (-1) ;;
    if negb isnil then
      i <- lua_tointeger (-1) ;;
      let ref := wrap32s i in
      buf <- buf_write (le_bytes 4 MAR_TREF) MAR_CHR buf ;;
      buf <- buf_write (le_bytes 4 ref) MAR_I32 buf ;;
      lua_pop 1 ;;
      ret (buf, idx)
    else
      lua_pop 1 ;;
      lua_pushvalue val ;;
      lua_pushinteger idx ;;
      let idx := int_succ idx in
      lua_rawset 2 ;;
      lua_pushvalue val ;;
      rec_buf <- buf_init ;;
      code <- lua_dump_bytes ;;
      rec_buf <- buf_write code (zlen code) rec_buf ;;
      buf_done rec_buf ;;
      rec_packed <- lua_tolstring (-1) ;;
      let rec_l := zlen rec_packed in
      buf <- buf_write (le_bytes 4 MAR_TVAL) MAR_CHR buf ;;
      buf <- buf_write (le_bytes 8 rec_l) MAR_I32 buf ;;
      buf <- buf_write rec_packed rec_l buf ;;
      lua_pop 2 ;;
      lua_pushvalue val ;;
      let* (what, nups) := lua_getinfo_uS in
      (if bool_decide (what = WhatLua) then ret tt
       else luaL_error "attempt to persist a C function") ;;
      lua_newtable ;;
      getupvalues (Z.to_nat nups) 1 ;;
      rec_buf <- buf_init ;;
      rec_buf <- mar_pack fuel' rec_buf idx ;;
      buf_done rec_buf ;;
      rec_packed <- lua_tolstring (-1) ;;
      let rec_l := zlen rec_packed in
      buf <- buf_write (le_bytes 8 rec_l) MAR_I32 buf ;;
      buf <- buf_write rec_packed rec_l buf ;;
      lua_pop 2 ;;
      ret (buf, idx)
  else if val_type =? LUA_TUSERDATA then
    lua_pushvalue val ;;
    lua_rawget 2 ;;
    isnil <- lua_isnil (-1) ;;
    if negb isnil then
      i <- lua_tointeger (-1) ;;
      let ref := wrap32s i in
      buf <- buf_write (le_bytes 4 MAR_TREF) MAR_CHR buf ;;
      buf <- buf_write (le_bytes 4 ref) MAR_I32 buf ;;
      lua_pop 1 ;;
      ret (buf, idx)
    else
      lua_pop 1 ;;
      has <- luaL_getmetafield val str__persist ;;
      if has : bool then
        lua_pushvalue (val - 1) ;;
        lua_pushinteger idx ;;
        let idx := int_succ idx in
        lua_rawset 2 ;;
        lua_pushvalue (val - 1) ;;
        lua_call 1 ;;
        isf <- lua_isfunction (-1) ;;
        (if isf : bool then ret tt
         else luaL_error "__persist must return a function") ;;
        lua_newtable ;;
        lua_pushvalue (-2) ;;
        lua_rawseti (-2) 1 ;;
        lua_remove (-2) ;;
        rec_buf <- buf_init ;;
        rec_buf <- mar_pack fuel' rec_buf idx ;;
        buf_done rec_buf ;;
        rec_packed <- lua_tolstring (-1) ;;
        let rec_l := zlen rec_packed in
        buf <- buf_write (le_bytes 4 MAR_TUSR) MAR_CHR buf ;;
        buf <- buf_write (le_bytes 8 rec_l) MAR_I32 buf ;;
        buf <- buf_write rec_packed rec_l buf ;;
        lua_pop 2 ;;
        ret (buf, idx)
      else
        buf <- buf_write (le_bytes 4 MAR_TVAL) MAR_CHR buf ;;
        ret (buf, idx)
  else if val_type =? LUA_TTHREAD then
    ret (buf, idx)
  else luaL_error "invalid value type"
  end

with mar_pack (fuel : nat) (buf : mar_Buffer) (idx : Z) {struct fuel}
  : M mar_Buffer :=
  match fuel with
  | O => out_of_fuel
  | S fuel' => lua_pushnil ;; mar_pack_loop fuel' buf idx
  end

with mar_pack_loop (fuel : nat) (buf : mar_Buffer) (idx : Z) {struct fuel}
  : M mar_Buffer :=
  match fuel with
  | O => out_of_fuel
  | S fuel' =>
      more <- lua_next (-2) ;;
      if more : bool then
        let* (buf, idx) := pack_value fuel' buf (-2) idx in
        let* (buf, idx) := pack_value fuel' buf (-1) idx in
        lua_pop 1 ;;
        mar_pack_loop fuel' buf idx
      else ret buf
  end.

(** [unpack_value] (lines 333-451) and the loop of [mar_unpack]
    (lines 453-464).  [mem] is the memory, [buf] and [len] the range the
    caller supplies, [p] the cursor; the new cursor and [idx] are
    returned. *)
Fixpoint unpack_value (fuel : nat) (mem : list byte) (buf len : Z) (p idx : Z)
  {struct fuel} : M (Z * Z) :=
  match fuel with
  | O => out_of_fuel
  | S fuel' =>
  val_type <- peek_char mem p ;;
  p <- mar_incr_ptr buf len p MAR_CHR ;;
  if val_type =? LUA_TBOOLEAN then
    b <- peek_char mem p ;;
    lua_pushboolean b ;;
    p <- mar_incr_ptr buf len p MAR_CHR ;;
    ret (p, idx)
  else if val_type =? LUA_TNUMBER then
    bs <- peek mem p 8 ;;
    lua_pushnumber (le_Z bs) ;;
    p <- mar_incr_ptr buf len p MAR_I64 ;;
    ret (p, idx)
  else if val_type =? LUA_TSTRING then
    let* (l, p) := mar_next_len mem buf len p in
    s <- peek mem p l ;;
    lua_pushlstring s ;;
    p <- mar_incr_ptr buf len p l ;;
    ret (p, idx)
  else if val_type =? LUA_TTABLE then
    tag <- peek_char mem p ;;
    p <- mar_incr_ptr buf len p MAR_CHR ;;
    if tag =? MAR_TREF then
      let* (ref, p) := mar_next_len mem buf len p in
      lua_rawgeti 2 (wrap32s ref) ;;
      ret (p, idx)
    else if tag =? MAR_TVAL then
      let* (l, p) := mar_next_len mem buf len p in
      lua_newtable ;;
      lua_pushvalue (-1) ;;
      lua_rawseti 2 idx ;;
      let idx := int_succ idx in
      mar_unpack_loop fuel' mem p l p idx ;;
      p <- mar_incr_ptr buf len p l ;;
      ret (p, idx)
    else if tag =? MAR_TUSR then
      let* (l, p) := mar_next_len mem buf len p in
      lua_newtable ;;
      mar_unpack_loop fuel' mem p l p idx ;;
      lua_rawgeti (-1) 1 ;;
      lua_call 0 ;;
      lua_remove (-2) ;;
      lua_pushvalue (-1) ;;
      lua_rawseti 2 idx ;;
      let idx := int_succ idx in
      p <- mar_incr_ptr buf len p l ;;
      ret (p, idx)
    else luaL_error "bad encoded data"
  else if val_type =? LUA_TFUNCTION then
    tag <- peek_char mem p ;;
    p <- mar_incr_ptr buf len p 1 ;;
    if tag =? MAR_TREF then
      let* (ref, p) := mar_next_len mem buf len p in
      lua_rawgeti 2 (wrap32s ref) ;;
      ret (p, idx)
    else
      let* (l, p) := mar_next_len mem buf len p in
      chunk <- peek mem p l ;;
      lua_load chunk ;;
      p <- mar_incr_ptr buf len p l ;;
      lua_pushvalue (-1) ;;
      lua_rawseti 2 idx ;;
      let idx := int_succ idx in
      let* (l, p) := mar_next_len mem buf len p in
      lua_newtable ;;
      mar_unpack_loop fuel' mem p l p idx ;;
      nups <- lua_objlen (-1) ;;
      setupvalues (Z.to_nat nups) 1 ;;
      lua_pop 1 ;;
      p <- mar_incr_ptr buf len p l ;;
      ret (p, idx)
  else if val_type =? LUA_TUSERDATA then
    tag <- peek_char mem p ;;
    p <- mar_incr_ptr buf len p MAR_CHR ;;
    if tag =? MAR_TREF then
      let* (ref, p) := mar_next_len mem buf len p in
      lua_rawgeti 2 (wrap32s ref) ;;
      ret (p, idx)
    else if tag =? MAR_TUSR then
      let* (l, p) := mar_next_len mem buf len p in
      lua_newtable ;;
      mar_unpack_loop fuel' mem p l p idx ;;
      lua_rawgeti (-1) 1 ;;
      lua_call 0 ;;
      lua_remove (-2) ;;
      lua_pushvalue (-1) ;;
      lua_rawseti 2 idx ;;
      let idx := int_succ idx in
      p <- mar_incr_ptr buf len p l ;;
      ret (p, idx)
    else
      lua_pushnil ;;
      ret (p, idx)
  else if val_type =? LUA_TTHREAD then
    lua_pushnil ;;
    ret (p, idx)
  else luaL_error "bad code"
  end

with mar_unpack_loop (fuel : nat) (mem : list byte) (buf len : Z) (p idx : Z)
  {struct fuel} : M unit :=
  match fuel with
  | O => out_of_fuel
  | S fuel' =>
      if p - buf <? len then
        let* (p, idx) := unpack_value fuel' mem buf len p idx in
        let* (p, idx) := unpack_value fuel' mem buf len p idx in
        lua_settable (-3) ;;
        mar_unpack_loop fuel' mem buf len p idx
      else ret tt
  end.

(** [mar_unpack] (lines 453-464). *)
Definition mar_unpack (fuel : nat) (mem : list byte) (buf len : Z) (idx : Z) : M Z :=
  mar_unpack_loop fuel mem buf len buf idx ;; ret 1.

(** [tbl_marshal] (lines 466-482).  [e] is the first byte of the [int] 1. *)
Definition tbl_marshal (fuel : nat) : M Z :=
  let e := le_Z (take 1 (le_bytes 4 1)) in
  lua_newtable ;;
  lua_pushvalue 1 ;;
  buf <- buf_init ;;
  buf <- buf_write [byte_of_Z MAR_MAGIC] 1 buf ;;
  buf <- buf_write (le_bytes 4 e) 1 buf ;;
  buf <- mar_pack fuel buf 1 ;;
  buf_done buf ;;
  ret 1.

(** [tbl_unmarshal] (lines 484-518).  [behind] stands for the bytes that
    lie in memory after the buffer being decoded. *)
Definition tbl_unmarshal (fuel : nat) (behind : list byte) : M Z :=
  s <- luaL_checklstring (-1) ;;
  let l := zlen s in
  if l <? 2 then luaL_error "bad header"
  else if negb (le_Z (take 1 s) =? MAR_MAGIC) then luaL_error "bad magic"
  else
    let l := l - 2 in
    lua_newtable ;;
    lua_newtable ;;
    if negb (le_Z (take 1 (le_bytes 4 1)) =? le_Z (take 1 (drop 1 s))) then
      let n := wrap32s l in
      buf <- buf_init ;;
      buf <- buf_write (drop 2 s) l buf ;;
      let cnt := Z.quot n 2 in
      if cnt <? 0 then undefined "byte reversal with a negative count"
      else
        let p := swap_loop (Z.to_nat cnt) 0 (n - 1) (data buf) in
        mar_unpack fuel (p ++ behind) 0 l 1 ;;
        ret 1
    else
      mar_unpack fuel (s ++ behind) 2 l 1 ;;
      ret 1.

(** [tbl_clone] (lines 520-525). *)
Definition tbl_clone (fuel : nat) (behind : list byte) : M Z :=
  tbl_marshal fuel ;;
  tbl_unmarshal fuel behind ;;
  ret 1.

(** A C function called from Lua with the arguments [args]: its stack
    holds them at indices 1, 2, ...; it returns the value at the top. *)
Definition call_c (f : M Z) (args : list value) (h : list object)
  : outcome (value * lua_State) :=
  (f ;; lua_at (-1)) (mkState (rev args) h []).

End Marshal.

(** * Statements: observations, hosts and inputs

    Everything below talks about the embedding above. *)

(** The bytes [bs] stand in memory at address [p]. *)
Definition bytes_at (mem : list byte) (p : Z) (bs : list byte) : Prop :=
  0 <= p /\ p + zlen bs <= zlen mem /\
  take (length bs) (drop (Z.to_nat p) mem) = bs.

(** Stack index [i] holds [v]. *)
Definition slot (s : list value) (i : Z) (v : value) : Prop :=
  index2adr s i ≫= (s !!.) = Some v.

(** [t[k]] by raw access, as a Lua program would read the result. *)
Definition field (h : list object) (t k : value) : value :=
  match t with
  | VTable a =>
      match h !! a with
      | Some (OTable es _) => Tbl.get es k
      | _ => VNil
      end
  | _ => VNil
  end.

(** The value has no persist hook: no metatable, or a metatable without
    the field [__persist]. *)
Definition hookless (h : list object) (v : value) : Prop :=
  match metatable_of h v with
  | None => True
  | Some m =>
      exists es mt, h !! m = Some (OTable es mt) /\ Tbl.get es (VStr str__persist) = VNil
  end.

(** The Lua number of an integer literal. *)
Definition num (i : Z) : value := VNum (Num.of_int i).

(** A host that runs nothing: every call and every chunk load fails.  It
    serves where the input holds no function and no hook. *)
Definition no_call (f : value) (args : list value) (h : list object)
  : outcome (value * list object) := LuaError "attempt to call a value".

Definition no_load (chunk : list byte) : (fwhat * nat) + list byte :=
  inr [].

(** A host whose every call returns [r] and leaves the heap as it is. *)
Definition const_call (r : value) (f : value) (args : list value) (h : list object)
  : outcome (value * list object) := Ok (r, h).

(** A host with two Lua functions, told apart by their bytecode: the
    persist hook, which returns the closure at heap address 4, and that
    closure, the Reviver, which returns its first upvalue. *)
Definition hook_code : list byte := [x68].
Definition reviver_code : list byte := [x72].

Definition demo_call (f : value) (args : list value) (h : list object)
  : outcome (value * list object) :=
  match f with
  | VFun a =>
      match h !! a with
      | Some (OFun _ code ups) =>
          if bool_decide (code = hook_code) then Ok (VFun 4%nat, h)
          else if bool_decide (code = reviver_code)
               then Ok (default VNil (ups !! 0%nat), h)
               else LuaError "unknown function"
      | _ => LuaError "attempt to call a value"
      end
  | _ => LuaError "attempt to call a value"
  end.

Definition demo_load (chunk : list byte) : (fwhat * nat) + list byte :=
  if bool_decide (chunk = reviver_code) then inl (WhatLua, 1%nat) else inr [].

(** Records compared by content down to a given depth, as a deep-equality
    test does: scalars by raw equality, Records key by key.  Keys are taken
    to be scalars (a Record used as a key is an identity the copy cannot
    share). *)
Fixpoint deep_eqb (depth : nat) (h1 h2 : list object) (v1 v2 : value) : bool :=
  match depth with
  | O => true
  | S d =>
      match v1, v2 with
      | VTable a1, VTable a2 =>
          match h1 !! a1, h2 !! a2 with
          | Some (OTable es1 _), Some (OTable es2 _) =>
              forallb (fun kv => deep_eqb d h1 h2 (snd kv) (Tbl.get es2 (fst kv))) es1
              && forallb (fun kv => deep_eqb d h1 h2 (Tbl.get es1 (fst kv)) (snd kv)) es2
          | _, _ => false
          end
      | VTable _, _ | _, VTable _ => false
      | _, _ => Tbl.key_eqb v1 v2
      end
  end.

(** ** Inputs *)

(** [V = { {X}, B, X }] with [X = {"x"}] and [B = {}]: the Record [X] is
    reached twice, once inside the first element and once as the third. *)
Definition heap_shared : list object :=
  [ OTable [(num 1, VTable 1%nat); (num 2, VTable 3%nat); (num 3, VTable 2%nat)] None;
    OTable [(num 1, VTable 2%nat)] None;
    OTable [(num 1, VStr [x78])] None;
    OTable [] None ].

(** [C = {}; C.x = C]. *)
Definition heap_cycle : list object :=
  [ OTable [(VStr [x78], VTable 0%nat)] None ].

(** [R = { {S}, S, B, S }] with [S = {}] and [B = {}]: fields 2 and 4 of
    [R] hold the same Record [S]. *)
Definition heap_alias : list object :=
  [ OTable [(num 1, VTable 1%nat); (num 2, VTable 2%nat);
            (num 3, VTable 3%nat); (num 4, VTable 2%nat)] None;
    OTable [(num 1, VTable 2%nat)] None;
    OTable [] None;
    OTable [] None ].

(** [{ [true] = true }]. *)
Definition heap_flag : list object :=
  [ OTable [(VBool true, VBool true)] None ].

(** [{ [co] = true }] for a coroutine [co]. *)
Definition heap_thread_key : list object :=
  [ OTable [(VThread 1%nat, VBool true)] None; OThread ].

(** [{ [true] = co, [false] = u, [1] = true }] for a coroutine [co] and a
    userdata [u] without metatable. *)
Definition heap_dropped : list object :=
  [ OTable [(VBool true, VThread 1%nat); (VBool false, VUdata 2%nat);
            (num 1, VBool true)] None;
    OThread;
    OUdata None ].

(** Header, the key [true], then a back-reference to id 7. *)
Definition stream_unknown_ref : list byte :=
  [x8e; x01; x01; x01; x05; x01; x07; x00; x00; x00].

(** Header and a lone Boolean tag: the payload ends where the value byte
    should stand. *)
Definition stream_short_boolean : list byte := [x8e; x01; x01].

(** Header and a String record that declares three bytes and holds one. *)
Definition stream_short_string : list byte :=
  [x8e; x01; x04; x03; x00; x00; x00; x41].

(** Header and a Composite record that declares a two-byte body and holds
    none. *)
Definition stream_short_table : list byte :=
  [x8e; x01; x05; x02; x02; x00; x00; x00].

(** [{ u }] for a userdata [u] whose metatable holds the persist hook; the
    hook's Reviver (address 4) has captured the string "st". *)
Definition heap_opaque : list object :=
  [ OTable [(num 1, VUdata 1%nat)] None;
    OUdata (Some 2%nat);
    OTable [(VStr str__persist, VFun 3%nat)] None;
    OFun WhatLua hook_code [];
    OFun WhatLua reviver_code [VStr [x73; x74]] ].

(** The same Record [{ u }], with a Reviver that has captured [u] itself:
    packed, the Opaque record of [u] (id 1) holds in its contents, as the
    Reviver's upvalue, a back-reference to id 1. *)
Definition heap_opaque_self : list object :=
  [ OTable [(num 1, VUdata 1%nat)] None;
    OUdata (Some 2%nat);
    OTable [(VStr str__persist, VFun 3%nat)] None;
    OFun WhatLua hook_code [];
    OFun WhatLua reviver_code [VUdata 1%nat] ].

(** What [marshal] writes for [heap_opaque]: the key 1, then the Opaque
    record, whose 36-byte body is the wrapper record [1 -> Reviver]; the
    Reviver is a Callable with the one-byte chunk and the upvalue record
    [1 -> "st"]. *)
Definition stream_opaque : list byte :=
  [x8e; x01;
   x03; x00; x00; x00; x00; x00; x00; xf0; x3f;
   x07; x03; x24; x00; x00; x00;
   x03; x00; x00; x00; x00; x00; x00; xf0; x3f;
   x06; x02; x01; x00; x00; x00; x72;
   x10; x00; x00; x00;
   x03; x00; x00; x00; x00; x00; x00; xf0; x3f;
   x04; x02; x00; x00; x00; x73; x74].

(** ** Top-level pairs of a stream *)

(** Every read of [mem1] inside [a, b) finds the same bytes in [mem2]. *)
Definition agree (mem1 mem2 : list byte) (a b : Z) : Prop :=
  forall q bs, a <= q -> q + zlen bs <= b -> bytes_at mem1 q bs -> bytes_at mem2 q bs.

Section Pairs.

Variable host_call : value -> list value -> list object -> outcome (value * list object).
Variable host_load : list byte -> (fwhat * nat) + list byte.



(** A value decoded from [mem1] lies in front of the cursor it leaves and
    inside the range; a memory that holds the same bytes there, with a
    range that still covers them, decodes to the same value in the same
    state. *)
Definition local_value (fuel : nat) : Prop :=
  forall mem1 buf len1 p idx L p' idx' L',
    unpack_value host_call host_load fuel mem1 buf len1 p idx L = Ok ((p', idx'), L') ->
    p < p' /\ p' - buf <= len1 /\
    forall mem2 len2,
      agree mem1 mem2 p p' -> p' - buf <= len2 ->
      unpack_value host_call host_load fuel mem2 buf len2 p idx L = Ok ((p', idx'), L').

(** The same for the loop of [mar_unpack], which runs to the end of its
    range. *)
Definition local_loop (fuel : nat) : Prop :=
  forall mem1 buf len p idx L L',
    mar_unpack_loop host_call host_load fuel mem1 buf len p idx L = Ok (tt, L') ->
    forall mem2,
      agree mem1 mem2 p (buf + len) ->
      mar_unpack_loop host_call host_load fuel mem2 buf len p idx L = Ok (tt, L').

End Pairs.


(** The stream of [{ [true] = true }]: the header and one pair. *)
Definition stream_flag : list byte := [x8e; x01; x01; x01; x01; x01].

(** ** Buffers, scalars and flat tables *)

(** What [buf_init] establishes and [buf_write] keeps: the capacity is at
    least the initial 128 bytes and the bytes written fit in it. *)
Definition buf_ok (buf : mar_Buffer) : Prop := 128 <= size buf /\ head buf <= size buf.

(** The values the library copies byte for byte; a number is a 64-bit
    pattern and a string fits the 32-bit length field. *)
Definition storable (v : value) : Prop :=
  match v with
  | VBool _ => True
  | VNum bits => 0 <= bits < 2 ^ 64
  | VStr s => zlen s <= UINT32_MAX
  | _ => False
  end.

(** The record of a scalar in the stream: the type tag, then one byte, the
    eight bytes of the number, or the length and the bytes of the string. *)
Definition enc_scalar (v : value) : list byte :=
  match v with
  | VBool b => [x01; if b then x01 else x00]
  | VNum bits => x03 :: le_bytes 8 bits
  | VStr s => x04 :: le_bytes 4 (zlen s) ++ s
  | _ => []
  end.

Definition enc_pairs (es : list (value * value)) : list byte :=
  concat (map (fun kv => enc_scalar (fst kv) ++ enc_scalar (snd kv)) es).

(** What the host keeps true of every table: no key is nil or NaN, no
    value is nil, and no two keys are raw-equal. *)
Definition key_ok (k : value) : Prop :=
  match k with
  | VNil => False
  | VNum bits => Num.is_nan bits = false
  | _ => True
  end.

Fixpoint distinct_keys (es : list (value * value)) : Prop :=
  match es with
  | [] => True
  | (k, _) :: es' =>
      Forall (fun kv => Tbl.key_eqb k (fst kv) = false) es' /\ distinct_keys es'
  end.

Definition table_ok (es : list (value * value)) : Prop :=
  Forall (fun kv => key_ok (fst kv) /\ snd kv <> VNil) es /\ distinct_keys es.

Definition scalars (es : list (value * value)) : Prop :=
  Forall (fun kv => storable (fst kv) /\ storable (snd kv)) es.

(** The key a traversal holds after the pairs [done]: nil at the start,
    the last key yielded otherwise. *)
Definition cursor (prev : value) (done : list (value * value)) : Prop :=
  match done with
  | [] => prev = VNil
  | _ => exists d v, done = d ++ [(prev, v)]
  end.

(** The pairs [es] stored one after the other into a table holding [acc]. *)
Definition store_all (acc es : list (value * value)) : list (value * value) :=
  fold_left (fun acc kv => Tbl.set acc (fst kv) (snd kv)) es acc.

(** The command comes back: with a value, an error or undefined behaviour,
    but not for lack of recursion depth in the embedding. *)
Definition returns {A} (m : M A) : Prop := forall L, m L <> OutOfFuel.

Section Bounds.

Variable host_call : value -> list value -> list object -> outcome (value * list object).
Variable host_load : list byte -> (fwhat * nat) + list byte.

(** A recursion depth above the number of mapped bytes left is enough for
    one value; the loop needs one more. *)
Definition value_returns (F : nat) : Prop :=
  forall mem buf len p idx L,
    (1 <= F)%nat -> zlen mem - p < Z.of_nat F ->
    unpack_value host_call host_load F mem buf len p idx L <> OutOfFuel.

Definition loop_returns (F : nat) : Prop :=
  forall mem buf len p idx L,
    (2 <= F)%nat -> zlen mem - p + 1 < Z.of_nat F ->
    mar_unpack_loop host_call host_load F mem buf len p idx L <> OutOfFuel.

End Bounds.

(** ** Trees of tables *)

(** A value spread over the heap as a tree: a scalar, or a table at an
    address whose keys are scalars and whose values are such trees. *)
#[warnings="-register-all"] Inductive shape : Type :=
  | SLeaf (v : value)
  | SNode (a : addr) (kids : list (value * shape)).

Definition value_of (s : shape) : value :=
  match s with
  | SLeaf v => v
  | SNode a _ => VTable a
  end.

Definition entries_of (kids : list (value * shape)) : list (value * value) :=
  map (fun ks => (fst ks, value_of (snd ks))) kids.

Fixpoint enc_shape (s : shape) : list byte :=
  match s with
  | SLeaf v => enc_scalar v
  | SNode _ kids =>
      let body := concat (map (fun ks => enc_scalar (fst ks) ++ enc_shape (snd ks)) kids) in
      [x05; x02] ++ le_bytes 4 (zlen body) ++ body
  end.

Definition enc_kids (kids : list (value * shape)) : list byte :=
  concat (map (fun ks => enc_scalar (fst ks) ++ enc_shape (snd ks)) kids).

Fixpoint addrs (s : shape) : list addr :=
  match s with
  | SLeaf _ => []
  | SNode a kids => a :: concat (map (fun ks => addrs (snd ks)) kids)
  end.

Definition addrs_kids (kids : list (value * shape)) : list addr :=
  concat (map (fun ks => addrs (snd ks)) kids).

Fixpoint weight (s : shape) : nat :=
  match s with
  | SLeaf _ => 1
  | SNode _ kids => 4 + length kids + list_sum (map (fun ks => weight (snd ks)) kids)
  end.

Definition weight_kids (kids : list (value * shape)) : nat :=
  length kids + list_sum (map (fun ks => weight (snd ks)) kids).

Fixpoint wf_shape (s : shape) : Prop :=
  match s with
  | SLeaf v => storable v
  | SNode _ kids =>
      Forall (fun ks => storable (fst ks) /\ key_ok (fst ks)) kids
      /\ distinct_keys (entries_of kids)
      /\ zlen (enc_kids kids) <= UINT32_MAX
      /\ (fix all (l : list (value * shape)) : Prop :=
            match l with
            | [] => True
            | ks :: l' => wf_shape (snd ks) /\ all l'
            end) kids
  end.

Fixpoint in_heap (h : list object) (s : shape) : Prop :=
  match s with
  | SLeaf _ => True
  | SNode a kids =>
      h !! a = Some (OTable (entries_of kids) None)
      /\ (fix all (l : list (value * shape)) : Prop :=
            match l with
            | [] => True
            | ks :: l' => in_heap h (snd ks) /\ all l'
            end) kids
  end.

Fixpoint similar (s1 s2 : shape) : Prop :=
  match s1, s2 with
  | SLeaf v1, SLeaf v2 => v1 = v2
  | SNode _ k1, SNode _ k2 =>
      (fix go (l1 l2 : list (value * shape)) : Prop :=
         match l1, l2 with
         | [], [] => True
         | ks1 :: l1', ks2 :: l2' =>
             fst ks1 = fst ks2 /\ similar (snd ks1) (snd ks2) /\ go l1' l2'
         | _, _ => False
         end) k1 k2
  | _, _ => False
  end.

(** The same up to the order in which a table lists its pairs. *)
Fixpoint held (h : list object) (s : shape) : Prop :=
  match s with
  | SLeaf _ => True
  | SNode a kids =>
      (exists es, h !! a = Some (OTable es None) /\ Permutation es (entries_of kids))
      /\ (fix all (l : list (value * shape)) : Prop :=
            match l with
            | [] => True
            | ks :: l' => held h (snd ks) /\ all l'
            end) kids
  end.

(** How deep tables lie in one another.  [pack_value] keeps three stack
    slots for every table it is inside of (the copy it pushes before
    [mar_pack], and the key and the value [lua_next] yields) and
    [unpack_value] two; the source never calls [lua_checkstack], so it can
    count on the [LUA_MINSTACK] = 20 slots every C function is given, and
    these suffice for tables nested five deep: [tbl_marshal] then holds at
    most [5 + 3 * 5] values and the decoder inside [tbl_clone] at most
    [8 + 2 * 5]. *)
Fixpoint depth (s : shape) : nat :=
  match s with
  | SLeaf _ => 0
  | SNode _ kids => S (list_max (map (fun ks => depth (snd ks)) kids))
  end.

Definition depth_kids (kids : list (value * shape)) : nat :=
  list_max (map (fun ks => depth (snd ks)) kids).

Definition wf_kids (kids : list (value * shape)) : Prop :=
  Forall (fun ks => wf_shape (snd ks)) kids.
Definition kids_in_heap (h : list object) (kids : list (value * shape)) : Prop :=
  Forall (fun ks => in_heap h (snd ks)) kids.
Definition similar_kids (k1 k2 : list (value * shape)) : Prop :=
  Forall2 (fun ks1 ks2 => fst ks1 = fst ks2 /\ similar (snd ks1) (snd ks2)) k1 k2.

(** ** Functions *)

(** The table of the upvalues [ups]: upvalue [i] under the key [i]. *)
Fixpoint indexed (i : Z) (ups : list value) : list (value * value) :=
  match ups with
  | [] => []
  | u :: ups' => (num i, u) :: indexed (i + 1) ups'
  end.

(** The record of a Lua function: tag, sub-tag, the chunk and the record
    of the table of its upvalues, each behind its length. *)
Definition enc_fun (code : list byte) (ups : list value) : list byte :=
  [x06; x02] ++ le_bytes 4 (zlen code) ++ code
  ++ le_bytes 4 (zlen (enc_pairs (indexed 1 ups))) ++ enc_pairs (indexed 1 ups).

(** ** More inputs *)

(** [{ [true] = p }] for a light userdata [p]. *)
Definition heap_light : list object :=
  [ OTable [(VBool true, VLight 7)] None ].

(** [{ [true] = f }] for a C function [f]. *)
Definition heap_cfun : list object :=
  [ OTable [(VBool true, VFun 1%nat)] None; OFun WhatC [] [] ].

(** A reference table, and a userdata whose metatable has a persist hook. *)
Definition heap_hooked : list object :=
  [ OTable [] None; OUdata (Some 2%nat);
    OTable [(VStr str__persist, VFun 3%nat)] None; OFun WhatLua hook_code [] ].

(** [{ k = { [1] = "x" }, [true] = 2 }]: a table inside a table. *)
Definition heap_tree : list object :=
  [ OTable [(VStr [x6b], VTable 1%nat); (VBool true, VNum (Num.of_int 2))] None;
    OTable [(VNum (Num.of_int 1), VStr [x78])] None ].

Definition kids_tree : list (value * shape) :=
  [ (VStr [x6b], SNode 1%nat [(VNum (Num.of_int 1), SLeaf (VStr [x78]))]);
    (VBool true, SLeaf (VNum (Num.of_int 2))) ].

(** A loader that takes every chunk for a Lua function with one upvalue. *)
Definition load_one (chunk : list byte) : (fwhat * nat) + list byte :=
  inl (WhatLua, 1%nat).

(** A reference table and a Lua function with the upvalue [true]. *)
Definition heap_closure : list object :=
  [ OTable [] None; OFun WhatLua hook_code [VBool true] ].

(** A reference table that holds the table at address 1 under the id 1. *)
Definition heap_seen : list object :=
  [ OTable [(VTable 1%nat, num 1)] None; OTable [] None ].

(** A reference table that holds the table at address 1 as its entry 1. *)
Definition heap_known : list object :=
  [ OTable [(num 1, VTable 1%nat)] None; OTable [] None ].

(** * Proofs *)

(** ** The monad *)

Lemma bind_ok {A B} (m : M A) (k : A -> M B) L a L' :
  m L = Ok (a, L') -> bind m k L = k a L'.
Proof. intros H. unfold bind. rewrite H. reflexivity. Qed.

Lemma bind_inv {A B} (m : M A) (k : A -> M B) L r :
  bind m k L = Ok r -> exists a L', m L = Ok (a, L') /\ k a L' = Ok r.
Proof.
  unfold bind. destruct (m L) as [[a L']| | |]; try discriminate. eauto.
Qed.

(** ** Lengths and memory *)

Lemma zlen_app {A} (a b : list A) : zlen (a ++ b) = zlen a + zlen b.
Proof. unfold zlen. rewrite length_app. lia. Qed.

Lemma zlen_nonneg {A} (a : list A) : 0 <= zlen a.
Proof. unfold zlen. lia. Qed.

Lemma peek_bytes_at mem p bs L :
  bytes_at mem p bs -> peek mem p (zlen bs) L = Ok (bs, L).
Proof.
  intros (Hp & Hb & Ht). unfold peek.
  pose proof (zlen_nonneg bs).
  replace ((0 <=? p) && (0 <=? zlen bs) && (p + zlen bs <=? zlen mem)) with true
    by (symmetry; rewrite !andb_true_iff, !Z.leb_le; auto).
  unfold zlen. rewrite Nat2Z.id, Ht. reflexivity.
Qed.

Lemma bytes_at_app mem p a b :
  bytes_at mem p (a ++ b) <-> bytes_at mem p a /\ bytes_at mem (p + zlen a) b.
Proof.
  unfold bytes_at. rewrite zlen_app.
  pose proof (zlen_nonneg a). pose proof (zlen_nonneg b).
  split.
  - intros (Hp & Hb & Ht).
    rewrite length_app in Ht.
    assert (Ha : take (length a) (drop (Z.to_nat p) mem) = a).
    { apply (f_equal (take (length a))) in Ht.
      rewrite take_take, take_app_length in Ht.
      replace (length a `min` (length a + length b))%nat with (length a) in Ht by lia.
      exact Ht. }
    repeat split; try lia; auto.
    apply (f_equal (drop (length a))) in Ht.
    rewrite drop_app_length in Ht.
    rewrite <- take_drop_commute, drop_drop in Ht.
    unfold zlen. rewrite Z2Nat.inj_add, Nat2Z.id by lia. exact Ht.
  - intros ((Hp & Hb & Ht) & (Hp' & Hb' & Ht')).
    repeat split; try lia.
    rewrite length_app.
    rewrite <- (take_drop (length a) (take _ _)).
    rewrite take_take, <- take_drop_commute, drop_drop.
    replace (length a `min` (length a + length b))%nat with (length a) by lia.
    rewrite Ht. f_equal.
    unfold zlen in Ht'. rewrite Z2Nat.inj_add, Nat2Z.id in Ht' by lia.
    exact Ht'.
Qed.

Lemma peek_inv mem p n L bs L' :
  peek mem p n L = Ok (bs, L') -> L' = L /\ zlen bs = n /\ bytes_at mem p bs.
Proof.
  unfold peek.
  destruct ((0 <=? p) && (0 <=? n) && (p + n <=? zlen mem)) eqn:E; [|discriminate].
  rewrite !andb_true_iff, !Z.leb_le in E. destruct E as ((Hp & Hn) & Hb).
  intros H. injection H as <- <-.
  assert (Hl : zlen (take (Z.to_nat n) (drop (Z.to_nat p) mem)) = n).
  { unfold zlen in *. rewrite length_take, length_drop. lia. }
  repeat split; auto; try lia.
  f_equal. unfold zlen in Hl. lia.
Qed.

Lemma peek_char_bytes_at mem p b L :
  bytes_at mem p [b] -> peek_char mem p L = Ok (Z_of_byte b, L).
Proof.
  intros H. unfold peek_char.
  rewrite (bind_ok _ _ _ _ _ (peek_bytes_at mem p [b] L H)).
  unfold ret, le_Z. do 3 f_equal. lia.
Qed.

Lemma mar_incr_ptr_ok buf len p l L :
  (p - buf) + l <= len -> mar_incr_ptr buf len p l L = Ok (p + l, L).
Proof.
  intros H. unfold mar_incr_ptr.
  replace (len <? p - buf + l) with false by (symmetry; apply Z.ltb_ge; lia).
  reflexivity.
Qed.

Lemma mar_next_len_ok mem buf len p bs L :
  (p - buf) + 4 <= len -> length bs = 4%nat -> bytes_at mem p bs ->
  mar_next_len mem buf len p L = Ok ((le_Z bs, p + 4), L).
Proof.
  intros H Hl Hb. unfold mar_next_len.
  replace (len <? p - buf + 4) with false by (symmetry; apply Z.ltb_ge; lia).
  apply (peek_bytes_at _ _ _ L) in Hb.
  replace (zlen bs) with 4 in Hb by (unfold zlen; lia).
  rewrite (bind_ok _ _ _ _ _ Hb). reflexivity.
Qed.

(** The rules of symbolic execution: what each API call does to a state
    whose top stack slots are known.  They are collected in the hint
    database [lua_exec]. *)
Create HintDb lua_exec.

Lemma lua_push_ok v s h c :
  lua_push v (mkState s h c) = Ok (tt, mkState (v :: s) h c).
Proof. reflexivity. Qed.

Lemma lua_pushnil_ok s h c :
  lua_pushnil (mkState s h c) = Ok (tt, mkState (VNil :: s) h c).
Proof. reflexivity. Qed.

Lemma lua_pushboolean_ok b s h c :
  lua_pushboolean b (mkState s h c) = Ok (tt, mkState (VBool (negb (b =? 0)) :: s) h c).
Proof. reflexivity. Qed.

Lemma lua_pushnumber_ok b s h c :
  lua_pushnumber b (mkState s h c) = Ok (tt, mkState (VNum b :: s) h c).
Proof. reflexivity. Qed.

Lemma lua_pushinteger_ok i s h c :
  lua_pushinteger i (mkState s h c) = Ok (tt, mkState (VNum (Num.of_int i) :: s) h c).
Proof. reflexivity. Qed.

Lemma lua_pushlstring_ok b s h c :
  lua_pushlstring b (mkState s h c) = Ok (tt, mkState (VStr b :: s) h c).
Proof. reflexivity. Qed.

Lemma lua_pushvalue_m1 v s h c :
  lua_pushvalue (-1) (mkState (v :: s) h c) = Ok (tt, mkState (v :: v :: s) h c).
Proof. reflexivity. Qed.

Lemma lua_pushvalue_m2 v w s h c :
  lua_pushvalue (-2) (mkState (v :: w :: s) h c) = Ok (tt, mkState (w :: v :: w :: s) h c).
Proof. reflexivity. Qed.

Lemma lua_at_m1 v s h c :
  lua_at (-1) (mkState (v :: s) h c) = Ok (v, mkState (v :: s) h c).
Proof. reflexivity. Qed.

Lemma lua_at_m2 v w s h c :
  lua_at (-2) (mkState (v :: w :: s) h c) = Ok (w, mkState (v :: w :: s) h c).
Proof. reflexivity. Qed.

Lemma lua_at_m3 v w x s h c :
  lua_at (-3) (mkState (v :: w :: x :: s) h c)
  = Ok (x, mkState (v :: w :: x :: s) h c).
Proof. reflexivity. Qed.

Lemma lua_pop_1 v s h c :
  lua_pop 1 (mkState (v :: s) h c) = Ok (tt, mkState s h c).
Proof. reflexivity. Qed.

Lemma lua_pop_2 v w s h c :
  lua_pop 2 (mkState (v :: w :: s) h c) = Ok (tt, mkState s h c).
Proof. reflexivity. Qed.

Lemma lua_remove_m2 v w s h c :
  lua_remove (-2) (mkState (v :: w :: s) h c) = Ok (tt, mkState (v :: s) h c).
Proof. reflexivity. Qed.

Lemma lua_isnil_m1 v s h c :
  lua_isnil (-1) (mkState (v :: s) h c)
  = Ok (type_of v =? LUA_TNIL, mkState (v :: s) h c).
Proof. reflexivity. Qed.

Lemma lua_isfunction_m1 v s h c :
  lua_isfunction (-1) (mkState (v :: s) h c)
  = Ok (type_of v =? LUA_TFUNCTION, mkState (v :: s) h c).
Proof. reflexivity. Qed.

Lemma lua_tolstring_m1 b s h c :
  lua_tolstring (-1) (mkState (VStr b :: s) h c) = Ok (b, mkState (VStr b :: s) h c).
Proof. reflexivity. Qed.

Lemma lua_newtable_ok s h c :
  lua_newtable (mkState s h c)
  = Ok (tt, mkState (VTable (length h) :: s) (h ++ [OTable [] None]) c).
Proof. reflexivity. Qed.

Lemma buf_init_ok L : buf_init L = Ok (mkBuffer 128 0 [], L).
Proof. reflexivity. Qed.

Lemma buf_done_ok buf s h c :
  buf_done buf (mkState s h c) = Ok (tt, mkState (VStr (data buf) :: s) h c).
Proof. reflexivity. Qed.

Lemma buf_write_ok str len buf L :
  len <= UINT32_MAX ->
  buf_write str len buf L
  = Ok (mkBuffer (buf_reserve buf len) (seek buf)
                 (data buf ++ take (Z.to_nat len) str), L).
Proof.
  intros H. unfold buf_write.
  replace (UINT32_MAX <? len) with false by (symmetry; apply Z.ltb_ge; lia).
  reflexivity.
Qed.

Lemma ret_ok {A} (a : A) L : ret a L = Ok (a, L).
Proof. reflexivity. Qed.

#[global] Hint Resolve lua_at_m1 lua_at_m2 lua_at_m3 lua_push_ok lua_pushnil_ok lua_pushboolean_ok
  lua_pushnumber_ok lua_pushinteger_ok lua_pushlstring_ok lua_pushvalue_m1
  lua_pushvalue_m2 lua_pop_1 lua_pop_2 lua_remove_m2 lua_isnil_m1
  lua_isfunction_m1 lua_tolstring_m1 lua_newtable_ok buf_init_ok buf_done_ok
  ret_ok : lua_exec.

(** One step of symbolic execution of [bind m k L]: by a hypothesis that
    gives [m L], by a bounds check, by the bytes known to stand at the
    cursor, or by a rule of [lua_exec]. *)
Ltac run1 :=
  lazymatch goal with
  | |- bind ?m ?k ?L = _ =>
      first
        [ match goal with
          | H : m L = Ok (?a, ?L') |- _ => rewrite (bind_ok m k L a L' H)
          end
        | lazymatch m with
          | mar_incr_ptr ?buf ?len ?p ?l =>
              rewrite (bind_ok m k L (p + l) L
                         (mar_incr_ptr_ok buf len p l L ltac:(lia)))
          | peek_char ?mem ?p =>
              match goal with
              | H : bytes_at mem ?q [?b] |- _ =>
                  let H' := fresh in
                  assert (H' : bytes_at mem p [b])
                    by (replace p with q by lia; exact H);
                  rewrite (bind_ok m k L _ _ (peek_char_bytes_at mem p b L H'));
                  clear H'
              end
          | mar_next_len ?mem ?buf ?len ?p =>
              match goal with
              | H : bytes_at mem ?q ?bs |- _ =>
                  let H' := fresh in
                  assert (H' : bytes_at mem p bs)
                    by (replace p with q by lia; exact H);
                  rewrite (bind_ok m k L _ _
                             (mar_next_len_ok mem buf len p bs L
                                ltac:(lia) ltac:(first [assumption | reflexivity]) H'));
                  clear H'
              end
          | buf_write ?str ?len ?buf =>
              rewrite (bind_ok m k L _ _
                         (buf_write_ok str len buf L
                            ltac:(first [assumption | vm_compute; discriminate])))
          end
        | let H := fresh in
          eassert (H : m L = Ok _) by (solve [eauto with lua_exec nocore]);
          rewrite (bind_ok m k L _ _ H); clear H ]
  end; cbv beta iota.

(** Deciding the condition of a conditional whose test computes. *)
Ltac run_if :=
  lazymatch goal with
  | |- (if ?c then _ else _) _ = _ =>
      let b := eval hnf in c in
      lazymatch b with
      | true => change c with true
      | false => change c with false
      end; cbv iota
  end.

(** A conditional in the place of a command. *)
Ltac run_cond :=
  lazymatch goal with
  | |- bind (if ?c then _ else _) _ _ = _ =>
      let b := eval hnf in c in
      lazymatch b with
      | true => change c with true
      | false => change c with false
      end; cbv iota
  end.

Ltac run := repeat first [run1 | run_if | run_cond].

(** ** Stack slots *)

Lemma slot_cons x s i v : 0 < i -> slot s i v -> slot (x :: s) i v.
Proof.
  unfold slot, index2adr. intros Hi Hx.
  replace (0 <? i) with true in * by (symmetry; apply Z.ltb_lt; lia).
  destruct (i <=? zlen s) eqn:E; [|discriminate].
  apply Z.leb_le in E.
  replace (i <=? zlen (x :: s)) with true
    by (symmetry; apply Z.leb_le; unfold zlen in *; simpl length; lia).
  simpl in *. unfold zlen in E.
  replace (S (length s) - Z.to_nat i)%nat with (S (length s - Z.to_nat i)) by lia.
  exact Hx.
Qed.

Lemma lua_at_slot s h c i v :
  slot s i v -> lua_at i (mkState s h c) = Ok (v, mkState s h c).
Proof. unfold slot, lua_at, bind, get_stack. simpl. intros ->. reflexivity. Qed.

Lemma table_at_slot s h c i a es mt :
  slot s i (VTable a) -> h !! a = Some (OTable es mt) ->
  table_at i (mkState s h c) = Ok ((a, es, mt), mkState s h c).
Proof.
  intros Hs Hh. unfold table_at.
  rewrite (bind_ok _ _ _ _ _ (lua_at_slot s h c i _ Hs)).
  unfold bind, get_heap. simpl. rewrite Hh. reflexivity.
Qed.

Lemma lua_rawgeti_slot s h c i n a es mt :
  slot s i (VTable a) -> h !! a = Some (OTable es mt) ->
  lua_rawgeti i n (mkState s h c)
  = Ok (tt, mkState (Tbl.get es (VNum (Num.of_int n)) :: s) h c).
Proof.
  intros Hs Hh. unfold lua_rawgeti.
  rewrite (bind_ok _ _ _ _ _ (table_at_slot s h c i a es mt Hs Hh)).
  reflexivity.
Qed.

Lemma lua_rawseti_slot v s h c i n a es mt :
  slot (v :: s) i (VTable a) -> h !! a = Some (OTable es mt) ->
  lua_rawseti i n (mkState (v :: s) h c)
  = Ok (tt, mkState s (<[a := OTable (Tbl.set es (VNum (Num.of_int n)) v) mt]> h) c).
Proof.
  intros Hs Hh. unfold lua_rawseti.
  rewrite (bind_ok _ _ _ _ _ (table_at_slot _ h c i a es mt Hs Hh)).
  reflexivity.
Qed.

Section Proofs.

Variable host_call : value -> list value -> list object -> outcome (value * list object).
Variable host_load : list byte -> (fwhat * nat) + list byte.

Abbreviation unpack_value := (unpack_value host_call host_load).
Abbreviation mar_unpack_loop := (mar_unpack_loop host_call host_load).

(** C4, amended.  A back-reference (sub-tag Reference under the Composite,
    Callable or Opaque tag) whose id the reference table does not hold
    resolves to Nil: the decoder pushes nil, moves past the six bytes of the
    record and raises no error. *)
Theorem unknown_reference_is_nil fuel mem buf len p idx L t bs r es mt :
  t = x05 \/ t = x06 \/ t = x07 ->
  length bs = 4%nat ->
  bytes_at mem p ([t; x01] ++ bs) ->
  (p - buf) + 6 <= len ->
  slot (stack L) 2 (VTable r) ->
  heap L !! r = Some (OTable es mt) ->
  Tbl.get es (VNum (Num.of_int (wrap32s (le_Z bs)))) = VNil ->
  unpack_value (S fuel) mem buf len p idx L
  = Ok ((p + 6, idx), mkState (VNil :: stack L) (heap L) (calls L)).
Proof.
  intros Ht Hl Hb Hlen Hs Hr Hes.
  change [t; x01] with ([t] ++ [x01]) in Hb.
  apply bytes_at_app in Hb as [Hb Hb4].
  apply bytes_at_app in Hb as [Hb0 Hb1].
  change (zlen [t]) with 1 in *. change (zlen ([t] ++ [x01])) with 2 in *.
  destruct L as [s h c]. simpl in *.
  unfold unpack_value, MAR_CHR.
  destruct Ht as [-> | [-> | ->]]; run;
    rewrite (bind_ok _ _ _ _ _ (lua_rawgeti_slot s h c 2 _ r es mt Hs Hr));
    rewrite Hes; unfold ret; do 3 f_equal; lia.
Qed.

End Proofs.

(** ** Values that are dropped: coroutines and userdata without a hook *)

Lemma lua_type_ok idx L v :
  lua_at idx L = Ok (v, L) -> lua_type idx L = Ok (type_of v, L).
Proof. intros H. unfold lua_type. rewrite (bind_ok _ _ _ _ _ H). reflexivity. Qed.

Lemma lua_pushvalue_ok idx s h c v :
  lua_at idx (mkState s h c) = Ok (v, mkState s h c) ->
  lua_pushvalue idx (mkState s h c) = Ok (tt, mkState (v :: s) h c).
Proof. intros H. unfold lua_pushvalue. rewrite (bind_ok _ _ _ _ _ H). reflexivity. Qed.

Lemma lua_rawget_slot k s h c i a es mt :
  slot (k :: s) i (VTable a) -> h !! a = Some (OTable es mt) ->
  lua_rawget i (mkState (k :: s) h c) = Ok (tt, mkState (Tbl.get es k :: s) h c).
Proof.
  intros Hs Hh. unfold lua_rawget.
  rewrite (bind_ok _ _ _ _ _ (table_at_slot _ h c i a es mt Hs Hh)).
  reflexivity.
Qed.

Lemma luaL_getmetafield_hookless idx L v :
  lua_at idx L = Ok (v, L) -> hookless (heap L) v ->
  luaL_getmetafield idx str__persist L = Ok (false, L).
Proof.
  intros H Hh. unfold luaL_getmetafield. rewrite (bind_ok _ _ _ _ _ H).
  unfold bind, get_heap. unfold hookless in Hh.
  destruct (metatable_of (heap L) v) as [m|]; [|reflexivity].
  destruct Hh as (es & mt & -> & ->). reflexivity.
Qed.

Lemma get_remove es k : Tbl.get (Tbl.remove es k) k = VNil.
Proof.
  induction es as [|[k' v] es IH]; simpl; [reflexivity|].
  destruct (Tbl.key_eqb k' k) eqn:E; [exact IH|].
  simpl. rewrite E. exact IH.
Qed.

Section Dropped.

Variable host_call : value -> list value -> list object -> outcome (value * list object).
Variable host_load : list byte -> (fwhat * nat) + list byte.

(** C8, amended.  A coroutine, or a userdata without persist hook, in a
    value position: [pack_value] raises no error, writes the bare type tag
    (for the userdata followed by the Value sub-tag) and registers nothing;
    [unpack_value] pushes nil for either encoding and raises no error; and
    storing that nil under a valid key leaves the key absent, so reading
    the position in the result gives Nil. *)
Theorem dropped_values :
  (forall fuel buf val idx L a,
      lua_at val L = Ok (VThread a, L) ->
      exists buf',
        pack_value host_call (S fuel) buf val idx L = Ok ((buf', idx), L)
        /\ data buf' = data buf ++ [x08])
  /\ (forall fuel buf val idx L a r es mt,
      lua_at val L = Ok (VUdata a, L) ->
      slot (stack L) 2 (VTable r) ->
      heap L !! r = Some (OTable es mt) ->
      Tbl.get es (VUdata a) = VNil ->
      hookless (heap L) (VUdata a) ->
      exists buf',
        pack_value host_call (S fuel) buf val idx L = Ok ((buf', idx), L)
        /\ data buf' = data buf ++ [x07; x02])
  /\ (forall fuel mem buf len p idx L,
      bytes_at mem p [x08] -> (p - buf) + 1 <= len ->
      unpack_value host_call host_load (S fuel) mem buf len p idx L
      = Ok ((p + 1, idx), mkState (VNil :: stack L) (heap L) (calls L)))
  /\ (forall fuel mem buf len p idx L,
      bytes_at mem p [x07; x02] -> (p - buf) + 2 <= len ->
      unpack_value host_call host_load (S fuel) mem buf len p idx L
      = Ok ((p + 2, idx), mkState (VNil :: stack L) (heap L) (calls L)))
  /\ (forall k a s h c es,
      h !! a = Some (OTable es None) ->
      check_key k (mkState (VNil :: k :: VTable a :: s) h c)
        = Ok (tt, mkState (VNil :: k :: VTable a :: s) h c) ->
      exists h',
        lua_settable (-3) (mkState (VNil :: k :: VTable a :: s) h c)
          = Ok (tt, mkState (VTable a :: s) h' c)
        /\ field h' (VTable a) k = VNil).
Proof.
  repeat split.
  - intros fuel buf val idx [s h c] a Hat.
    pose proof (lua_type_ok _ _ _ Hat) as Hty.
    eexists. split.
    + unfold pack_value. run. reflexivity.
    + reflexivity.
  - intros fuel buf val idx [s h c] a r es mt Hat Hs Hr Hget Hh. simpl in *.
    pose proof (lua_type_ok _ _ _ Hat) as Hty.
    pose proof (lua_pushvalue_ok _ _ _ _ _ Hat) as Hpv.
    pose proof (lua_rawget_slot _ _ _ c 2 _ _ _ (slot_cons (VUdata a) s 2 (VTable r) ltac:(lia) Hs) Hr) as Hrg.
    rewrite Hget in Hrg.
    pose proof (luaL_getmetafield_hookless _ _ _ Hat Hh) as Hmf.
    eexists. split.
    + unfold pack_value. run. reflexivity.
    + cbn [data]. rewrite <- app_assoc. reflexivity.
  - intros fuel mem buf len p idx [s h c] Hb Hlen.
    unfold unpack_value, MAR_CHR. run. reflexivity.
  - intros fuel mem buf len p idx [s h c] Hb Hlen.
    change [x07; x02] with ([x07] ++ [x02]) in Hb.
    apply bytes_at_app in Hb as [Hb0 Hb1]. change (zlen [x07]) with 1 in Hb1.
    unfold unpack_value, MAR_CHR. run. unfold ret. do 3 f_equal. lia.
  - intros k a s h c es Hh Hk.
    eexists. split.
    + unfold lua_settable.
      assert (Ht : table_at (-3) (mkState (VNil :: k :: VTable a :: s) h c)
                   = Ok ((a, es, None), mkState (VNil :: k :: VTable a :: s) h c)).
      { unfold table_at. run. unfold bind, get_heap. simpl. rewrite Hh. reflexivity. }
      run. reflexivity.
    + unfold field. cbn [heap].
      rewrite list_lookup_insert_eq by (eapply lookup_lt_Some; eauto).
      apply get_remove.
Qed.

End Dropped.

(** ** Registration in the reference table *)

Lemma lookup_snoc {A} (l : list A) (x : A) : (l ++ [x]) !! length l = Some x.
Proof. rewrite lookup_app_r by lia. rewrite Nat.sub_diag. reflexivity. Qed.

Lemma lookup_snoc_lt {A} (l : list A) (x y : A) i :
  l !! i = Some y -> (l ++ [x]) !! i = Some y.
Proof. intros H. rewrite lookup_app_l; [exact H | eapply lookup_lt_Some; eauto]. Qed.

Lemma lua_rawgeti_m1 n a s h c es mt :
  h !! a = Some (OTable es mt) ->
  lua_rawgeti (-1) n (mkState (VTable a :: s) h c)
  = Ok (tt, mkState (Tbl.get es (VNum (Num.of_int n)) :: VTable a :: s) h c).
Proof.
  intros Hh. unfold lua_rawgeti, table_at.
  unfold bind at 1. unfold bind at 1. rewrite lua_at_m1.
  unfold bind at 1. unfold get_heap. cbn [heap]. rewrite Hh. reflexivity.
Qed.

Lemma lua_rawseti_m2 n v a s h c es mt :
  h !! a = Some (OTable es mt) ->
  lua_rawseti (-2) n (mkState (v :: VTable a :: s) h c)
  = Ok (tt, mkState (VTable a :: s)
                    (<[a := OTable (Tbl.set es (VNum (Num.of_int n)) v) mt]> h) c).
Proof.
  intros Hh. unfold lua_rawseti, table_at.
  unfold bind at 1. unfold bind at 1. rewrite lua_at_m2.
  unfold bind at 1. unfold get_heap. cbn [heap]. rewrite Hh. reflexivity.
Qed.

Lemma lua_rawset_slot v k s h c i a es mt :
  slot (v :: k :: s) i (VTable a) -> h !! a = Some (OTable es mt) ->
  check_key k (mkState (v :: k :: s) h c) = Ok (tt, mkState (v :: k :: s) h c) ->
  lua_rawset i (mkState (v :: k :: s) h c)
  = Ok (tt, mkState s (<[a := OTable (Tbl.set es k v) mt]> h) c).
Proof.
  intros Hs Hh Hk. unfold lua_rawset.
  rewrite (bind_ok _ _ _ _ _ (table_at_slot _ h c i a es mt Hs Hh)).
  rewrite (bind_ok _ _ _ _ _ (lua_at_m2 _ _ _ _ _)).
  rewrite (bind_ok _ _ _ _ _ (lua_at_m1 _ _ _ _)).
  rewrite (bind_ok _ _ _ _ _ Hk). reflexivity.
Qed.

Lemma lua_at_below x s h c val v :
  val < 0 ->
  lua_at val (mkState s h c) = Ok (v, mkState s h c) ->
  lua_at (val - 1) (mkState (x :: s) h c) = Ok (v, mkState (x :: s) h c).
Proof.
  intros Hv. unfold lua_at, bind, get_stack. cbn [stack]. unfold index2adr.
  replace (0 <? val) with false by (symmetry; apply Z.ltb_ge; lia).
  replace (0 <? val - 1) with false by (symmetry; apply Z.ltb_ge; lia).
  replace (val <? 0) with true by (symmetry; apply Z.ltb_lt; lia).
  replace (val - 1 <? 0) with true by (symmetry; apply Z.ltb_lt; lia).
  replace (Z.to_nat (- (val - 1) - 1)) with (S (Z.to_nat (- val - 1))) by lia.
  cbn. destruct (s !! Z.to_nat (- val - 1)); [|discriminate].
  intros H. injection H as <-. reflexivity.
Qed.

Lemma luaL_getmetafield_hook idx s h c v m mes mmt hk :
  lua_at idx (mkState s h c) = Ok (v, mkState s h c) ->
  metatable_of h v = Some m ->
  h !! m = Some (OTable mes mmt) ->
  Tbl.get mes (VStr str__persist) = hk ->
  hk <> VNil ->
  luaL_getmetafield idx str__persist (mkState s h c)
  = Ok (true, mkState (hk :: s) h c).
Proof.
  intros H Hm Hh Hg Hn. unfold luaL_getmetafield. rewrite (bind_ok _ _ _ _ _ H).
  unfold bind at 1. unfold get_heap. cbn [heap]. rewrite Hm, Hh, Hg.
  destruct hk; try reflexivity. contradiction.
Qed.

Lemma get_update es k v :
  Tbl.key_eqb k k = true -> Tbl.get (Tbl.update es k v) k = v.
Proof.
  intros Hk. induction es as [|[k' v'] es IH]; simpl.
  - rewrite Hk. reflexivity.
  - destruct (Tbl.key_eqb k' k) eqn:E; simpl; rewrite E; [reflexivity | exact IH].
Qed.

Lemma of_int_not_nan i :
  - 2 ^ 53 < i < 2 ^ 53 -> Num.is_nan (Num.of_int i) = false.
Proof.
  intros Hi. unfold Num.is_nan. apply andb_false_intro1. apply Z.eqb_neq.
  unfold Num.of_int. destruct (i =? 0) eqn:E0; [discriminate|].
  apply Z.eqb_neq in E0.
  set (a := Z.abs i). set (e := Z.log2 a).
  assert (Ha : 0 < a < 2 ^ 53) by (subst a; lia).
  assert (He : 0 <= e < 53).
  { subst e. split; [apply Z.log2_nonneg|]. apply Z.log2_lt_pow2; lia. }
  destruct (Z.log2_spec a ltac:(lia)) as [Hlo Hhi]. fold e in Hlo, Hhi.
  replace (Z.succ e) with (e + 1) in Hhi by lia.
  rewrite Z.pow_add_r in Hhi by lia. change (2 ^ 1) with 2 in Hhi.
  set (m := (a - 2 ^ e) * 2 ^ (52 - e)).
  assert (Hm : 0 <= m < 2 ^ 52).
  { subst m. split; [apply Z.mul_nonneg_nonneg; [lia | apply Z.pow_nonneg; lia]|].
    replace (2 ^ 52) with (2 ^ e * 2 ^ (52 - e))
      by (rewrite <- Z.pow_add_r by lia; f_equal; lia).
    apply Z.mul_lt_mono_pos_r; [apply Z.pow_pos_nonneg; lia | lia]. }
  unfold Num.expo.
  replace ((if i <? 0 then 2 ^ 63 else 0) + (e + 1023) * 2 ^ 52 + m)
    with (m + ((if i <? 0 then 2 ^ 11 else 0) + e + 1023) * 2 ^ 52)
    by (destruct (i <? 0); lia).
  rewrite Z.div_add by lia. rewrite (Z.div_small m) by lia.
  destruct (i <? 0).
  - replace (0 + (2 ^ 11 + e + 1023)) with (e + 1023 + 1 * 2 ^ 11) by lia.
    rewrite Z.mod_add by lia. rewrite Z.mod_small by lia. lia.
  - rewrite Z.mod_small by lia. lia.
Qed.

Lemma num_key_refl i :
  - 2 ^ 53 < i < 2 ^ 53 -> Tbl.key_eqb (num i) (num i) = true.
Proof.
  intros Hi. unfold num, Tbl.key_eqb, Num.eqb.
  rewrite (of_int_not_nan i Hi). simpl. rewrite Z.eqb_refl. reflexivity.
Qed.

#[global] Hint Resolve lookup_snoc lookup_snoc_lt lua_rawgeti_m1 lua_rawseti_m2
  lua_rawset_slot lua_rawgeti_slot lua_rawseti_slot lua_rawget_slot slot_cons
  : lua_exec.
#[global] Hint Extern 1 (0 < _) => lia : lua_exec.
#[global] Hint Extern 1 (check_key _ _ = _) => reflexivity : lua_exec.

Section Registration.

Variable host_call : value -> list value -> list object -> outcome (value * list object).
Variable host_load : list byte -> (fwhat * nat) + list byte.

Abbreviation unpack_value' := (unpack_value host_call host_load).
Abbreviation mar_unpack_loop' := (mar_unpack_loop host_call host_load).

(** C5, amended.  A tag=Value Composite record: the empty container is
    created and entered in the reference table under the current id before
    the contents are decoded.  A tag=Opaque record: nothing is entered in
    the reference table before the contents are decoded; what is entered
    for the record is the Reviver's result, and only after the contents
    have been decoded and the Reviver has been called. *)
Theorem registration_order :
  (forall fuel mem buf len p idx L bs r es mt,
      length bs = 4%nat ->
      bytes_at mem p ([x05; x02] ++ bs) ->
      (p - buf) + 6 <= len ->
      slot (stack L) 2 (VTable r) ->
      heap L !! r = Some (OTable es mt) ->
      - 2 ^ 31 <= idx < 2 ^ 31 ->
      let a := length (heap L) in
      let L1 := mkState (VTable a :: stack L)
                  (<[r := OTable (Tbl.set es (num idx) (VTable a)) mt]>
                     (heap L ++ [OTable [] None]))
                  (calls L) in
      unpack_value' (S fuel) mem buf len p idx L
      = (mar_unpack_loop' fuel mem (p + 6) (le_Z bs) (p + 6) (int_succ idx) ;;
         p' <- mar_incr_ptr buf len (p + 6) (le_Z bs) ;;
         ret (p', int_succ idx)) L1
      /\ field (heap L1) (VTable r) (num idx) = VTable a
      /\ heap L1 !! a = Some (OTable [] None))
  /\ (forall fuel mem buf len p idx L t bs r,
      t = x05 \/ t = x07 ->
      length bs = 4%nat ->
      bytes_at mem p ([t; x03] ++ bs) ->
      (p - buf) + 6 <= len ->
      slot (stack L) 2 (VTable r) ->
      let a := length (heap L) in
      let L1 := mkState (VTable a :: stack L) (heap L ++ [OTable [] None]) (calls L) in
      unpack_value' (S fuel) mem buf len p idx L
      = (mar_unpack_loop' fuel mem (p + 6) (le_Z bs) (p + 6) idx ;;
         lua_rawgeti (-1) 1 ;;
         lua_call host_call 0 ;;
         lua_remove (-2) ;;
         lua_pushvalue (-1) ;;
         lua_rawseti 2 idx ;;
         p' <- mar_incr_ptr buf len (p + 6) (le_Z bs) ;;
         ret (p', int_succ idx)) L1
      /\ (forall k, field (heap L1) (VTable r) k = field (heap L) (VTable r) k)).
Proof.
  split.
  - intros fuel mem buf len p idx [s h c] bs r es mt Hl Hb Hlen Hs Hr Hidx a L1.
    cbn [stack heap calls] in *.
    change [x05; x02] with ([x05] ++ [x02]) in Hb.
    apply bytes_at_app in Hb as [Hb Hb4].
    apply bytes_at_app in Hb as [Hb0 Hb1].
    change (zlen [x05]) with 1 in *. change (zlen ([x05] ++ [x02])) with 2 in *.
    assert (Hra : (r < length h)%nat) by (eapply lookup_lt_Some; eauto).
    repeat split.
    + unfold unpack_value, MAR_CHR. run.
      replace (p + 1 + 1 + 4) with (p + 6) by lia. reflexivity.
    + subst L1. unfold field. cbn [heap].
      rewrite list_lookup_insert_eq by (rewrite length_app; simpl; lia).
      unfold Tbl.set. apply get_update. apply num_key_refl. lia.
    + subst L1. cbn [heap]. rewrite list_lookup_insert_ne by lia.
      apply lookup_snoc.
  - intros fuel mem buf len p idx [s h c] t bs r Ht Hl Hb Hlen Hs a L1.
    cbn [stack heap calls] in *.
    change [t; x03] with ([t] ++ [x03]) in Hb.
    apply bytes_at_app in Hb as [Hb Hb4].
    apply bytes_at_app in Hb as [Hb0 Hb1].
    change (zlen [t]) with 1 in *. change (zlen ([t] ++ [x03])) with 2 in *.
    split.
    + unfold unpack_value, MAR_CHR.
      destruct Ht as [-> | ->]; run;
        replace (p + 1 + 1 + 4) with (p + 6) by lia; reflexivity.
    + intros k. subst L1. unfold field. cbn [heap].
      destruct (h !! r) as [o|] eqn:E.
      * rewrite (lookup_snoc_lt _ _ _ _ E). reflexivity.
      * apply lookup_ge_None in E.
        destruct (decide (r = length h)) as [-> | Hne].
        -- rewrite lookup_snoc. reflexivity.
        -- rewrite lookup_ge_None_2 by (rewrite length_app; simpl; lia).
           reflexivity.
Qed.

End Registration.

(** ** The persist hook and the Reviver *)

Lemma slot_below x s val v : val < 0 -> slot s val v -> slot (x :: s) (val - 1) v.
Proof.
  unfold slot, index2adr. intros Hv.
  replace (0 <? val) with false by (symmetry; apply Z.ltb_ge; lia).
  replace (0 <? val - 1) with false by (symmetry; apply Z.ltb_ge; lia).
  replace (val <? 0) with true by (symmetry; apply Z.ltb_lt; lia).
  replace (val - 1 <? 0) with true by (symmetry; apply Z.ltb_lt; lia).
  replace (Z.to_nat (- (val - 1) - 1)) with (S (Z.to_nat (- val - 1))) by lia.
  intros H. exact H.
Qed.

Lemma lua_type_slot i s h c v :
  slot s i v -> lua_type i (mkState s h c) = Ok (type_of v, mkState s h c).
Proof. intros H. apply lua_type_ok, lua_at_slot, H. Qed.

Lemma lua_pushvalue_slot i s h c v :
  slot s i v -> lua_pushvalue i (mkState s h c) = Ok (tt, mkState (v :: s) h c).
Proof. intros H. apply lua_pushvalue_ok, lua_at_slot, H. Qed.

Lemma take_zlen {A} (l : list A) : take (Z.to_nat (zlen l)) l = l.
Proof. unfold zlen. rewrite Nat2Z.id. apply firstn_all. Qed.

#[global] Hint Resolve slot_below lua_type_slot lua_pushvalue_slot lua_at_slot : lua_exec.
#[global] Hint Extern 1 (_ < 0) => lia : lua_exec.

Section Persist.

Variable host_call : value -> list value -> list object -> outcome (value * list object).
Variable host_load : list byte -> (fwhat * nat) + list byte.

Lemma lua_call_0 f s h c r h' :
  host_call f [] h = Ok (r, h') ->
  lua_call host_call 0 (mkState (f :: s) h c)
  = Ok (tt, mkState (r :: s) h' (c ++ [(f, [])])).
Proof.
  intros H. unfold lua_call.
  change (- (0 + 1)) with (-1). rewrite (bind_ok _ _ _ _ _ (lua_at_m1 _ _ _ _)).
  unfold bind at 1. unfold get_stack. cbn [stack].
  change (lua_pop (0 + 1)) with (lua_pop 1).
  rewrite (bind_ok _ _ _ _ _ (lua_pop_1 _ _ _ _)).
  unfold bind at 1. unfold log_call. cbn [stack heap calls].
  unfold bind at 1. unfold get_heap. cbn [stack heap calls].
  change (rev (take (Z.to_nat 0) (f :: s))) with (@nil value).
  rewrite H. reflexivity.
Qed.

Lemma lua_call_1 a f s h c r h' :
  host_call f [a] h = Ok (r, h') ->
  lua_call host_call 1 (mkState (a :: f :: s) h c)
  = Ok (tt, mkState (r :: s) h' (c ++ [(f, [a])])).
Proof.
  intros H. unfold lua_call.
  change (- (1 + 1)) with (-2). rewrite (bind_ok _ _ _ _ _ (lua_at_m2 _ _ _ _ _)).
  unfold bind at 1. unfold get_stack. cbn [stack].
  change (lua_pop (1 + 1)) with (lua_pop 2).
  rewrite (bind_ok _ _ _ _ _ (lua_pop_2 _ _ _ _ _)).
  unfold bind at 1. unfold log_call. cbn [stack heap calls].
  unfold bind at 1. unfold get_heap. cbn [stack heap calls].
  change (rev (take (Z.to_nat 1) (a :: f :: s))) with [a].
  rewrite H. reflexivity.
Qed.

(** C7, amended.  Packing a userdata with a persist hook: the value is
    registered, the hook is called with the value as its one argument and
    must return one function, the Reviver; the stream carries the tag, the
    Opaque sub-tag, a 4-byte length and the packed wrapper record whose
    only pair is [1 -> Reviver] (whatever the Reviver has captured travels
    inside its own encoding).  Decoding such a record: the wrapper is
    decoded, its entry 1 is called with no argument, and the result is the
    value put at this position and entered in the reference table. *)
Theorem persist_protocol :
  (forall fuel buf val idx s h c u r es mt m mes mmt fa h1 rb L2,
      val < 0 ->
      slot s val (VUdata u) ->
      slot s 2 (VTable r) ->
      h !! r = Some (OTable es mt) ->
      Tbl.get es (VUdata u) = VNil ->
      metatable_of h (VUdata u) = Some m ->
      h !! m = Some (OTable mes mmt) ->
      Tbl.get mes (VStr str__persist) <> VNil ->
      host_call (Tbl.get mes (VStr str__persist)) [VUdata u]
        (<[r := OTable (Tbl.set es (VUdata u) (num idx)) mt]> h)
      = Ok (VFun fa, h1) ->
      mar_pack host_call fuel (mkBuffer 128 0 []) (int_succ idx)
        (mkState (VTable (length h1) :: s)
           (<[length h1 := OTable [(num 1, VFun fa)] None]> (h1 ++ [OTable [] None]))
           (c ++ [(Tbl.get mes (VStr str__persist), [VUdata u])]))
      = Ok (rb, L2) ->
      stack L2 = VTable (length h1) :: s ->
      zlen (data rb) <= UINT32_MAX ->
      exists buf',
        pack_value host_call (S fuel) buf val idx (mkState s h c)
        = Ok ((buf', int_succ idx), mkState s (heap L2) (calls L2))
        /\ data buf' = data buf ++ [x07; x03] ++ le_bytes 4 (zlen (data rb)) ++ data rb)
  /\ (forall fuel mem buf len p idx L t bs L2 wes wmt rv h3 r es mt,
      t = x05 \/ t = x07 ->
      length bs = 4%nat ->
      bytes_at mem p ([t; x03] ++ bs) ->
      (p - buf) + 6 + le_Z bs <= len ->
      mar_unpack_loop host_call host_load fuel mem (p + 6) (le_Z bs) (p + 6) idx
        (mkState (VTable (length (heap L)) :: stack L)
           (heap L ++ [OTable [] None]) (calls L))
      = Ok (tt, L2) ->
      stack L2 = VTable (length (heap L)) :: stack L ->
      heap L2 !! length (heap L) = Some (OTable wes wmt) ->
      host_call (Tbl.get wes (num 1)) [] (heap L2) = Ok (rv, h3) ->
      slot (stack L) 2 (VTable r) ->
      h3 !! r = Some (OTable es mt) ->
      unpack_value host_call host_load (S fuel) mem buf len p idx L
      = Ok ((p + 6 + le_Z bs, int_succ idx),
            mkState (rv :: stack L)
              (<[r := OTable (Tbl.set es (num idx) rv) mt]> h3)
              (calls L2 ++ [(Tbl.get wes (num 1), [])]))).
Proof.
  split.
  - intros fuel buf val idx s h c u r es mt m mes mmt fa h1 rb [s2 h2 c2]
      Hval Hsv Hs2 Hr Hget Hm Hmh Hhk Hcall Hpack Hst Hrl.
    cbn [stack heap calls] in *. subst s2. unfold num in *.
    pose proof (luaL_getmetafield_hook val s h c _ m mes mmt _
                  (lua_at_slot _ _ _ _ _ Hsv) Hm Hmh eq_refl Hhk) as Hmf.
    pose proof (lua_call_1 _ _ s _ c _ _ Hcall) as Hc1.
    eexists. split.
    + unfold pack_value. run. rewrite Hget. run. reflexivity.
    + cbn [data]. rewrite take_zlen. rewrite <- !app_assoc. reflexivity.
  - intros fuel mem buf len p idx [s h c] t bs [s2 h2 c2] wes wmt rv h3 r es mt
      Ht Hl Hb Hlen Hloop Hst Hw Hcall Hs2 Hr.
    cbn [stack heap calls] in *. subst s2. unfold num in *.
    change [t; x03] with ([t] ++ [x03]) in Hb.
    apply bytes_at_app in Hb as [Hb Hb4].
    apply bytes_at_app in Hb as [Hb0 Hb1].
    change (zlen [t]) with 1 in *. change (zlen ([t] ++ [x03])) with 2 in *.
    pose proof (zlen_nonneg bs) as Hbs.
    assert (Hlz : 0 <= le_Z bs).
    { clear. induction bs as [|b bs IH]; simpl; [lia|].
      unfold Z_of_byte. lia. }
    pose proof (lua_call_0 _ (VTable (length h) :: s) _ c2 _ _ Hcall) as Hc0.
    replace (p + 6) with (p + 1 + 1 + 4) in Hloop by lia.
    unfold unpack_value, MAR_CHR.
    destruct Ht as [-> | ->]; run;
      replace (p + 1 + 1 + 4 + le_Z bs) with (p + 6 + le_Z bs) by lia;
      reflexivity.
Qed.

End Persist.


(** ** More on the monad *)

Lemma bind_assoc {A B C} (m : M A) (k : A -> M B) (k' : B -> M C) L :
  bind (bind m k) k' L = bind m (fun a => bind (k a) k') L.
Proof. unfold bind. destruct (m L) as [[a L']| | |]; reflexivity. Qed.

Lemma bind_congr {A B} (m m' : M A) (k : A -> M B) L :
  m L = m' L -> bind m k L = bind m' k L.
Proof. intros H. unfold bind. rewrite H. reflexivity. Qed.



(** ** The byte reversal and the two byte orders *)

Lemma half_SS (n : nat) : (S (S n) / 2 = S (n / 2))%nat.
Proof.
  replace (S (S n)) with (1 * 2 + n)%nat by lia.
  rewrite Nat.div_add_l by lia. reflexivity.
Qed.

Lemma swap_ends (pre : list byte) x mid y post :
  <[(length pre + S (length mid))%nat := x]>
    (<[length pre := y]> (pre ++ (x :: mid ++ [y]) ++ post))
  = (pre ++ [y]) ++ mid ++ [x] ++ post.
Proof.
  rewrite (insert_app_r_alt pre _ (length pre)) by lia.
  rewrite Nat.sub_diag. cbn [app].
  change (<[0%nat:=y]> (x :: (mid ++ [y]) ++ post)) with (y :: (mid ++ [y]) ++ post).
  rewrite insert_app_r_alt by lia.
  replace (length pre + S (length mid) - length pre)%nat with (S (length mid)) by lia.
  change (<[S (length mid):=x]> (y :: (mid ++ [y]) ++ post))
    with (y :: <[length mid:=x]> ((mid ++ [y]) ++ post)).
  rewrite <- (app_assoc mid).
  rewrite (insert_app_r_alt mid _ (length mid)) by lia.
  rewrite Nat.sub_diag. cbn. rewrite <- app_assoc. reflexivity.
Qed.

Lemma swap_loop_rev cnt : forall (pre mid post : list byte),
  cnt = (length mid / 2)%nat ->
  swap_loop cnt (zlen pre) (zlen pre + zlen mid - 1) (pre ++ mid ++ post)
  = pre ++ rev mid ++ post.
Proof.
  induction cnt as [|cnt IH]; intros pre mid post Hc.
  - destruct mid as [|x [|y mid]]; try reflexivity.
    cbn [length] in Hc. rewrite half_SS in Hc. discriminate.
  - destruct mid as [|x mid]; [discriminate|].
    destruct (rev mid) as [|y dim] eqn:Er.
    { apply (f_equal (@rev byte)) in Er. rewrite rev_involutive in Er. subst mid. discriminate. }
    apply (f_equal (@rev byte)) in Er. rewrite rev_involutive in Er. cbn [rev] in Er.
    subst mid. set (mid := rev dim) in *.
    assert (Hl : cnt = (length mid / 2)%nat).
    { cbn [length] in Hc. rewrite length_app in Hc. cbn [length] in Hc.
      replace (S (length mid + 1))%nat with (S (S (length mid))) in Hc by lia.
      rewrite half_SS in Hc. lia. }
    cbn [swap_loop].
    assert (Hi : Z.to_nat (zlen pre) = length pre) by (unfold zlen; lia).
    assert (Hj : Z.to_nat (zlen pre + zlen (x :: mid ++ [y]) - 1) = (length pre + S (length mid))%nat).
    { unfold zlen. cbn [length]. rewrite length_app. cbn [length]. lia. }
    rewrite Hi, Hj.
    assert (E1 : (pre ++ (x :: mid ++ [y]) ++ post) !! length pre = Some x).
    { apply list_lookup_middle. reflexivity. }
    assert (E2 : (pre ++ (x :: mid ++ [y]) ++ post) !! (length pre + S (length mid))%nat = Some y).
    { rewrite lookup_app_r by lia.
      replace (length pre + S (length mid) - length pre)%nat with (S (length mid)) by lia.
      cbn. rewrite <- app_assoc. apply list_lookup_middle. reflexivity. }
    rewrite E1, E2. cbn [default].
    replace (<[(length pre + S (length mid))%nat:=x]> (<[length pre:=y]> (pre ++ (x :: mid ++ [y]) ++ post)))
      with ((pre ++ [y]) ++ mid ++ ([x] ++ post)).
    2:{ symmetry. apply swap_ends. }
    replace (zlen pre + 1) with (zlen (pre ++ [y])) by (rewrite zlen_app; reflexivity).
    replace (zlen pre + zlen (x :: mid ++ [y]) - 1 - 1) with (zlen (pre ++ [y]) + zlen mid - 1).
    2:{ unfold zlen. cbn [length]. rewrite !length_app. cbn [length]. lia. }
    rewrite (IH _ _ _ Hl).
    cbn [rev]. rewrite rev_app_distr. cbn. rewrite <- !app_assoc. reflexivity.
Qed.

Lemma Z_of_byte_of_Z v : Z_of_byte (byte_of_Z v) = v mod 256.
Proof.
  unfold Z_of_byte, byte_of_Z.
  pose proof (Z.mod_pos_bound v 256 ltac:(lia)) as Hb.
  destruct (Byte.of_N (Z.to_N (v mod 256))) as [b|] eqn:E.
  - apply Byte.to_of_N in E. rewrite E. lia.
  - apply Byte.of_N_None_iff in E. lia.
Qed.

Lemma le_Z_le_bytes n : forall v, le_Z (le_bytes n v) = v mod 256 ^ Z.of_nat n.
Proof.
  induction n as [|n IH]; intros v.
  - cbn. symmetry. apply Z.mod_1_r.
  - cbn [le_bytes le_Z]. rewrite IH, Z_of_byte_of_Z.
    rewrite Nat2Z.inj_succ, Z.pow_succ_r by lia.
    rewrite Z.rem_mul_r by lia. reflexivity.
Qed.

Lemma le_bytes_snoc n : forall v,
  le_bytes (S n) v = le_bytes n v ++ [byte_of_Z (v / 256 ^ Z.of_nat n)].
Proof.
  induction n as [|n IH]; intros v.
  - cbn. rewrite Z.div_1_r. reflexivity.
  - change (le_bytes (S (S n)) v) with (byte_of_Z v :: le_bytes (S n) (v / 256)).
    rewrite IH. cbn [le_bytes app]. do 3 f_equal.
    rewrite Nat2Z.inj_succ, Z.pow_succ_r by lia.
    rewrite Z.div_div by lia. reflexivity.
Qed.

Lemma rev_be_bytes n v : rev (be_bytes n v) = le_bytes n v.
Proof.
  induction n as [|n IH]; [reflexivity|].
  cbn [be_bytes rev]. rewrite IH. symmetry. apply le_bytes_snoc.
Qed.

Lemma length_be_bytes n v : length (be_bytes n v) = n.
Proof. induction n; cbn; congruence. Qed.

Lemma swap_loop_whole (p : list byte) :
  swap_loop (Z.to_nat (Z.quot (zlen p) 2)) 0 (zlen p - 1) p = rev p.
Proof.
  pose proof (swap_loop_rev (length p / 2) [] p [] eq_refl) as H.
  rewrite !app_nil_r in H. cbn [app] in H.
  change (zlen []) with 0 in H. rewrite Z.add_0_l in H.
  rewrite <- H. f_equal.
  rewrite Z.quot_div_nonneg by (unfold zlen; lia).
  unfold zlen. rewrite <- (Nat2Z.inj_div _ 2). apply Nat2Z.id.
Qed.

Lemma reversed_field (n : nat) (v : Z) :
  0 <= v < 256 ^ Z.of_nat n ->
  le_Z (swap_loop (Z.to_nat (Z.quot (Z.of_nat n) 2)) 0 (Z.of_nat n - 1) (be_bytes n v)) = v.
Proof.
  intros Hv.
  pose proof (swap_loop_whole (be_bytes n v)) as H.
  unfold zlen in H. rewrite length_be_bytes in H.
  rewrite H, rev_be_bytes, le_Z_le_bytes. apply Z.mod_small. exact Hv.
Qed.

(** ** The envelope *)


Section Envelope.

Variable host_call : value -> list value -> list object -> outcome (value * list object).
Variable host_load : list byte -> (fwhat * nat) + list byte.

(** [tbl_unmarshal] once [luaL_checklstring] has handed over the string. *)
Lemma tbl_unmarshal_start fuel behind s st h c :
  tbl_unmarshal host_call host_load fuel behind (mkState (VStr s :: st) h c)
  = (let l := zlen s in
     if l <? 2 then luaL_error "bad header"
     else if negb (le_Z (take 1 s) =? MAR_MAGIC) then luaL_error "bad magic"
     else
       let l := l - 2 in
       lua_newtable ;;
       lua_newtable ;;
       if negb (le_Z (take 1 (le_bytes 4 1)) =? le_Z (take 1 (drop 1 s))) then
         let n := wrap32s l in
         buf <- buf_init ;;
         buf <- buf_write (drop 2 s) l buf ;;
         let cnt := Z.quot n 2 in
         if cnt <? 0 then undefined "byte reversal with a negative count"
         else
           let p := swap_loop (Z.to_nat cnt) 0 (n - 1) (data buf) in
           mar_unpack host_call host_load fuel (p ++ behind) 0 l 1 ;;
           ret 1
       else
         mar_unpack host_call host_load fuel (s ++ behind) 2 l 1 ;;
         ret 1)%lua (mkState (VStr s :: st) h c).
Proof. reflexivity. Qed.




(** The count of the reversal loop is an [int]: a payload of 2^31 bytes
    or more makes it negative. *)
Lemma unmarshal_reversal_overflow fuel behind e payload h :
  Z_of_byte e <> 1 -> 2 ^ 31 <= zlen payload < 2 ^ 32 - 1 ->
  call_c (tbl_unmarshal host_call host_load fuel behind) [VStr (x8e :: e :: payload)] h
  = Undefined "byte reversal with a negative count".
Proof.
  intros He Hp.
  assert (Hl : zlen (x8e :: e :: payload) - 2 = zlen payload)
    by (unfold zlen; cbn [length]; lia).
  unfold call_c. cbn [rev app].
  rewrite (bind_congr _ _ _ _ (tbl_unmarshal_start _ _ _ _ _ _)). cbv zeta.
  replace (zlen (x8e :: e :: payload) <? 2) with false by (symmetry; apply Z.ltb_ge; lia).
  rewrite Hl.
  change (le_Z (take 1 (x8e :: e :: payload)) =? MAR_MAGIC) with true.
  change (le_Z (take 1 (drop 1 (x8e :: e :: payload)))) with (Z_of_byte e + 256 * 0).
  change (le_Z (take 1 (le_bytes 4 1))) with 1.
  replace (1 =? Z_of_byte e + 256 * 0) with false
    by (symmetry; apply Z.eqb_neq; lia).
  cbn [negb]. change (drop 2 (x8e :: e :: payload)) with payload.
  assert (Hw : wrap32s (zlen payload) = zlen payload - 2 ^ 32).
  { unfold wrap32s. rewrite Z.mod_small by lia.
    replace (zlen payload <? 2 ^ 31) with false by (symmetry; apply Z.ltb_ge; lia).
    reflexivity. }
  rewrite Hw.
  assert (Hu : zlen payload <= UINT32_MAX) by (unfold UINT32_MAX; lia).
  assert (Hq : (Z.quot (zlen payload - 2 ^ 32) 2 <? 0) = true).
  { apply Z.ltb_lt.
    assert (Z.quot (zlen payload - 2 ^ 32) 2 <= Z.quot (- 2) 2)
      by (apply Z.quot_le_mono; lia).
    change (Z.quot (- 2) 2) with (- 1) in H. lia. }
  rewrite bind_assoc. run1. rewrite bind_assoc. run1.
  rewrite bind_assoc. run1. rewrite bind_assoc. run1.
  rewrite Hq. reflexivity.
Qed.



End Envelope.

(** ** Truncated streams *)

Lemma le_Z_nonneg bs : 0 <= le_Z bs.
Proof.
  induction bs as [|b bs IH]; cbn [le_Z]; [lia|].
  assert (0 <= Z_of_byte b) by (unfold Z_of_byte; lia). lia.
Qed.

Lemma peek_char_inv mem p L v L' :
  peek_char mem p L = Ok (v, L') ->
  L' = L /\ exists b, v = Z_of_byte b /\ bytes_at mem p [b].
Proof.
  unfold peek_char. intros H. apply bind_inv in H as (bs & L1 & H1 & H2).
  apply peek_inv in H1 as (-> & Hl & Hb).
  injection H2 as <- <-. split; [reflexivity|].
  destruct bs as [|b [|? ?]]; try (exfalso; unfold zlen in Hl; cbn [length] in Hl; lia).
  exists b. split; [cbn; lia | exact Hb].
Qed.

Lemma mar_incr_ptr_inv buf len p l L p' L' :
  mar_incr_ptr buf len p l L = Ok (p', L') ->
  L' = L /\ p' = p + l /\ (p - buf) + l <= len.
Proof.
  unfold mar_incr_ptr. destruct (len <? p - buf + l) eqn:E; [discriminate|].
  apply Z.ltb_ge in E. intros H. injection H as <- <-. auto.
Qed.

Lemma mar_next_len_inv mem buf len p L v p' L' :
  mar_next_len mem buf len p L = Ok ((v, p'), L') ->
  L' = L /\ p' = p + 4 /\ (p - buf) + 4 <= len /\
  exists bs, zlen bs = 4 /\ v = le_Z bs /\ bytes_at mem p bs.
Proof.
  unfold mar_next_len. destruct (len <? p - buf + 4) eqn:E; [discriminate|].
  apply Z.ltb_ge in E. intros H. apply bind_inv in H as (bs & L1 & H1 & H2).
  apply peek_inv in H1 as (-> & Hl & Hb).
  injection H2 as <- <- <-. repeat split; auto. exists bs. auto.
Qed.

Lemma peek_bytes_at' mem p n bs L :
  bytes_at mem p bs -> zlen bs = n -> peek mem p n L = Ok (bs, L).
Proof. intros H <-. apply peek_bytes_at. exact H. Qed.

Lemma agree_sub mem1 mem2 a b a' b' :
  agree mem1 mem2 a b -> a <= a' -> b' <= b -> agree mem1 mem2 a' b'.
Proof. intros H Ha Hb q bs Hq1 Hq2. apply H; lia. Qed.


(** Taking a successful run apart, command by command. *)
Lemma mar_next_len_ok' mem buf len p bs L :
  (p - buf) + 4 <= len -> zlen bs = 4 -> bytes_at mem p bs ->
  mar_next_len mem buf len p L = Ok ((le_Z bs, p + 4), L).
Proof.
  intros H Hl Hb. apply mar_next_len_ok; [exact H | unfold zlen in Hl; lia | exact Hb].
Qed.

(** Taking a successful run apart, command by command, and running the
    same commands again on another memory. *)
Ltac refine_step H :=
  lazymatch type of H with
  | peek_char _ _ _ = Ok _ =>
      let b := fresh "b" in let Hb := fresh "Hb" in
      apply peek_char_inv in H as (-> & b & -> & Hb);
      assert (zlen [b] = 1) by reflexivity
  | peek _ _ _ _ = Ok _ =>
      let Hl := fresh "Hl" in let Hb := fresh "Hb" in
      apply peek_inv in H as (-> & Hl & Hb)
  | mar_incr_ptr _ _ _ _ _ = Ok _ =>
      let Hi := fresh "Hi" in
      apply mar_incr_ptr_inv in H as (-> & -> & Hi)
  | mar_next_len _ _ _ _ _ = Ok _ =>
      let bs := fresh "bs" in let Hl := fresh "Hl" in let Hb := fresh "Hb" in
      let Hi := fresh "Hi" in
      apply mar_next_len_inv in H as (-> & -> & Hi & bs & Hl & -> & Hb);
      pose proof (le_Z_nonneg bs)
  | _ => idtac
  end.

Ltac inv_run H :=
  repeat
    lazymatch type of H with
    | bind _ _ _ = Ok _ =>
        let a := fresh "a" in let L1 := fresh "L" in let H1 := fresh "Hs" in
        apply bind_inv in H as (a & L1 & H1 & H);
        lazymatch type of a with
        | prod _ _ => destruct a
        | unit => destruct a
        | _ => idtac
        end;
        cbv beta iota in H;
        refine_step H1
    | (if ?c then _ else _) _ = Ok _ =>
        let E := fresh "Hc" in destruct c eqn:E
    | luaL_error _ _ = Ok _ => discriminate H
    | undefined _ _ = Ok _ => discriminate H
    | out_of_fuel _ = Ok _ => discriminate H
    end.

Ltac replay :=
  repeat first
    [ run1
    | lazymatch goal with
      | |- bind (peek ?mem ?q ?n) ?k ?L = _ =>
          match goal with
          | Hb : bytes_at mem q ?bs |- _ =>
              rewrite (bind_ok _ k L _ _
                         (peek_bytes_at' mem q n bs L Hb ltac:(assumption)));
              cbv beta iota
          end
      | |- bind (mar_next_len ?mem ?buf ?len ?q) ?k ?L = _ =>
          match goal with
          | Hb : bytes_at mem q ?bs |- _ =>
              rewrite (bind_ok _ k L _ _
                         (mar_next_len_ok' mem buf len q bs L
                            ltac:(lia) ltac:(assumption) Hb));
              cbv beta iota
          end
      | |- (if ?c then _ else _) _ = _ =>
          match goal with Hc : c = _ |- _ => rewrite Hc end
      end ].

Section Truncation.

Variable host_call : value -> list value -> list object -> outcome (value * list object).
Variable host_load : list byte -> (fwhat * nat) + list byte.

Lemma local_value_step fuel : local_loop host_call host_load fuel -> local_value host_call host_load (S fuel).
Proof.
  intros IH mem1 buf len1 p idx L p' idx' L' H.
  unfold unpack_value, MAR_CHR, MAR_I64 in H.
  inv_run H;
  injection H as <- <- <-;
  (split; [lia | split; [lia |]]);
  intros mem2 len2 Hag Hlen2;
  repeat match goal with
       | Hb : bytes_at mem1 _ _ |- _ => apply Hag in Hb; [| lia | lia]
       | Hs : _ _ mem1 _ _ _ _ _ = Ok (tt, _) |- _ =>
           apply (IH _ _ _ _ _ _ _) with (mem2 := mem2) in Hs;
           [| apply (agree_sub _ _ _ _ _ _ Hag); lia]
       end;
  unfold unpack_value, MAR_CHR, MAR_I64;
  replay; reflexivity.
Qed.

Lemma local_loop_step fuel : local_value host_call host_load fuel -> local_loop host_call host_load fuel -> local_loop host_call host_load (S fuel).
Proof.
  intros IHv IHl mem1 buf len p idx L L' H mem2 Hag.
  unfold mar_unpack_loop in H |- *.
  destruct (p - buf <? len) eqn:Hc; [|exact H].
  apply Z.ltb_lt in Hc.
  apply bind_inv in H as ([p1 idx1] & L1 & H1 & H). cbv beta iota in H.
  apply bind_inv in H as ([p2 idx2] & L2 & H2 & H). cbv beta iota in H.
  apply bind_inv in H as (u & L3 & H3 & H).
  apply IHv in H1 as (Hp1 & Hb1 & H1).
  apply IHv in H2 as (Hp2 & Hb2 & H2).
  specialize (H1 mem2 len (agree_sub mem1 mem2 p (buf + len) p p1 Hag ltac:(lia) ltac:(lia)) Hb1).
  specialize (H2 mem2 len (agree_sub mem1 mem2 p (buf + len) p1 p2 Hag ltac:(lia) ltac:(lia)) Hb2).
  apply (IHl _ _ _ _ _ _ _) with (mem2 := mem2) in H;
    [| apply (agree_sub _ _ _ _ _ _ Hag); lia].
  run1. run1. run1. exact H.
Qed.

Lemma locality fuel : local_value host_call host_load fuel /\ local_loop host_call host_load fuel.
Proof.
  induction fuel as [|fuel [IHv IHl]].
  - split; intros ? ? ? ? ? ? ? ? ?; discriminate.
  - split; [apply local_value_step | apply local_loop_step]; assumption.
Qed.

Lemma mar_unpack_loop_S fuel mem buf len p idx :
  mar_unpack_loop host_call host_load (S fuel) mem buf len p idx
  = (if p - buf <? len then
       let* (p, idx) := unpack_value host_call host_load fuel mem buf len p idx in
       let* (p, idx) := unpack_value host_call host_load fuel mem buf len p idx in
       lua_settable (-3) ;;
       mar_unpack_loop host_call host_load fuel mem buf len p idx
     else ret tt)%lua.
Proof. reflexivity. Qed.


Lemma mar_unpack_loop_done fuel mem buf len p idx L :
  len <= p - buf ->
  mar_unpack_loop host_call host_load (S fuel) mem buf len p idx L = Ok (tt, L).
Proof.
  intros Hc. apply Z.ltb_ge in Hc. rewrite mar_unpack_loop_S, Hc. reflexivity.
Qed.






End Truncation.


(** * Further properties of the library *)

(** ** More on the monad *)

Lemma bind_error {A B} (m : M A) (k : A -> M B) L msg :
  m L = LuaError msg -> bind m k L = LuaError msg.
Proof. intros H. unfold bind. rewrite H. reflexivity. Qed.

Lemma bind_congr2 {A B} (m m' : M A) (k : A -> M B) L L' :
  m L = m' L' -> bind m k L = bind m' k L'.
Proof. intros H. unfold bind. rewrite H. reflexivity. Qed.

(** ** The growing buffer *)

Lemma buf_grow_spec fuel : forall new_size cur_head len,
  0 <= cur_head -> 0 < new_size - cur_head ->
  len < (new_size - cur_head) * 2 ^ Z.of_nat fuel ->
  let r := buf_grow fuel new_size cur_head len in
  len < r - cur_head /\ new_size <= r /\ r <= Z.max new_size (2 * (cur_head + len)).
Proof.
  induction fuel as [|fuel IH]; intros new_size cur_head len Hh Hg Hl; cbn [buf_grow].
  - cbn in Hl. lia.
  - destruct (new_size - cur_head <=? len) eqn:E.
    + apply Z.leb_le in E.
      destruct (IH (new_size * 2) cur_head len Hh ltac:(lia)) as (H1 & H2 & H3);
        [|cbv zeta; lia].
      rewrite Nat2Z.inj_succ, Z.pow_succ_r in Hl by lia. nia.
    + apply Z.leb_gt in E. cbv zeta. lia.
Qed.

(** The buffer of [buf_init] has room for what it holds, and [buf_write]
    keeps it so: a write of more than [UINT32_MAX] bytes is refused with
    "buffer too long"; any other write appends exactly the first [len]
    bytes of the source, and the capacity, doubled until the bytes fit,
    stays above the new content and below twice what was needed. *)
Theorem buf_write_keeps_room str len buf L :
  buf_ok buf -> 0 <= len -> len <= zlen str ->
  buf_ok (mkBuffer 128 0 [])
  /\ (UINT32_MAX < len -> buf_write str len buf L = LuaError "buffer too long")
  /\ (len <= UINT32_MAX ->
      exists buf',
        buf_write str len buf L = Ok (buf', L)
        /\ data buf' = data buf ++ take (Z.to_nat len) str
        /\ head buf' = head buf + len
        /\ size buf <= size buf' <= 2 * (size buf + len)
        /\ buf_ok buf').
Proof.
  intros [Hs Hh] Hl0 Hl. split; [|split].
  - unfold buf_ok, head, zlen. cbn. lia.
  - intros Hbig. unfold buf_write. apply Z.ltb_lt in Hbig. rewrite Hbig. reflexivity.
  - intros Hsmall. eexists. split; [apply buf_write_ok; exact Hsmall|].
    cbn [data size].
    assert (Hhead : head (mkBuffer (buf_reserve buf len) (seek buf)
                            (data buf ++ take (Z.to_nat len) str)) = head buf + len).
    { unfold head. cbn [data]. rewrite zlen_app. f_equal.
      unfold zlen in *. rewrite length_take. lia. }
    split; [reflexivity|]. split; [exact Hhead|].
    pose proof (zlen_nonneg (data buf)) as H0. fold (head buf) in H0.
    assert (Hr : size buf <= buf_reserve buf len <= 2 * (size buf + len)
                 /\ head buf + len <= buf_reserve buf len).
    { unfold buf_reserve. destruct (size buf - head buf <? len) eqn:E.
      - apply Z.ltb_lt in E.
        destruct (buf_grow_spec 64 (size buf * 2) (head buf) len H0 ltac:(lia))
          as (H1 & H2 & H3).
        + unfold UINT32_MAX in Hsmall.
          assert (128 <= size buf * 2 - head buf) by lia.
          assert (2 ^ 32 < 2 ^ Z.of_nat 64) by (vm_compute; reflexivity).
          nia.
        + lia.
      - apply Z.ltb_ge in E. lia. }
    split; [lia|]. unfold buf_ok. rewrite Hhead. cbn [size]. lia.
Qed.

(** The reader handed to [lua_load] on the buffer the decoder sets up
    ([seek] 0): a chunk that is not empty is handed over whole by the first
    call, and every later call returns [NULL]; an empty chunk is never
    handed over.  No call changes the bytes. *)
Theorem buf_read_once buf :
  seek buf = 0 ->
  let (r1, b1) := buf_read buf in
  let (r2, b2) := buf_read b1 in
  (0 < head buf -> r1 = Some (data buf))
  /\ (head buf = 0 -> r1 = None)
  /\ r2 = None /\ b2 = b1 /\ data b1 = data buf.
Proof.
  intros Hs. unfold buf_read. rewrite Hs.
  pose proof (zlen_nonneg (data buf)) as H0. fold (head buf) in H0.
  destruct (0 <? head buf) eqn:E.
  - cbn [seek size data]. change (head (mkBuffer (size buf) (head buf) (data buf))) with (head buf).
    rewrite Z.ltb_irrefl. apply Z.ltb_lt in E.
    split; [reflexivity|]. split; [lia|]. auto.
  - rewrite Hs, E. apply Z.ltb_ge in E.
    split; [lia|]. split; [reflexivity|]. auto.
Qed.

(** ** The encoder only appends *)

Lemma buf_write_inv str len buf L buf' L' :
  buf_write str len buf L = Ok (buf', L') ->
  L' = L /\ len <= UINT32_MAX /\ data buf' = data buf ++ take (Z.to_nat len) str.
Proof.
  unfold buf_write. destruct (UINT32_MAX <? len) eqn:E; [discriminate|].
  apply Z.ltb_ge in E. intros H. injection H as <- <-. auto.
Qed.

(** Taking a successful run of the encoder apart: what each write added
    to the buffer is kept, the rest of the run is only split up. *)
Ltac inv_pack H :=
  repeat
    lazymatch type of H with
    | bind _ _ _ = Ok _ =>
        let a := fresh "a" in let L1 := fresh "L" in let H1 := fresh "Hs" in
        apply bind_inv in H as (a & L1 & H1 & H);
        lazymatch type of a with
        | prod _ _ => destruct a
        | unit => destruct a
        | _ => idtac
        end;
        cbv beta iota zeta in H;
        lazymatch type of H1 with
        | buf_write _ _ _ _ = Ok _ =>
            let Hd := fresh "Hd" in
            apply buf_write_inv in H1 as (-> & _ & Hd)
        | _ => idtac
        end
    | (if ?c then _ else _) _ = Ok _ =>
        let E := fresh "Hc" in destruct c eqn:E
    | luaL_error _ _ = Ok _ => discriminate H
    | undefined _ _ = Ok _ => discriminate H
    | out_of_fuel _ = Ok _ => discriminate H
    end.

Ltac chain_data :=
  repeat match goal with
         | Hd : data ?b = _ |- context [data ?b] => rewrite Hd
         end;
  rewrite <- ?app_assoc; eexists; reflexivity.

Section Appends.

Variable host_call : value -> list value -> list object -> outcome (value * list object).

Lemma pack_value_appends fuel buf val idx L buf' idx' L' :
  pack_value host_call fuel buf val idx L = Ok ((buf', idx'), L') ->
  (exists out, data buf' = data buf ++ out)
  /\ (idx' = idx \/ idx' = int_succ idx).
Proof.
  destruct fuel as [|fuel]; [discriminate|].
  intros H. unfold pack_value in H.
  inv_pack H; injection H as <- <- <-; (split; [chain_data | auto]).
Qed.

Lemma mar_pack_loop_appends fuel : forall buf idx L buf' L',
  mar_pack_loop host_call fuel buf idx L = Ok (buf', L') ->
  exists out, data buf' = data buf ++ out.
Proof.
  induction fuel as [|fuel IH]; intros buf idx L buf' L' H; [discriminate|].
  change (mar_pack_loop host_call (S fuel) buf idx)
    with (more <- lua_next (-2) ;;
          if more : bool then
            let* (buf, idx) := pack_value host_call fuel buf (-2) idx in
            let* (buf, idx) := pack_value host_call fuel buf (-1) idx in
            lua_pop 1 ;;
            mar_pack_loop host_call fuel buf idx
          else ret buf) in H.
  apply bind_inv in H as (more & L1 & _ & H). destruct more.
  - apply bind_inv in H as ([b1 i1] & L2 & H1 & H). cbv beta iota in H.
    apply bind_inv in H as ([b2 i2] & L3 & H2 & H). cbv beta iota in H.
    apply bind_inv in H as (u & L4 & _ & H).
    apply pack_value_appends in H1 as [(o1 & H1) _].
    apply pack_value_appends in H2 as [(o2 & H2) _].
    apply IH in H as (o3 & H).
    exists (o1 ++ o2 ++ o3). rewrite H, H2, H1, <- !app_assoc. reflexivity.
  - injection H as <- <-. exists []. rewrite app_nil_r. reflexivity.
Qed.

Lemma mar_pack_appends fuel buf idx L buf' L' :
  mar_pack host_call fuel buf idx L = Ok (buf', L') ->
  exists out, data buf' = data buf ++ out.
Proof.
  destruct fuel as [|fuel]; [discriminate|].
  change (mar_pack host_call (S fuel) buf idx)
    with (lua_pushnil ;; mar_pack_loop host_call fuel buf idx).
  intros H. apply bind_inv in H as (u & L1 & _ & H).
  eapply mar_pack_loop_appends. exact H.
Qed.

(** Whatever [pack_value] is given, when it returns it has only added
    bytes behind those the buffer held, and the id counter it hands back
    is the one it was given or its successor, however many tables the
    value contains; [mar_pack] likewise only adds bytes. *)
Theorem encoder_appends :
  (forall fuel buf val idx L buf' idx' L',
      pack_value host_call fuel buf val idx L = Ok ((buf', idx'), L') ->
      (exists out, data buf' = data buf ++ out)
      /\ (idx' = idx \/ idx' = int_succ idx))
  /\ (forall fuel buf idx L buf' L',
      mar_pack host_call fuel buf idx L = Ok (buf', L') ->
      exists out, data buf' = data buf ++ out).
Proof.
  split.
  - intros. eapply pack_value_appends. eassumption.
  - intros. eapply mar_pack_appends. eassumption.
Qed.

(** Whenever [tbl_marshal] returns, whatever its arguments, it returns a
    string that starts with the magic byte and this host's marker. *)
Theorem marshal_returns_stream fuel args h v L :
  call_c (tbl_marshal host_call fuel) args h = Ok (v, L) ->
  exists out, v = VStr (x8e :: x01 :: out).
Proof.
  unfold call_c, tbl_marshal. cbv zeta. intros H.
  apply bind_inv in H as (r & L1 & H & Hat).
  inv_pack H.
  match goal with Hp : mar_pack _ _ _ _ _ = Ok _ |- _ =>
    apply mar_pack_appends in Hp as (out & Hp) end.
  injection H as <- <-.
  match goal with Hb : buf_done _ _ = Ok _ |- _ =>
    unfold buf_done, lua_pushlstring, lua_push, bind, get_stack, put_stack in Hb;
    injection Hb as <- end.
  injection Hat as <- <-.
  match goal with Hi : buf_init _ = Ok _ |- _ => injection Hi as <- <- end.
  exists out. f_equal.
  repeat match goal with
         | Hd : data ?b = _ |- context [data ?b] => rewrite Hd
         end.
  reflexivity.
Qed.

End Appends.

(** ** Scalars and flat tables *)

Lemma update_fresh acc k v :
  Forall (fun kv => Tbl.key_eqb (fst kv) k = false) acc ->
  Tbl.update acc k v = acc ++ [(k, v)].
Proof.
  induction acc as [|[k' v'] acc IH]; intros H; cbn [Tbl.update app]; [reflexivity|].
  apply Forall_cons in H as [Hk H]. cbn [fst] in Hk. rewrite Hk. f_equal. apply IH. exact H.
Qed.

Lemma distinct_keys_snoc acc k v :
  distinct_keys (acc ++ [(k, v)]) ->
  Forall (fun kv => Tbl.key_eqb (fst kv) k = false) acc.
Proof.
  induction acc as [|[k' v'] acc IH]; cbn [app distinct_keys]; intros H; [constructor|].
  destruct H as [Hk Hd]. apply Forall_app in Hk as [_ Hk].
  apply Forall_cons in Hk as [Hk _]. constructor; [exact Hk | apply IH; exact Hd].
Qed.

Lemma take_le_bytes n : forall m v, take n (le_bytes (n + m) v) = le_bytes n v.
Proof.
  induction n as [|n IH]; intros m v; [reflexivity|].
  cbn [Nat.add le_bytes take]. f_equal. apply IH.
Qed.

Lemma length_le_bytes n : forall v, length (le_bytes n v) = n.
Proof. induction n as [|n IH]; intros v; cbn; [reflexivity | f_equal; apply IH]. Qed.

Lemma key_eqb_refl k : key_ok k -> Tbl.key_eqb k k = true.
Proof.
  destruct k; cbn; intros H; try (apply bool_decide_eq_true; reflexivity).
  unfold Num.eqb. rewrite H. cbn. rewrite Z.eqb_refl. reflexivity.
Qed.

Lemma distinct_keys_app es1 es2 :
  distinct_keys (es1 ++ es2) ->
  distinct_keys es1 /\ distinct_keys es2
  /\ Forall (fun kv1 => Forall (fun kv2 => Tbl.key_eqb (fst kv1) (fst kv2) = false) es2) es1.
Proof.
  induction es1 as [|[k v] es1 IH]; cbn [app distinct_keys].
  - intros H. split; [exact I|]. split; [exact H|]. constructor.
  - intros [Hk Hd]. apply Forall_app in Hk as [Hk1 Hk2].
    destruct (IH Hd) as (H1 & H2 & H3).
    split; [split; assumption|]. split; [exact H2|].
    constructor; assumption.
Qed.

Lemma after_last d prev pv tl :
  distinct_keys (d ++ (prev, pv) :: tl) -> key_ok prev ->
  Tbl.after (d ++ (prev, pv) :: tl) prev = Some (List.head tl).
Proof.
  intros Hd Hk. apply distinct_keys_app in Hd as (_ & _ & Hd).
  induction d as [|[k v] d IH]; cbn [app Tbl.after].
  - rewrite key_eqb_refl by exact Hk. reflexivity.
  - apply Forall_cons in Hd as [Hkv Hd].
    apply Forall_cons in Hkv as [Hkv _]. cbn [fst] in Hkv. rewrite Hkv.
    apply IH. exact Hd.
Qed.

Lemma cursor_key_ok prev done tl :
  cursor prev done -> table_ok (done ++ tl) -> done <> [] -> key_ok prev.
Proof.
  intros Hc [Hk _] Hne. destruct done as [|x done]; [congruence|].
  destruct Hc as (d & v & Hc). rewrite Hc in Hk.
  apply Forall_app in Hk as [Hk _]. apply Forall_app in Hk as [_ Hk].
  apply Forall_cons in Hk as [[Hk _] _]. exact Hk.
Qed.

Lemma lua_next_more prev done k v tl a mt st h c :
  h !! a = Some (OTable (done ++ (k, v) :: tl) mt) ->
  table_ok (done ++ (k, v) :: tl) -> cursor prev done ->
  lua_next (-2) (mkState (prev :: VTable a :: st) h c)
  = Ok (true, mkState (v :: k :: VTable a :: st) h c).
Proof.
  intros Ha Hok Hc. unfold lua_next.
  assert (Ht : table_at (-2) (mkState (prev :: VTable a :: st) h c)
               = Ok ((a, done ++ (k, v) :: tl, mt), mkState (prev :: VTable a :: st) h c)).
  { unfold table_at. run1. unfold bind, get_heap. cbn [heap]. rewrite Ha. reflexivity. }
  run1. run1. run1.
  destruct done as [|x done].
  - cbn in Hc. subst prev. cbn [app]. run1. run1. reflexivity.
  - pose proof (cursor_key_ok _ _ _ Hc Hok ltac:(discriminate)) as Hk.
    destruct Hc as (d & pv & Hc). rewrite Hc in *. rewrite <- app_assoc. cbn [app].
    rewrite <- app_assoc in Hok. cbn [app] in Hok.
    rewrite (after_last d prev pv ((k, v) :: tl) (proj2 Hok) Hk). cbn [List.head hd_error].
    destruct prev; try contradiction; run1; run1; reflexivity.
Qed.

Lemma lua_next_done prev done a mt st h c :
  h !! a = Some (OTable done mt) ->
  table_ok done -> cursor prev done ->
  lua_next (-2) (mkState (prev :: VTable a :: st) h c)
  = Ok (false, mkState (VTable a :: st) h c).
Proof.
  intros Ha Hok Hc. unfold lua_next.
  assert (Ht : table_at (-2) (mkState (prev :: VTable a :: st) h c)
               = Ok ((a, done, mt), mkState (prev :: VTable a :: st) h c)).
  { unfold table_at. run1. unfold bind, get_heap. cbn [heap]. rewrite Ha. reflexivity. }
  run1. run1. run1.
  destruct done as [|x done].
  - cbn in Hc. subst prev. reflexivity.
  - rewrite <- (app_nil_r (x :: done)) in Hok.
    pose proof (cursor_key_ok _ _ _ Hc Hok ltac:(discriminate)) as Hk.
    rewrite app_nil_r in Hok.
    destruct Hc as (d & pv & Hc). rewrite Hc in *.
    rewrite (after_last d prev pv [] (proj2 Hok) Hk). cbn [List.head hd_error].
    destruct prev; try contradiction; reflexivity.
Qed.

Section Flat.

Variable host_call : value -> list value -> list object -> outcome (value * list object).
Variable host_load : list byte -> (fwhat * nat) + list byte.

Lemma pack_scalar fuel buf val idx L v :
  lua_at val L = Ok (v, L) -> storable v ->
  exists buf',
    pack_value host_call (S fuel) buf val idx L = Ok ((buf', idx), L)
    /\ data buf' = data buf ++ enc_scalar v.
Proof.
  intros Hat Hv.
  assert (Ht : lua_type val L = Ok (type_of v, L)).
  { unfold lua_type. rewrite (bind_ok _ _ _ _ _ Hat). reflexivity. }
  destruct v as [|b| |bits|s| | | |]; try contradiction; cbn [storable type_of] in *.
  - assert (Hb : lua_toboolean val L = Ok ((if b then 1 else 0), L)).
    { unfold lua_toboolean. rewrite (bind_ok _ _ _ _ _ Hat). destruct b; reflexivity. }
    eexists. split.
    + unfold pack_value, MAR_CHR. run1. run1. run_if. run1. run1. reflexivity.
    + cbn [data]. rewrite <- app_assoc. f_equal. destruct b; reflexivity.
  - assert (Hn : lua_tonumber val L = Ok (bits, L)).
    { unfold lua_tonumber. rewrite (bind_ok _ _ _ _ _ Hat). reflexivity. }
    eexists. split.
    + unfold pack_value, MAR_CHR, MAR_I64. run1. run1. run_if. run_if. run_if.
      run1. run1. reflexivity.
    + cbn [data]. rewrite <- app_assoc. reflexivity.
  - assert (Hn : lua_tolstring val L = Ok (s, L)).
    { unfold lua_tolstring. rewrite (bind_ok _ _ _ _ _ Hat). reflexivity. }
    eexists. split.
    + unfold pack_value, MAR_CHR, MAR_I32. run1. run1. run_if. run_if.
      run1. cbv zeta. run1. run1. reflexivity.
    + cbn [data]. rewrite <- !app_assoc, take_zlen. reflexivity.
Qed.

Lemma mar_pack_loop_S fuel buf idx :
  mar_pack_loop host_call (S fuel) buf idx
  = (more <- lua_next (-2) ;;
     if more : bool then
       let* (buf, idx) := pack_value host_call fuel buf (-2) idx in
       let* (buf, idx) := pack_value host_call fuel buf (-1) idx in
       lua_pop 1 ;;
       mar_pack_loop host_call fuel buf idx
     else ret buf).
Proof. reflexivity. Qed.

Lemma cursor_snoc done k v : cursor k (done ++ [(k, v)]).
Proof.
  unfold cursor. destruct (done ++ [(k, v)]) eqn:E.
  - destruct done; discriminate.
  - rewrite <- E. eauto.
Qed.

Lemma enc_pairs_cons k v es :
  enc_pairs ((k, v) :: es) = enc_scalar k ++ enc_scalar v ++ enc_pairs es.
Proof. unfold enc_pairs. cbn. rewrite <- app_assoc. reflexivity. Qed.

Lemma pack_loop_scalars rest : forall done prev tl f buf idx a mt st h c,
  h !! a = Some (OTable (done ++ rest ++ tl) mt) ->
  table_ok (done ++ rest ++ tl) -> scalars rest -> cursor prev done ->
  exists buf' prev',
    cursor prev' (done ++ rest)
    /\ data buf' = data buf ++ enc_pairs rest
    /\ mar_pack_loop host_call (length rest + S f) buf idx
         (mkState (prev :: VTable a :: st) h c)
       = mar_pack_loop host_call (S f) buf' idx
           (mkState (prev' :: VTable a :: st) h c).
Proof.
  induction rest as [|[k v] rest IH]; intros done prev tl f buf idx a mt st h c Ha Hok Hs Hc.
  - exists buf, prev. rewrite !app_nil_r. split; [exact Hc|]. split; reflexivity.
  - apply Forall_cons in Hs as [[Hk Hv] Hs]. cbn [fst snd] in Hk, Hv.
    cbn [app] in Ha, Hok.
    destruct (pack_scalar (length rest + f) buf (-2) idx
                (mkState (v :: k :: VTable a :: st) h c) k eq_refl Hk) as (b1 & Hp1 & Hd1).
    destruct (pack_scalar (length rest + f) b1 (-1) idx
                (mkState (v :: k :: VTable a :: st) h c) v eq_refl Hv) as (b2 & Hp2 & Hd2).
    replace (S (length rest + f)) with (length rest + S f)%nat in Hp1, Hp2 by lia.
    destruct (IH (done ++ [(k, v)]) k tl f b2 idx a mt st h c) as (buf' & prev' & H1 & H2 & H3).
    { rewrite <- app_assoc. exact Ha. }
    { rewrite <- app_assoc. exact Hok. }
    { exact Hs. }
    { apply cursor_snoc. }
    exists buf', prev'. rewrite <- app_assoc in H1. cbn [app] in H1.
    split; [exact H1|]. split.
    + rewrite H2, Hd2, Hd1, enc_pairs_cons, <- !app_assoc. reflexivity.
    + cbn [length Nat.add]. rewrite mar_pack_loop_S.
      rewrite (bind_ok _ _ _ _ _ (lua_next_more _ _ _ _ _ _ _ _ _ _ Ha Hok Hc)).
      cbv beta iota. run1. run1. run1. exact H3.
Qed.

Lemma zlen_enc_scalar_pos v : storable v -> 0 < zlen (enc_scalar v).
Proof. destruct v; cbn [storable enc_scalar]; try contradiction; intros _; unfold zlen; cbn [length]; lia. Qed.

Lemma unpack_scalar fuel mem buf len p idx s h c v :
  bytes_at mem p (enc_scalar v) -> storable v ->
  (p - buf) + zlen (enc_scalar v) <= len ->
  unpack_value host_call host_load (S fuel) mem buf len p idx (mkState s h c)
  = Ok ((p + zlen (enc_scalar v), idx), mkState (v :: s) h c).
Proof.
  intros Hb Hv Hlen.
  destruct v as [|b| |bits|str| | | |]; try contradiction; cbn [storable enc_scalar] in *.
  - change [x01; if b then x01 else x00] with ([x01] ++ [if b then x01 else x00]) in Hb.
    apply bytes_at_app in Hb as [Hb0 Hb1]. change (zlen [x01]) with 1 in Hb1.
    change (zlen [x01; if b then x01 else x00]) with 2 in *.
    unfold unpack_value, MAR_CHR. run.
    replace (p + 1 + 1) with (p + 2) by lia.
    destruct b; reflexivity.
  - change (x03 :: le_bytes 8 bits) with ([x03] ++ le_bytes 8 bits) in Hb.
    apply bytes_at_app in Hb as [Hb0 Hb1]. change (zlen [x03]) with 1 in Hb1.
    assert (Hz : zlen (le_bytes 8 bits) = 8) by reflexivity.
    change (zlen (x03 :: le_bytes 8 bits)) with 9 in *.
    unfold unpack_value, MAR_CHR, MAR_I64. run.
    rewrite (bind_ok _ _ _ _ _ (peek_bytes_at' _ _ 8 _ _ Hb1 Hz)).
    run. rewrite le_Z_le_bytes, Z.mod_small by exact Hv.
    replace (p + 1 + 8) with (p + 9) by lia. reflexivity.
  - change (x04 :: le_bytes 4 (zlen str) ++ str)
      with ([x04] ++ le_bytes 4 (zlen str) ++ str) in Hb.
    apply bytes_at_app in Hb as [Hb0 Hb1]. change (zlen [x04]) with 1 in Hb1.
    apply bytes_at_app in Hb1 as [Hb1 Hb2].
    assert (Hz : zlen (le_bytes 4 (zlen str)) = 4) by reflexivity.
    rewrite Hz in Hb2.
    assert (Hl : zlen (x04 :: le_bytes 4 (zlen str) ++ str) = 5 + zlen str).
    { unfold zlen. cbn [length]. rewrite length_app, length_le_bytes. lia. }
    rewrite Hl in *.
    pose proof (zlen_nonneg str) as H0.
    assert (Hv' : le_Z (le_bytes 4 (zlen str)) = zlen str).
    { rewrite le_Z_le_bytes. apply Z.mod_small. unfold UINT32_MAX in Hv.
      change (256 ^ Z.of_nat 4) with (2 ^ 32). lia. }
    unfold unpack_value, MAR_CHR. run.
    rewrite Hv'.
    rewrite (bind_ok _ _ _ _ _ (peek_bytes_at' _ _ (zlen str) _ _ Hb2 eq_refl)).
    run. replace (p + 1 + 4 + zlen str) with (p + (5 + zlen str)) by lia. reflexivity.
Qed.

Lemma lua_settable_m3 v k t st h c acc :
  h !! t = Some (OTable acc None) -> key_ok k ->
  lua_settable (-3) (mkState (v :: k :: VTable t :: st) h c)
  = Ok (tt, mkState (VTable t :: st) (<[t := OTable (Tbl.set acc k v) None]> h) c).
Proof.
  intros Ht Hk. unfold lua_settable.
  assert (Hta : table_at (-3) (mkState (v :: k :: VTable t :: st) h c)
               = Ok ((t, acc, None), mkState (v :: k :: VTable t :: st) h c)).
  { unfold table_at. run1. unfold bind, get_heap. cbn [heap]. rewrite Ht. reflexivity. }
  run1. run1. run1.
  assert (Hck : check_key k (mkState (v :: k :: VTable t :: st) h c)
               = Ok (tt, mkState (v :: k :: VTable t :: st) h c)).
  { destruct k; try contradiction; try reflexivity. cbn in Hk. cbn. rewrite Hk. reflexivity. }
  run1. reflexivity.
Qed.

Lemma store_all_table_ok es : forall acc,
  table_ok (acc ++ es) -> store_all acc es = acc ++ es.
Proof.
  induction es as [|[k v] es IH]; intros acc H.
  - rewrite app_nil_r. reflexivity.
  - change (store_all acc ((k, v) :: es)) with (store_all (Tbl.set acc k v) es).
    assert (Hs : Tbl.set acc k v = acc ++ [(k, v)]).
    { destruct H as [Hf Hd].
      apply Forall_app in Hf as [_ Hf]. apply Forall_cons in Hf as [[_ Hv] _].
      cbn [snd] in Hv.
      replace (acc ++ (k, v) :: es) with ((acc ++ [(k, v)]) ++ es) in Hd
        by (rewrite <- app_assoc; reflexivity).
      apply distinct_keys_app in Hd as (Hd & _ & _).
      apply distinct_keys_snoc in Hd.
      unfold Tbl.set. destruct v; try congruence; apply update_fresh; exact Hd. }
    rewrite Hs, IH; rewrite <- app_assoc; [reflexivity | exact H].
Qed.

Lemma unpack_loop_scalars es : forall acc f mem buf len p idx t st h c,
  bytes_at mem p (enc_pairs es) -> scalars es ->
  Forall (fun kv => key_ok (fst kv)) es ->
  (p - buf) + zlen (enc_pairs es) <= len ->
  h !! t = Some (OTable acc None) ->
  mar_unpack_loop host_call host_load (length es + S f) mem buf len p idx
    (mkState (VTable t :: st) h c)
  = mar_unpack_loop host_call host_load (S f) mem buf len (p + zlen (enc_pairs es)) idx
      (mkState (VTable t :: st) (<[t := OTable (store_all acc es) None]> h) c).
Proof.
  induction es as [|[k v] es IH]; intros acc f mem buf len p idx t st h c Hb Hs Hk Hlen Ht.
  - cbn [length Nat.add store_all fold_left]. change (zlen (enc_pairs [])) with 0.
    rewrite Z.add_0_r, list_insert_id by exact Ht. reflexivity.
  - apply Forall_cons in Hs as [[Hsk Hsv] Hs]. apply Forall_cons in Hk as [Hkk Hk].
    cbn [fst snd] in *.
    rewrite enc_pairs_cons in Hb, Hlen |- *.
    apply bytes_at_app in Hb as [Hbk Hb]. apply bytes_at_app in Hb as [Hbv Hb].
    rewrite !zlen_app in Hlen |- *.
    pose proof (zlen_enc_scalar_pos k Hsk). pose proof (zlen_enc_scalar_pos v Hsv).
    pose proof (zlen_nonneg (enc_pairs es)).
    cbn [length Nat.add]. rewrite mar_unpack_loop_S.
    replace (p - buf <? len) with true by (symmetry; apply Z.ltb_lt; lia).
    replace (length es + S f)%nat with (S (length es + f)) by lia.
    rewrite (bind_ok _ _ _ _ _
               (unpack_scalar (length es + f) mem buf len p idx _ h c k Hbk Hsk ltac:(lia))).
    cbv beta iota.
    rewrite (bind_ok _ _ _ _ _
               (unpack_scalar (length es + f) mem buf len _ idx _ h c v Hbv Hsv ltac:(lia))).
    cbv beta iota.
    rewrite (bind_ok _ _ _ _ _ (lua_settable_m3 v k t st h c acc Ht Hkk)).
    replace (S (length es + f)) with (length es + S f)%nat by lia.
    assert (Hlt : (t < length h)%nat) by (eapply lookup_lt_Some; exact Ht).
    rewrite (IH (Tbl.set acc k v)); try assumption.
    + rewrite list_insert_insert_eq.
      change (store_all acc ((k, v) :: es)) with (store_all (Tbl.set acc k v) es).
      replace (p + zlen (enc_scalar k) + zlen (enc_scalar v) + zlen (enc_pairs es))
        with (p + (zlen (enc_scalar k) + (zlen (enc_scalar v) + zlen (enc_pairs es))))
        by lia.
      reflexivity.
    + lia.
    + apply list_lookup_insert_eq. exact Hlt.
Qed.

Lemma bytes_at_middle (a b c : list byte) : bytes_at (a ++ b ++ c) (zlen a) b.
Proof.
  unfold bytes_at. pose proof (zlen_nonneg a). pose proof (zlen_nonneg c).
  rewrite !zlen_app. split; [lia|]. split; [lia|].
  unfold zlen. rewrite Nat2Z.id, drop_app_length, take_app_length. reflexivity.
Qed.

Lemma unmarshal_flat_state es f behind st h c :
  scalars es -> Forall (fun kv => key_ok (fst kv)) es ->
  let s := x8e :: x01 :: enc_pairs es in
  tbl_unmarshal host_call host_load (length es + S f) behind (mkState (VStr s :: st) h c)
  = Ok (1, mkState (VTable (S (length h)) :: VTable (length h) :: VStr s :: st)
                   (h ++ [OTable [] None; OTable (store_all [] es) None]) c).
Proof.
  intros Hs Hk s.
  pose proof (zlen_nonneg (enc_pairs es)) as H0.
  assert (Hl : zlen s - 2 = zlen (enc_pairs es))
    by (unfold s, zlen; cbn [length]; lia).
  rewrite tbl_unmarshal_start. cbv zeta.
  replace (zlen s <? 2) with false by (symmetry; apply Z.ltb_ge; lia).
  change (le_Z (take 1 s) =? MAR_MAGIC) with true.
  change (le_Z (take 1 (le_bytes 4 1)) =? le_Z (take 1 (drop 1 s))) with true.
  cbn [negb]. run1. run1. unfold mar_unpack. rewrite bind_assoc.
  rewrite Hl.
  assert (Hb : bytes_at (s ++ behind) 2 (enc_pairs es)).
  { change (s ++ behind) with ([x8e; x01] ++ enc_pairs es ++ behind).
    apply (bytes_at_middle [x8e; x01]). }
  assert (Ht : ((h ++ [OTable [] None]) ++ [OTable [] None]) !! length (h ++ [OTable [] None])
               = Some (OTable [] None)) by apply lookup_snoc.
  pose proof (unpack_loop_scalars es [] f (s ++ behind) 2 (zlen (enc_pairs es)) 2 1
                (length (h ++ [OTable [] None])) (VTable (length h) :: VStr s :: st)
                ((h ++ [OTable [] None]) ++ [OTable [] None]) c Hb Hs Hk ltac:(lia) Ht) as Hloop.
  rewrite mar_unpack_loop_done in Hloop by lia.
  run1.
  unfold bind, ret. do 2 f_equal. rewrite length_app. cbn [length].
  replace (length h + 1)%nat with (S (length h)) by lia.
  do 2 f_equal.
  rewrite <- app_assoc. cbn [app].
  replace (S (length h)) with (length h + 1)%nat by lia.
  rewrite insert_app_r. reflexivity.
Qed.

Lemma marshal_flat_state es f a mt h c :
  h !! a = Some (OTable es mt) -> table_ok es -> scalars es ->
  tbl_marshal host_call (length es + S (S f)) (mkState [VTable a] h c)
  = Ok (1, mkState [VStr (x8e :: x01 :: enc_pairs es); VTable a; VTable (length h); VTable a]
                   (h ++ [OTable [] None]) c).
Proof.
  intros Ha Hok Hs. unfold tbl_marshal. cbv zeta.
  run1.
  assert (Hpv : lua_pushvalue 1 (mkState [VTable (length h); VTable a] (h ++ [OTable [] None]) c)
                = Ok (tt, mkState [VTable a; VTable (length h); VTable a]
                                  (h ++ [OTable [] None]) c)) by reflexivity.
  run1. run1. run1. run1.
  replace (length es + S (S f))%nat with (S (length es + S f)) by lia.
  change (mar_pack host_call (S (length es + S f)))
    with (fun buf idx => lua_pushnil ;; mar_pack_loop host_call (length es + S f) buf idx).
  cbv beta. rewrite bind_assoc. run1.
  assert (Ha' : (h ++ [OTable [] None]) !! a = Some (OTable ([] ++ es ++ []) mt)).
  { rewrite app_nil_r. cbn [app]. apply lookup_app_l_Some. exact Ha. }
  assert (Hok' : table_ok ([] ++ es ++ [])) by (rewrite app_nil_r; exact Hok).
  match goal with |- bind (mar_pack_loop _ _ ?b ?i) _ _ = _ =>
    destruct (pack_loop_scalars es [] VNil [] f b i a mt [VTable (length h); VTable a]
                (h ++ [OTable [] None]) c Ha' Hok' Hs eq_refl) as (buf' & prev' & Hc & Hd & Hloop)
  end.
  cbn [app] in Hc. rewrite app_nil_r in Ha'. cbn [app] in Ha'.
  rewrite mar_pack_loop_S in Hloop.
  rewrite (bind_ok _ _ _ _ _ (lua_next_done _ _ _ _ _ _ _ Ha' Hok Hc)) in Hloop.
  cbv beta iota in Hloop. run1. run1.
  cbn [data app] in Hd. rewrite Hd. reflexivity.
Qed.

Lemma pack_invalid fuel buf val idx L v :
  lua_at val L = Ok (v, L) ->
  v = VNil \/ (exists q, v = VLight q) ->
  pack_value host_call (S fuel) buf val idx L = LuaError "invalid value type".
Proof.
  intros Hat Hv.
  assert (Ht : lua_type val L = Ok (type_of v, L)).
  { unfold lua_type. rewrite (bind_ok _ _ _ _ _ Hat). reflexivity. }
  unfold pack_value, MAR_CHR. run1.
  destruct Hv as [-> | [q ->]]; cbn [type_of]; run; reflexivity.
Qed.

Lemma tbl_marshal_start f a h c :
  exists b0,
    data b0 = [x8e; x01]
    /\ tbl_marshal host_call (S (S f)) (mkState [VTable a] h c)
       = (buf <- mar_pack_loop host_call (S f) b0 1 ;; buf_done buf ;; ret 1)
           (mkState [VNil; VTable a; VTable (length h); VTable a]
                    (h ++ [OTable [] None]) c).
Proof.
  eexists. split; cycle 1.
  - unfold tbl_marshal. cbv zeta. run1.
    assert (Hpv : lua_pushvalue 1 (mkState [VTable (length h); VTable a] (h ++ [OTable [] None]) c)
                  = Ok (tt, mkState [VTable a; VTable (length h); VTable a]
                                    (h ++ [OTable [] None]) c)) by reflexivity.
    run1. run1. run1. run1.
    change (mar_pack host_call (S (S f)))
      with (fun buf idx => lua_pushnil ;; mar_pack_loop host_call (S f) buf idx).
    cbv beta. rewrite bind_assoc. run1. reflexivity.
  - reflexivity.
Qed.

Lemma marshal_reaches fuel pre k v tl a mt h c :
  h !! a = Some (OTable (pre ++ (k, v) :: tl) mt) ->
  table_ok (pre ++ (k, v) :: tl) -> scalars pre ->
  exists buf,
    data buf = x8e :: x01 :: enc_pairs pre
    /\ tbl_marshal host_call (S (S (length pre + fuel))) (mkState [VTable a] h c)
    = (buf <- (let* (buf, idx) := pack_value host_call fuel buf (-2) 1 in
               let* (buf, idx) := pack_value host_call fuel buf (-1) idx in
               lua_pop 1 ;;
               mar_pack_loop host_call fuel buf idx) ;;
       buf_done buf ;; ret 1)
        (mkState [v; k; VTable a; VTable (length h); VTable a] (h ++ [OTable [] None]) c).
Proof.
  intros Ha Hok Hs.
  destruct (tbl_marshal_start (length pre + fuel) a h c) as (b0 & Hb0 & Hstart).
  assert (Ha' : (h ++ [OTable [] None]) !! a = Some (OTable ([] ++ pre ++ (k, v) :: tl) mt)).
  { cbn [app]. apply lookup_app_l_Some. exact Ha. }
  destruct (pack_loop_scalars pre [] VNil ((k, v) :: tl) fuel b0 1 a mt
              [VTable (length h); VTable a] (h ++ [OTable [] None]) c Ha' Hok Hs eq_refl)
    as (buf' & prev' & Hc & Hd & Hloop).
  cbn [app] in Hc, Ha'.
  exists buf'. split; [rewrite Hd, Hb0; reflexivity|].
  rewrite Hstart.
  replace (S (length pre + fuel)) with (length pre + S fuel)%nat by lia.
  apply bind_congr2. rewrite Hloop, mar_pack_loop_S.
  rewrite (bind_ok _ _ _ _ _ (lua_next_more _ _ _ _ _ _ _ _ _ _ Ha' Hok Hc)).
  reflexivity.
Qed.

(** A light userdata as key or value, behind any number of scalar pairs,
    makes [tbl_marshal] raise "invalid value type". *)
Theorem marshal_rejects_light_userdata fuel pre k v tl a mt h :
  h !! a = Some (OTable (pre ++ (k, v) :: tl) mt) ->
  table_ok (pre ++ (k, v) :: tl) -> scalars pre ->
  (exists q, k = VLight q) \/ (storable k /\ exists q, v = VLight q) ->
  (length pre + 3 <= fuel)%nat ->
  call_c (tbl_marshal host_call fuel) [VTable a] h = LuaError "invalid value type".
Proof.
  intros Ha Hok Hs Hkv Hf.
  replace fuel with (S (S (length pre + S (fuel - length pre - 3))))%nat by lia.
  set (f := (fuel - length pre - 3)%nat).
  unfold call_c. cbn [rev app].
  destruct (marshal_reaches (S f) pre k v tl a mt h [] Ha Hok Hs) as (buf & _ & Hreach).
  apply bind_error. rewrite Hreach. apply bind_error.
  destruct Hkv as [[q ->] | [Hk [q ->]]].
  - apply bind_error. apply (pack_invalid f buf (-2)) with (v := VLight q); [reflexivity | eauto].
  - destruct (pack_scalar f buf (-2) 1
                (mkState (VLight q :: k :: VTable a :: [VTable (length h); VTable a])
                         (h ++ [OTable [] None]) []) k eq_refl Hk) as (b1 & Hp1 & _).
    run1. apply bind_error.
    apply (pack_invalid f b1 (-1)) with (v := VLight q); [reflexivity | eauto].
Qed.

(** A table whose keys and values are booleans, numbers and strings:
    [tbl_marshal] returns the header followed by the records of key and
    value of every pair in traversal order, and leaves the table as it is;
    [tbl_unmarshal] of that string, on any heap, returns a new table that
    holds the same pairs; nothing is said of the order in which the new
    table is traversed. *)
Theorem flat_stream_round_trip fuel es a mt h h' behind :
  h !! a = Some (OTable es mt) -> table_ok es -> scalars es ->
  (length es + 2 <= fuel)%nat ->
  let s := x8e :: x01 :: enc_pairs es in
  call_c (tbl_marshal host_call fuel) [VTable a] h
  = Ok (VStr s, mkState [VStr s; VTable a; VTable (length h); VTable a]
                        (h ++ [OTable [] None]) [])
  /\ exists es',
       call_c (tbl_unmarshal host_call host_load fuel behind) [VStr s] h'
       = Ok (VTable (S (length h')),
             mkState [VTable (S (length h')); VTable (length h'); VStr s]
                     (h' ++ [OTable [] None; OTable es' None]) [])
       /\ Permutation es' es.
Proof.
  intros Ha Hok Hs Hf s. split.
  - unfold call_c. cbn [rev app].
    replace fuel with (length es + S (S (fuel - length es - 2)))%nat by lia.
    rewrite (bind_ok _ _ _ _ _ (marshal_flat_state es _ a mt h [] Ha Hok Hs)).
    reflexivity.
  - exists es. split; [|reflexivity]. unfold call_c. cbn [rev app].
    replace fuel with (length es + S (fuel - length es - 1))%nat by lia.
    assert (Hk : Forall (fun kv => key_ok (fst kv)) es).
    { destruct Hok as [Hok _]. eapply Forall_impl; [exact Hok|]. intros kv [H _]. exact H. }
    rewrite (bind_ok _ _ _ _ _ (unmarshal_flat_state es _ behind [] h' [] Hs Hk)).
    rewrite (store_all_table_ok es []) by exact Hok. reflexivity.
Qed.



(** A boolean, a number or a string is packed as its record, with the
    Lua state and the id counter unchanged, and its record is decoded to
    the same value, pushed on the stack, with the cursor behind it. *)
Theorem scalar_round_trip fuel v :
  storable v ->
  (forall buf val idx L,
      lua_at val L = Ok (v, L) ->
      exists buf',
        pack_value host_call (S fuel) buf val idx L = Ok ((buf', idx), L)
        /\ data buf' = data buf ++ enc_scalar v)
  /\ (forall mem buf len p idx s h c,
      bytes_at mem p (enc_scalar v) ->
      (p - buf) + zlen (enc_scalar v) <= len ->
      unpack_value host_call host_load (S fuel) mem buf len p idx (mkState s h c)
      = Ok ((p + zlen (enc_scalar v), idx), mkState (v :: s) h c)).
Proof.
  intros Hv. split.
  - intros buf val idx L Hat. apply pack_scalar; assumption.
  - intros mem buf len p idx s h c Hb Hlen. apply unpack_scalar; assumption.
Qed.

End Flat.

(** ** Values the encoder refuses *)

Section PackErrors.

Variable host_call : value -> list value -> list object -> outcome (value * list object).
Variable host_load : list byte -> (fwhat * nat) + list byte.

Lemma closure_at_m1 fa s h c w code ups :
  h !! fa = Some (OFun w code ups) ->
  closure_at (-1) (mkState (VFun fa :: s) h c)
  = Ok (Some (fa, w, code, ups), mkState (VFun fa :: s) h c).
Proof.
  intros H. unfold closure_at. run1. unfold bind, get_heap. cbn [heap]. rewrite H. reflexivity.
Qed.

Lemma lua_dump_bytes_c fa s h c code ups :
  h !! fa = Some (OFun WhatC code ups) ->
  lua_dump_bytes (mkState (VFun fa :: s) h c) = Ok ([], mkState (VFun fa :: s) h c).
Proof.
  intros H. unfold lua_dump_bytes.
  rewrite (bind_ok _ _ _ _ _ (closure_at_m1 _ _ _ _ _ _ _ H)). reflexivity.
Qed.

Lemma lua_getinfo_uS_m1 fa s h c w code ups :
  h !! fa = Some (OFun w code ups) ->
  lua_getinfo_uS (mkState (VFun fa :: s) h c) = Ok ((w, zlen ups), mkState s h c).
Proof.
  intros H. unfold lua_getinfo_uS.
  rewrite (bind_ok _ _ _ _ _ (closure_at_m1 _ _ _ _ _ _ _ H)). reflexivity.
Qed.

Lemma pack_c_function fuel buf idx fa s h c r es mt code ups :
  slot (VFun fa :: s) 2 (VTable r) ->
  h !! r = Some (OTable es mt) ->
  Tbl.get es (VFun fa) = VNil ->
  h !! fa = Some (OFun WhatC code ups) ->
  pack_value host_call (S fuel) buf (-1) idx (mkState (VFun fa :: s) h c)
  = LuaError "attempt to persist a C function".
Proof.
  intros Hs Hr Hg Hf.
  assert (Hne : fa <> r) by (intros ->; congruence).
  assert (Hs2 : slot (VFun fa :: VFun fa :: s) 2 (VTable r)).
  { apply slot_cons; [lia | exact Hs]. }
  assert (Hs3 : slot (num idx :: VFun fa :: VFun fa :: s) 2 (VTable r)).
  { apply slot_cons; [lia | exact Hs2]. }
  pose proof (lua_rawget_slot (VFun fa) (VFun fa :: s) h c 2 r es mt Hs2 Hr) as Hrg.
  rewrite Hg in Hrg.
  assert (Hck : check_key (VFun fa) (mkState (num idx :: VFun fa :: VFun fa :: s) h c)
               = Ok (tt, mkState (num idx :: VFun fa :: VFun fa :: s) h c)) by reflexivity.
  pose proof (lua_rawset_slot (num idx) (VFun fa) (VFun fa :: s) h c 2 r es mt Hs3 Hr Hck) as Hrs.
  set (h1 := <[r := OTable (Tbl.set es (VFun fa) (num idx)) mt]> h) in *.
  assert (Hf1 : h1 !! fa = Some (OFun WhatC code ups)).
  { unfold h1. rewrite list_lookup_insert_ne by congruence. exact Hf. }
  pose proof (lua_dump_bytes_c fa (VFun fa :: s) h1 c _ _ Hf1) as Hdump.
  pose proof (lua_getinfo_uS_m1 fa (VFun fa :: s) h1 c _ _ _ Hf1) as Hinfo.
  assert (Ht : lua_type (-1) (mkState (VFun fa :: s) h c)
               = Ok (LUA_TFUNCTION, mkState (VFun fa :: s) h c)) by reflexivity.
  unfold pack_value, MAR_CHR, MAR_I32. unfold num in *.
  run. reflexivity.
Qed.

Lemma lua_call_1_error a f s h c msg :
  host_call f [a] h = LuaError msg ->
  lua_call host_call 1 (mkState (a :: f :: s) h c) = LuaError msg.
Proof.
  intros H. unfold lua_call.
  change (- (1 + 1)) with (-2). rewrite (bind_ok _ _ _ _ _ (lua_at_m2 _ _ _ _ _)).
  unfold bind at 1. unfold get_stack. cbn [stack].
  change (lua_pop (1 + 1)) with (lua_pop 2).
  rewrite (bind_ok _ _ _ _ _ (lua_pop_2 _ _ _ _ _)).
  unfold bind at 1. unfold log_call. cbn [stack heap calls].
  unfold bind at 1. unfold get_heap. cbn [stack heap calls].
  change (rev (take (Z.to_nat 1) (a :: f :: s))) with [a].
  rewrite H. reflexivity.
Qed.

(** A table or userdata with a persist hook: when the hook returns
    anything but a function, [pack_value] raises "__persist must return a
    function"; when the hook raises an error, that error is the outcome. *)
Theorem persist_hook_failures :
  (forall fuel buf val idx s h c v r es mt m mes mmt rv h1,
      val < 0 -> slot s val v ->
      (exists u, v = VUdata u \/ v = VTable u) ->
      slot s 2 (VTable r) ->
      h !! r = Some (OTable es mt) ->
      Tbl.get es v = VNil ->
      metatable_of h v = Some m ->
      h !! m = Some (OTable mes mmt) ->
      Tbl.get mes (VStr str__persist) <> VNil ->
      host_call (Tbl.get mes (VStr str__persist)) [v]
        (<[r := OTable (Tbl.set es v (num idx)) mt]> h)
      = Ok (rv, h1) ->
      type_of rv <> LUA_TFUNCTION ->
      pack_value host_call (S fuel) buf val idx (mkState s h c)
      = LuaError "__persist must return a function")
  /\ (forall fuel buf val idx s h c v r es mt m mes mmt msg,
      val < 0 -> slot s val v ->
      (exists u, v = VUdata u \/ v = VTable u) ->
      slot s 2 (VTable r) ->
      h !! r = Some (OTable es mt) ->
      Tbl.get es v = VNil ->
      metatable_of h v = Some m ->
      h !! m = Some (OTable mes mmt) ->
      Tbl.get mes (VStr str__persist) <> VNil ->
      host_call (Tbl.get mes (VStr str__persist)) [v]
        (<[r := OTable (Tbl.set es v (num idx)) mt]> h)
      = LuaError msg ->
      pack_value host_call (S fuel) buf val idx (mkState s h c) = LuaError msg).
Proof.
  split.
  - intros fuel buf val idx s h c v r es mt m mes mmt rv h1
      Hval Hsv (u & Hv) Hs2 Hr Hget Hm Hmh Hhk Hcall Hrv.
    unfold num in *.
    pose proof (luaL_getmetafield_hook val s h c _ m mes mmt _
                  (lua_at_slot _ _ _ _ _ Hsv) Hm Hmh eq_refl Hhk) as Hmf.
    pose proof (lua_call_1 _ _ _ s _ c _ _ Hcall) as Hc1.
    assert (Hisf : lua_isfunction (-1) (mkState (rv :: s) h1
                     (c ++ [(Tbl.get mes (VStr str__persist), [v])]))
                   = Ok (false, mkState (rv :: s) h1
                     (c ++ [(Tbl.get mes (VStr str__persist), [v])]))).
    { unfold lua_isfunction.
      rewrite (bind_ok _ _ _ _ _ (lua_type_ok _ _ _ (lua_at_m1 _ _ _ _))).
      unfold ret. do 2 f_equal. apply Z.eqb_neq. exact Hrv. }
    assert (Hck : forall st, check_key v st = Ok (tt, st))
      by (destruct Hv as [-> | ->]; reflexivity).
    unfold pack_value.
    destruct Hv as [-> | ->].
    + run. rewrite Hget. run. reflexivity.
    + run. rewrite Hget. run. reflexivity.
  - intros fuel buf val idx s h c v r es mt m mes mmt msg
      Hval Hsv (u & Hv) Hs2 Hr Hget Hm Hmh Hhk Hcall.
    unfold num in *.
    pose proof (luaL_getmetafield_hook val s h c _ m mes mmt _
                  (lua_at_slot _ _ _ _ _ Hsv) Hm Hmh eq_refl Hhk) as Hmf.
    pose proof (lua_call_1_error _ _ s _ c _ Hcall) as Hc1.
    unfold pack_value.
    destruct Hv as [-> | ->]; run; rewrite Hget; run;
      apply bind_error; exact Hc1.
Qed.

(** A C function as a value, behind any number of scalar pairs, makes
    [tbl_marshal] raise "attempt to persist a C function". *)
Theorem marshal_rejects_c_function fuel pre k fa tl a mt h code ups :
  h !! a = Some (OTable (pre ++ (k, VFun fa) :: tl) mt) ->
  table_ok (pre ++ (k, VFun fa) :: tl) -> scalars pre -> storable k ->
  h !! fa = Some (OFun WhatC code ups) ->
  (length pre + 3 <= fuel)%nat ->
  call_c (tbl_marshal host_call fuel) [VTable a] h
  = LuaError "attempt to persist a C function".
Proof.
  intros Ha Hok Hs Hk Hfa Hf.
  replace fuel with (S (S (length pre + S (fuel - length pre - 3))))%nat by lia.
  set (f := (fuel - length pre - 3)%nat).
  unfold call_c. cbn [rev app].
  destruct (marshal_reaches host_call (S f) pre k (VFun fa) tl a mt h [] Ha Hok Hs)
    as (buf & _ & Hreach).
  apply bind_error. rewrite Hreach. apply bind_error.
  destruct (pack_scalar host_call f buf (-2) 1
              (mkState (VFun fa :: k :: VTable a :: [VTable (length h); VTable a])
                       (h ++ [OTable [] None]) []) k eq_refl Hk) as (b1 & Hp1 & _).
  run1. apply bind_error.
  apply (pack_c_function f b1 1 fa _ _ _ (length h) [] None code ups).
  - reflexivity.
  - apply lookup_snoc.
  - reflexivity.
  - apply lookup_app_l_Some. exact Hfa.
Qed.

End PackErrors.

(** ** Records the decoder refuses *)

Section Errors.

Variable host_call : value -> list value -> list object -> outcome (value * list object).
Variable host_load : list byte -> (fwhat * nat) + list byte.

Lemma eqb_not_in (x y : Z) (l : list Z) : ~ In x l -> In y l -> (x =? y) = false.
Proof. intros H1 H2. apply Z.eqb_neq. intros ->. contradiction. Qed.

(** A type tag other than 1 and 3 to 8 raises "bad code", and so does any
    record that starts where the range has ended; under the table tag a
    sub-tag other than 1, 2 and 3 raises "bad encoded data"; under the
    userdata tag every sub-tag other than 1 and 3 is taken for the plain
    userdata and decodes to nil. *)
Theorem decoder_rejects_unknown_tags :
  (forall fuel mem buf len p idx L t,
      bytes_at mem p [t] ->
      ~ In (Z_of_byte t) [1; 3; 4; 5; 6; 7; 8] ->
      unpack_value host_call host_load (S fuel) mem buf len p idx L = LuaError "bad code")
  /\ (forall fuel mem buf len p idx L t,
      bytes_at mem p [t] -> len <= p - buf ->
      unpack_value host_call host_load (S fuel) mem buf len p idx L = LuaError "bad code")
  /\ (forall fuel mem buf len p idx L g,
      bytes_at mem p [x05; g] -> (p - buf) + 2 <= len ->
      ~ In (Z_of_byte g) [1; 2; 3] ->
      unpack_value host_call host_load (S fuel) mem buf len p idx L
      = LuaError "bad encoded data")
  /\ (forall fuel mem buf len p idx L g,
      bytes_at mem p [x07; g] -> (p - buf) + 2 <= len ->
      ~ In (Z_of_byte g) [1; 3] ->
      unpack_value host_call host_load (S fuel) mem buf len p idx L
      = Ok ((p + 2, idx), mkState (VNil :: stack L) (heap L) (calls L))).
Proof.
  split; [|split; [|split]].
  - intros fuel mem buf len p idx L t Hb Ht.
    unfold unpack_value, MAR_CHR. run1.
    unfold mar_incr_ptr, bind. destruct (len <? p - buf + 1); [reflexivity|].
    cbn [ret].
    rewrite !(eqb_not_in _ _ _ Ht) by (cbn; tauto). reflexivity.
  - intros fuel mem buf len p idx L t Hb Hlen.
    unfold unpack_value, MAR_CHR. run1.
    unfold mar_incr_ptr, bind.
    replace (len <? p - buf + 1) with true by (symmetry; apply Z.ltb_lt; lia).
    reflexivity.
  - intros fuel mem buf len p idx L g Hb Hlen Hg.
    change [x05; g] with ([x05] ++ [g]) in Hb. apply bytes_at_app in Hb as [Hb0 Hb1].
    change (zlen [x05]) with 1 in Hb1.
    unfold unpack_value, MAR_CHR. run.
    rewrite !(eqb_not_in _ _ _ Hg) by (cbn; tauto). reflexivity.
  - intros fuel mem buf len p idx [s h c] g Hb Hlen Hg.
    change [x07; g] with ([x07] ++ [g]) in Hb. apply bytes_at_app in Hb as [Hb0 Hb1].
    change (zlen [x07]) with 1 in Hb1.
    unfold unpack_value, MAR_CHR. run.
    rewrite !(eqb_not_in _ _ _ Hg) by (cbn; tauto). run.
    replace (p + 1 + 1) with (p + 2) by lia. reflexivity.
Qed.

End Errors.

(** ** Termination of the decoder *)

Lemma bind_returns' {A B} (m : M A) (k : A -> M B) L :
  m L <> OutOfFuel ->
  (forall a L', m L = Ok (a, L') -> k a L' <> OutOfFuel) ->
  bind m k L <> OutOfFuel.
Proof.
  intros Hm Hk. unfold bind. destruct (m L) as [[a L']| | |] eqn:E; try discriminate.
  - apply Hk. reflexivity.
  - congruence.
Qed.

Lemma bind_returns {A B} (m : M A) (k : A -> M B) :
  returns m -> (forall a, returns (k a)) -> returns (bind m k).
Proof. intros Hm Hk L. apply bind_returns'; [apply Hm | intros a L' _; apply Hk]. Qed.

Lemma ret_returns {A} (a : A) : returns (ret a).
Proof. intros L. discriminate. Qed.

Lemma luaL_error_returns {A} msg : returns (@luaL_error A msg).
Proof. intros L. discriminate. Qed.

Lemma undefined_returns {A} why : returns (@undefined A why).
Proof. intros L. discriminate. Qed.

Ltac returns_tac :=
  repeat first
    [ apply ret_returns | apply luaL_error_returns | apply undefined_returns
    | (intros ?; discriminate)
    | apply bind_returns; [|intros ?]
    | match goal with
      | |- returns (match ?x with _ => _ end) => destruct x
      | |- returns (if ?c then _ else _) => destruct c
      | |- returns (let (_, _) := ?x in _) => destruct x
      end ].

Lemma lua_at_returns i : returns (lua_at i).
Proof. unfold lua_at, get_stack. returns_tac. Qed.
Lemma lua_push_returns v : returns (lua_push v).
Proof. unfold lua_push, get_stack, put_stack. returns_tac. Qed.
Lemma lua_pop_returns n : returns (lua_pop n).
Proof. unfold lua_pop, get_stack, put_stack. returns_tac. Qed.
Lemma lua_remove_returns i : returns (lua_remove i).
Proof. unfold lua_remove, get_stack, put_stack. returns_tac. Qed.
Lemma table_at_returns i : returns (table_at i).
Proof. unfold table_at, get_heap. pose proof (lua_at_returns i). returns_tac; assumption. Qed.

Create HintDb returns.
#[global] Hint Resolve lua_at_returns lua_push_returns lua_pop_returns lua_remove_returns
  table_at_returns : returns.

Ltac returns_by unf := unf; returns_tac; auto with returns.

Lemma get_heap_returns : returns get_heap.
Proof. intros L. discriminate. Qed.
Lemma put_heap_returns h : returns (put_heap h).
Proof. intros L. discriminate. Qed.
Lemma get_stack_returns : returns get_stack.
Proof. intros L. discriminate. Qed.
#[global] Hint Resolve get_heap_returns put_heap_returns get_stack_returns : returns.

Lemma peek_returns mem p n : returns (peek mem p n).
Proof. returns_by ltac:(unfold peek). Qed.
#[global] Hint Resolve peek_returns : returns.
Lemma peek_char_returns mem p : returns (peek_char mem p).
Proof. returns_by ltac:(unfold peek_char). Qed.
Lemma mar_incr_ptr_returns buf len p l : returns (mar_incr_ptr buf len p l).
Proof. returns_by ltac:(unfold mar_incr_ptr). Qed.
Lemma mar_next_len_returns mem buf len p : returns (mar_next_len mem buf len p).
Proof. returns_by ltac:(unfold mar_next_len). Qed.
Lemma lua_pushboolean_returns b : returns (lua_pushboolean b).
Proof. returns_by ltac:(unfold lua_pushboolean). Qed.
Lemma lua_pushnumber_returns b : returns (lua_pushnumber b).
Proof. returns_by ltac:(unfold lua_pushnumber). Qed.
Lemma lua_pushlstring_returns b : returns (lua_pushlstring b).
Proof. returns_by ltac:(unfold lua_pushlstring). Qed.
Lemma lua_pushnil_returns : returns lua_pushnil.
Proof. returns_by ltac:(unfold lua_pushnil). Qed.
Lemma lua_pushvalue_returns i : returns (lua_pushvalue i).
Proof. returns_by ltac:(unfold lua_pushvalue). Qed.
Lemma lua_rawgeti_returns i n : returns (lua_rawgeti i n).
Proof. returns_by ltac:(unfold lua_rawgeti). Qed.
Lemma store_table_returns a es mt : returns (store_table a es mt).
Proof. returns_by ltac:(unfold store_table). Qed.
#[global] Hint Resolve store_table_returns : returns.
Lemma lua_rawseti_returns i n : returns (lua_rawseti i n).
Proof. returns_by ltac:(unfold lua_rawseti). Qed.
Lemma check_key_returns k : returns (check_key k).
Proof. returns_by ltac:(unfold check_key). Qed.
#[global] Hint Resolve check_key_returns : returns.
Lemma lua_settable_returns i : returns (lua_settable i).
Proof. returns_by ltac:(unfold lua_settable). Qed.
Lemma lua_newtable_returns : returns lua_newtable.
Proof. returns_by ltac:(unfold lua_newtable, alloc). Qed.
Lemma lua_objlen_returns i : returns (lua_objlen i).
Proof. returns_by ltac:(unfold lua_objlen). Qed.
Lemma closure_at_returns i : returns (closure_at i).
Proof. returns_by ltac:(unfold closure_at). Qed.
#[global] Hint Resolve closure_at_returns : returns.
Lemma lua_setupvalue_returns i n : returns (lua_setupvalue i n).
Proof. returns_by ltac:(unfold lua_setupvalue). Qed.
#[global] Hint Resolve peek_char_returns mar_incr_ptr_returns mar_next_len_returns
  lua_pushboolean_returns lua_pushnumber_returns lua_pushlstring_returns lua_pushnil_returns
  lua_pushvalue_returns lua_rawgeti_returns lua_rawseti_returns lua_settable_returns
  lua_newtable_returns lua_objlen_returns lua_setupvalue_returns : returns.
Lemma setupvalues_returns n : forall i, returns (setupvalues n i).
Proof. induction n as [|n IH]; intros i; cbn [setupvalues]; returns_tac; auto with returns. Qed.
Lemma luaL_checklstring_returns i : returns (luaL_checklstring i).
Proof. returns_by ltac:(unfold luaL_checklstring). Qed.
Lemma buf_init_returns : returns buf_init.
Proof. returns_by ltac:(unfold buf_init). Qed.
Lemma buf_write_returns s l b : returns (buf_write s l b).
Proof. returns_by ltac:(unfold buf_write). Qed.
#[global] Hint Resolve setupvalues_returns luaL_checklstring_returns buf_init_returns
  buf_write_returns : returns.

Section Terminates.

Variable host_call : value -> list value -> list object -> outcome (value * list object).
Variable host_load : list byte -> (fwhat * nat) + list byte.
Hypothesis host_returns : forall f args h, host_call f args h <> OutOfFuel.

Lemma lua_call_returns n : returns (lua_call host_call n).
Proof.
  unfold lua_call.
  apply bind_returns; [auto with returns | intros f].
  apply bind_returns; [auto with returns | intros s].
  apply bind_returns; [auto with returns | intros _].
  apply bind_returns; [intros L; discriminate | intros _].
  apply bind_returns; [auto with returns | intros h].
  destruct (host_call f (rev (take (Z.to_nat n) s)) h) as [[r h']| | |] eqn:E.
  - returns_tac; auto with returns.
  - apply luaL_error_returns.
  - apply undefined_returns.
  - exfalso. eapply host_returns. exact E.
Qed.

Lemma lua_load_returns chunk : returns (lua_load host_load chunk).
Proof. returns_by ltac:(unfold lua_load, alloc). Qed.

Ltac oof_step IH :=
  lazymatch goal with
  | |- bind ?m ?k ?L <> OutOfFuel =>
      apply bind_returns';
      [ first
          [ let Hr := fresh in
            assert (Hr : returns m)
              by first [ solve [auto with returns]
                       | apply lua_call_returns | apply lua_load_returns ];
            apply Hr
          | repeat match goal with
                   | Hb : bytes_at _ _ _ |- _ => destruct Hb as (? & ? & _)
                   end;
            apply IH; lia ]
      | let a := fresh "a" in let L' := fresh "L" in let H := fresh "Hs" in
        intros a L' H;
        lazymatch type of a with
        | prod _ _ => destruct a
        | unit => destruct a
        | _ => idtac
        end;
        cbv beta iota zeta; refine_step H ]
  | |- (if ?c then _ else _) _ <> OutOfFuel => destruct c
  | |- ret _ _ <> OutOfFuel => discriminate
  | |- luaL_error _ _ <> OutOfFuel => discriminate
  end.

Lemma value_returns_step f : loop_returns host_call host_load f -> value_returns host_call host_load (S f).
Proof.
  intros IH mem buf len p idx L _ Hf.
  unfold unpack_value, MAR_CHR, MAR_I64.
  repeat oof_step IH.
Qed.

Lemma unpack_value_reads_tag fuel mem buf len p idx L r :
  unpack_value host_call host_load fuel mem buf len p idx L = Ok r ->
  0 <= p /\ p + 1 <= zlen mem.
Proof.
  destruct fuel as [|fuel]; [discriminate|]. unfold unpack_value. intros H.
  apply bind_inv in H as (t & L1 & H & _).
  apply peek_char_inv in H as (_ & b & _ & (H0 & H1 & _)).
  change (zlen [b]) with 1 in H1. lia.
Qed.

Lemma loop_returns_step f : value_returns host_call host_load f -> loop_returns host_call host_load f -> loop_returns host_call host_load (S f).
Proof.
  intros IHv IHl mem buf len p idx L Hf2 Hf.
  rewrite mar_unpack_loop_S. destruct (p - buf <? len); [|discriminate].
  apply bind_returns'; [apply IHv; lia|]. intros [p1 idx1] L1 H1. cbv beta iota.
  pose proof (unpack_value_reads_tag _ _ _ _ _ _ _ _ H1) as [Hp0 Hp1].
  apply (proj1 (locality host_call host_load f)) in H1 as (Hlt1 & _ & _).
  apply bind_returns'; [apply IHv; lia|]. intros [p2 idx2] L2 H2. cbv beta iota.
  pose proof (unpack_value_reads_tag _ _ _ _ _ _ _ _ H2) as [Hq0 Hq1].
  apply (proj1 (locality host_call host_load f)) in H2 as (Hlt2 & _ & _).
  apply bind_returns'; [apply lua_settable_returns|]. intros _ L3 _.
  apply IHl; lia.
Qed.

Lemma decoder_returns F : value_returns host_call host_load F /\ loop_returns host_call host_load F.
Proof.
  induction F as [|F [IHv IHl]].
  - split; intros ? ? ? ? ? ? ?; lia.
  - split; [apply value_returns_step | apply loop_returns_step]; assumption.
Qed.

Lemma length_swap_loop cnt : forall i j (p : list byte), length (swap_loop cnt i j p) = length p.
Proof.
  induction cnt as [|cnt IH]; intros i j p; cbn [swap_loop]; [reflexivity|].
  rewrite IH, !length_insert. reflexivity.
Qed.

Lemma unmarshal_state_returns fuel behind s st h c :
  zlen s + zlen behind + 2 <= Z.of_nat fuel ->
  tbl_unmarshal host_call host_load fuel behind (mkState (VStr s :: st) h c) <> OutOfFuel.
Proof.
  intros Hf. pose proof (zlen_nonneg s). pose proof (zlen_nonneg behind).
  rewrite tbl_unmarshal_start. cbv zeta.
  destruct (zlen s <? 2) eqn:E2; [discriminate|]. apply Z.ltb_ge in E2.
  destruct (negb _); [discriminate|].
  apply bind_returns'; [apply lua_newtable_returns|]. intros _ L1 _.
  apply bind_returns'; [apply lua_newtable_returns|]. intros _ L2 _.
  destruct (negb _).
  - apply bind_returns'; [apply buf_init_returns|]. intros b0 L3 Hb0.
    injection Hb0 as <- <-.
    apply bind_returns'; [apply buf_write_returns|]. intros b1 L3 Hb1.
    apply buf_write_inv in Hb1 as (-> & _ & Hd). cbn [data app] in Hd.
    destruct (_ <? 0); [discriminate|].
    apply bind_returns'; [|intros; discriminate].
    unfold mar_unpack. apply bind_returns'; [|intros; discriminate].
    apply (proj2 (decoder_returns fuel)); [lia|].
    rewrite zlen_app. unfold zlen at 1. rewrite length_swap_loop, Hd.
    rewrite length_take. unfold zlen in *. lia.
  - apply bind_returns'; [|intros; discriminate].
    unfold mar_unpack. apply bind_returns'; [|intros; discriminate].
    apply (proj2 (decoder_returns fuel)); [lia|].
    rewrite zlen_app. lia.
Qed.

(** [tbl_unmarshal] comes back for every string, whatever its bytes and
    whatever lies behind it in memory, as long as the functions it calls
    do: every value read moves the cursor on, so a recursion depth above
    the number of mapped bytes is never used up. *)
Theorem unmarshal_terminates fuel behind s args h :
  zlen s + zlen behind + 2 <= Z.of_nat fuel ->
  call_c (tbl_unmarshal host_call host_load fuel behind) (args ++ [VStr s]) h <> OutOfFuel.
Proof.
  intros Hf. unfold call_c. rewrite rev_app_distr. cbn [rev app].
  apply bind_returns'; [apply unmarshal_state_returns; exact Hf|].
  intros a L' _. apply lua_at_returns.
Qed.

End Terminates.

(** ** What a decoded value depends on *)

Section Local.

Variable host_call : value -> list value -> list object -> outcome (value * list object).
Variable host_load : list byte -> (fwhat * nat) + list byte.

(** A value that [unpack_value] decodes moves the cursor forward, to a
    place inside the range it was given, and depends on nothing but the
    bytes between the two cursors: on any memory that holds the same bytes
    there, with any range that reaches the new cursor, the same value is
    decoded into the same state. *)
Theorem decoded_value_is_local fuel mem1 buf len1 p idx L p' idx' L' :
  unpack_value host_call host_load fuel mem1 buf len1 p idx L = Ok ((p', idx'), L') ->
  p < p' /\ p' - buf <= len1 /\
  forall mem2 len2,
    agree mem1 mem2 p p' -> p' - buf <= len2 ->
    unpack_value host_call host_load fuel mem2 buf len2 p idx L = Ok ((p', idx'), L').
Proof. apply (proj1 (locality host_call host_load fuel)). Qed.

End Local.

(** ** Tables inside tables *)

Lemma wf_shape_node a kids :
  wf_shape (SNode a kids)
  <-> Forall (fun ks => storable (fst ks) /\ key_ok (fst ks)) kids
      /\ distinct_keys (entries_of kids)
      /\ zlen (enc_kids kids) <= UINT32_MAX
      /\ wf_kids kids.
Proof.
  cbn [wf_shape]. fold (enc_kids kids).
  assert (H : (fix all (l : list (value * shape)) : Prop :=
            match l with
            | [] => True
            | ks :: l' => wf_shape (snd ks) /\ all l'
            end) kids <-> wf_kids kids).
  { unfold wf_kids. induction kids as [|ks kids IH]; [split; auto|].
    rewrite Forall_cons, IH. reflexivity. }
  rewrite H. reflexivity.
Qed.

Lemma in_heap_node h a kids :
  in_heap h (SNode a kids)
  <-> h !! a = Some (OTable (entries_of kids) None) /\ kids_in_heap h kids.
Proof.
  cbn [in_heap].
  assert (H : (fix all (l : list (value * shape)) : Prop :=
            match l with
            | [] => True
            | ks :: l' => in_heap h (snd ks) /\ all l'
            end) kids <-> kids_in_heap h kids).
  { unfold kids_in_heap. induction kids as [|ks kids IH]; [split; auto|].
    rewrite Forall_cons, IH. reflexivity. }
  rewrite H. reflexivity.
Qed.

Lemma similar_node a1 k1 a2 k2 :
  similar (SNode a1 k1) (SNode a2 k2) <-> similar_kids k1 k2.
Proof.
  cbn [similar]. unfold similar_kids. revert k2.
  induction k1 as [|ks1 k1 IH]; intros [|ks2 k2].
  - split; [constructor | auto].
  - split; [contradiction | intros H; inversion H].
  - split; [contradiction | intros H; inversion H].
  - rewrite Forall2_cons. rewrite <- IH. tauto.
Qed.

Lemma value_of_not_nil s : wf_shape s -> value_of s <> VNil.
Proof. destruct s as [v|a kids]; cbn; [destruct v; cbn; intros H; congruence || contradiction | discriminate]. Qed.

Lemma entries_of_app k1 k2 : entries_of (k1 ++ k2) = entries_of k1 ++ entries_of k2.
Proof. unfold entries_of. apply map_app. Qed.

Lemma enc_kids_cons k s kids :
  enc_kids ((k, s) :: kids) = enc_scalar k ++ enc_shape s ++ enc_kids kids.
Proof. unfold enc_kids. cbn. rewrite <- app_assoc. reflexivity. Qed.

Lemma addrs_kids_cons k s kids : addrs_kids ((k, s) :: kids) = addrs s ++ addrs_kids kids.
Proof. reflexivity. Qed.

Lemma weight_kids_cons k s kids :
  weight_kids ((k, s) :: kids) = (1 + weight s + weight_kids kids)%nat.
Proof. unfold weight_kids, list_sum. cbn [length map fold_right snd]. lia. Qed.

Lemma get_update_table es a a' v :
  a <> a' ->
  Tbl.get (Tbl.update es (VTable a) v) (VTable a') = Tbl.get es (VTable a').
Proof.
  intros Hne. induction es as [|[k0 v0] es IH]; cbn [Tbl.update Tbl.get].
  - unfold Tbl.key_eqb. rewrite bool_decide_eq_false_2 by congruence. reflexivity.
  - destruct (Tbl.key_eqb k0 (VTable a)) eqn:E; cbn [Tbl.get].
    + assert (k0 = VTable a) as ->.
      { destruct k0; cbn in E; try discriminate; apply bool_decide_eq_true_1 in E; exact E. }
      unfold Tbl.key_eqb. rewrite bool_decide_eq_false_2 by congruence. reflexivity.
    + rewrite IH. reflexivity.
Qed.

Lemma table_ok_entries kids :
  Forall (fun ks => storable (fst ks) /\ key_ok (fst ks)) kids ->
  distinct_keys (entries_of kids) -> wf_kids kids ->
  table_ok (entries_of kids).
Proof.
  intros Hk Hd Hw. split; [|exact Hd].
  unfold entries_of. apply Forall_map. unfold wf_kids in Hw.
  induction kids as [|[k s] kids IH]; constructor.
  - apply Forall_cons in Hk as [[_ Hk] _]. apply Forall_cons in Hw as [Hw _].
    cbn [fst snd] in *. split; [exact Hk | apply value_of_not_nil; exact Hw].
  - apply Forall_cons in Hk as [_ Hk]. apply Forall_cons in Hw as [_ Hw].
    cbn [entries_of map distinct_keys] in Hd. apply IH; tauto.
Qed.

Lemma weight_node a kids : weight (SNode a kids) = (4 + weight_kids kids)%nat.
Proof. unfold weight_kids. cbn [weight]. lia. Qed.

Section PackTree.

Variable host_call : value -> list value -> list object -> outcome (value * list object).
Variable hb : list object.
Variable r : addr.
Variable rmt : option addr.
Hypothesis Hr : (r < length hb)%nat.

Local Abbreviation wr X := (<[r := OTable X rmt]> hb).

Lemma wr_lookup_r X : wr X !! r = Some (OTable X rmt).
Proof. apply list_lookup_insert_eq. exact Hr. Qed.

Lemma wr_lookup_ne X a : a <> r -> wr X !! a = hb !! a.
Proof. intros H. apply list_lookup_insert_ne. congruence. Qed.

Lemma wr_wr X Y : <[r := OTable Y rmt]> (wr X) = wr Y.
Proof. apply list_insert_insert_eq. Qed.

Lemma mar_pack_S fuel buf idx :
  mar_pack host_call (S fuel) buf idx = (lua_pushnil ;; mar_pack_loop host_call fuel buf idx).
Proof. reflexivity. Qed.

Lemma pack_plain_table f buf idx st c X a es :
  hb !! a = Some (OTable es None) -> a <> r ->
  Tbl.get X (VTable a) = VNil ->
  slot (VTable a :: st) 2 (VTable r) ->
  pack_value host_call (S f) buf (-1) idx (mkState (VTable a :: st) (wr X) c)
  = (rec_buf <- mar_pack host_call f (mkBuffer 128 0 []) (int_succ idx) ;;
     buf_done rec_buf ;;
     rec_packed <- lua_tolstring (-1) ;;
     buf <- buf_write (le_bytes 4 MAR_TVAL) MAR_CHR
              (mkBuffer (buf_reserve buf MAR_CHR) (seek buf) (data buf ++ [x05])) ;;
     buf <- buf_write (le_bytes 8 (zlen rec_packed)) MAR_I32 buf ;;
     buf <- buf_write rec_packed (zlen rec_packed) buf ;;
     lua_pop 2 ;;
     ret (buf, int_succ idx))
      (mkState (VTable a :: VTable a :: st)
               (wr (Tbl.update X (VTable a) (VNum (Num.of_int idx)))) c).
Proof.
  intros Ha Har Hx Hslot.
  assert (Hat : lua_at (-1) (mkState (VTable a :: st) (wr X) c)
                = Ok (VTable a, mkState (VTable a :: st) (wr X) c)) by reflexivity.
  pose proof (lua_type_ok _ _ _ Hat) as Ht. cbn [type_of] in Ht.
  assert (Hrg : lua_rawget 2 (mkState (VTable a :: VTable a :: st) (wr X) c)
                = Ok (tt, mkState (VNil :: VTable a :: st) (wr X) c)).
  { rewrite <- Hx. apply lua_rawget_slot with (a := r) (mt := rmt).
    - apply slot_cons; [lia | exact Hslot].
    - apply wr_lookup_r. }
  assert (Hmf : luaL_getmetafield (-1) str__persist (mkState (VTable a :: st) (wr X) c)
                = Ok (false, mkState (VTable a :: st) (wr X) c)).
  { apply luaL_getmetafield_hookless with (v := VTable a); [exact Hat|].
    unfold hookless, metatable_of. cbn [heap]. rewrite wr_lookup_ne, Ha by exact Har. exact I. }
  assert (Hrs : lua_rawset 2 (mkState (VNum (Num.of_int idx) :: VTable a :: VTable a :: st) (wr X) c)
                = Ok (tt, mkState (VTable a :: st)
                            (wr (Tbl.update X (VTable a) (VNum (Num.of_int idx)))) c)).
  { rewrite <- (wr_wr X (Tbl.update X (VTable a) (VNum (Num.of_int idx)))).
    apply (lua_rawset_slot (VNum (Num.of_int idx)) (VTable a) (VTable a :: st) (wr X) c 2 r X rmt).
    - apply slot_cons; [lia|]. apply slot_cons; [lia | exact Hslot].
    - apply wr_lookup_r.
    - reflexivity. }
  unfold pack_value, MAR_CHR. run1. run1. run_if. run_if. run_if. run_if.
  run1. run1. run1.
  change (negb (type_of VNil =? LUA_TNIL)) with false. cbv iota.
  run1. run1. cbv iota.
  run1. run1. run1. run1. run1.
  reflexivity.
Qed.

Lemma pack_tree_and_kids fuel :
  (forall s buf idx st c X,
      wf_shape s -> in_heap hb s -> NoDup (addrs s) -> r ∉ addrs s ->
      (forall a, a ∈ addrs s -> Tbl.get X (VTable a) = VNil) ->
      slot (value_of s :: st) 2 (VTable r) ->
      (weight s <= fuel)%nat ->
      exists buf' idx' X',
        pack_value host_call fuel buf (-1) idx (mkState (value_of s :: st) (wr X) c)
        = Ok ((buf', idx'), mkState (value_of s :: st) (wr X') c)
        /\ data buf' = data buf ++ enc_shape s
        /\ (forall a, a ∉ addrs s -> Tbl.get X' (VTable a) = Tbl.get X (VTable a)))
  /\ (forall rest done prev buf idx st c X a mt,
      hb !! a = Some (OTable (entries_of (done ++ rest)) mt) -> a <> r ->
      table_ok (entries_of (done ++ rest)) ->
      Forall (fun ks => storable (fst ks)) rest ->
      wf_kids rest -> kids_in_heap hb rest ->
      NoDup (addrs_kids rest) -> r ∉ addrs_kids rest ->
      (forall a', a' ∈ addrs_kids rest -> Tbl.get X (VTable a') = VNil) ->
      cursor prev (entries_of done) ->
      slot (VTable a :: st) 2 (VTable r) ->
      (weight_kids rest + 1 <= fuel)%nat ->
      exists buf' X',
        mar_pack_loop host_call fuel buf idx (mkState (prev :: VTable a :: st) (wr X) c)
        = Ok (buf', mkState (VTable a :: st) (wr X') c)
        /\ data buf' = data buf ++ enc_kids rest
        /\ (forall a', a' ∉ addrs_kids rest -> Tbl.get X' (VTable a') = Tbl.get X (VTable a'))).
Proof.
  induction fuel as [fuel IH] using lt_wf_ind. split.
  - intros s buf idx st c X Hwf Hin Hnd Hrn Hfresh Hslot Hw.
    destruct s as [v|a kids].
    + cbn [value_of weight enc_shape wf_shape] in *.
      destruct fuel as [|fuel]; [lia|].
      destruct (pack_scalar host_call fuel buf (-1) idx (mkState (v :: st) (wr X) c) v eq_refl Hwf)
        as (buf' & Hp & Hd).
      exists buf', idx, X. split; [exact Hp|]. split; [exact Hd|]. reflexivity.
    + pose proof Hwf as Hwf0.
      apply wf_shape_node in Hwf as (Hkeys & Hdist & Hsize & Hwk).
      apply in_heap_node in Hin as (Ha & Hkh).
      cbn [value_of addrs] in *. fold (addrs_kids kids) in *.
      apply NoDup_cons in Hnd as [Hnotin Hnd].
      assert (Har : a <> r) by (intros ->; apply Hrn; left).
      rewrite weight_node in Hw.
      destruct fuel as [|[|f]]; [lia | lia |].
      set (X1 := Tbl.update X (VTable a) (VNum (Num.of_int idx))).
      destruct (IH f ltac:(lia)) as [_ IHQ].
      destruct (IHQ kids [] VNil (mkBuffer 128 0 []) (int_succ idx) (VTable a :: st) c X1 a None)
        as (rb & X' & Hloop & Hd & Hframe).
      { exact Ha. }
      { exact Har. }
      { apply table_ok_entries; assumption. }
      { eapply Forall_impl; [exact Hkeys|]. intros ks [H _]. exact H. }
      { exact Hwk. }
      { exact Hkh. }
      { exact Hnd. }
      { intros H. apply Hrn. right. exact H. }
      { intros a' Ha'. unfold X1. rewrite get_update_table.
        - apply Hfresh. right. exact Ha'.
        - intros ->. contradiction. }
      { reflexivity. }
      { apply slot_cons; [lia | exact Hslot]. }
      { lia. }
      cbn [data app] in Hd.
      exists (mkBuffer (buf_reserve (mkBuffer (buf_reserve (mkBuffer (buf_reserve (mkBuffer (buf_reserve buf MAR_CHR) (seek buf) (data buf ++ [x05])) MAR_CHR) (seek buf) ((data buf ++ [x05]) ++ [x02])) MAR_I32) (seek buf) (((data buf ++ [x05]) ++ [x02]) ++ le_bytes 4 (zlen (data rb)))) (zlen (data rb))) (seek buf)
                ((((data buf ++ [x05]) ++ [x02]) ++ le_bytes 4 (zlen (data rb))) ++ data rb)),
        (int_succ idx), X'.
      split; [|split].
      * rewrite (pack_plain_table _ _ _ _ _ _ _ _ Ha Har); cycle 1.
        { apply Hfresh. left. }
        { exact Hslot. }
        rewrite mar_pack_S, bind_assoc. fold X1. run1. run1. run1. run1.
        unfold MAR_CHR, MAR_I32. run1. run1.
        assert (Hsz : zlen (data rb) <= UINT32_MAX) by (rewrite Hd; exact Hsize).
        run1. run1. cbn [size seek data]. rewrite take_zlen.
        reflexivity.
      * cbn [data enc_shape]. fold (enc_kids kids). rewrite Hd, <- !app_assoc. reflexivity.
      * intros a' Ha'. rewrite Hframe.
        -- unfold X1. apply get_update_table. intros ->. apply Ha'. left.
        -- intros H. apply Ha'. right. exact H.
  - intros rest done prev buf idx st c X a mt Ha Har Hok Hst Hwk Hkh Hnd Hrn Hfresh Hc Hslot Hw.
    destruct fuel as [|f]; [lia|].
    assert (Ha' : forall X0, wr X0 !! a = Some (OTable (entries_of (done ++ rest)) mt)).
    { intros X0. rewrite wr_lookup_ne by exact Har. exact Ha. }
    destruct rest as [|[k s] rest].
    + exists buf, X. rewrite app_nil_r in *. split; [|split].
      * rewrite mar_pack_loop_S.
        rewrite (bind_ok _ _ _ _ _ (lua_next_done _ _ _ _ _ _ _ (Ha' X) Hok Hc)). reflexivity.
      * reflexivity.
      * reflexivity.
    + rewrite weight_kids_cons in Hw.
      apply Forall_cons in Hst as [Hk Hst]. apply Forall_cons in Hwk as [Hws Hwk].
      apply Forall_cons in Hkh as [Hhs Hkh]. cbn [fst snd] in *.
      rewrite addrs_kids_cons in *.
      apply NoDup_app in Hnd as (Hnd1 & Hdisj & Hnd2).
      destruct (IH f ltac:(lia)) as [IHP IHQ].
      destruct (pack_scalar host_call (f - 1) buf (-2) idx
                  (mkState (value_of s :: k :: VTable a :: st) (wr X) c) k eq_refl Hk)
        as (b1 & Hp1 & Hd1).
      replace (S (f - 1)) with f in Hp1 by lia.
      destruct (IHP s b1 idx (k :: VTable a :: st) c X Hws Hhs Hnd1) as (b2 & idx2 & X2 & Hp2 & Hd2 & Hf2).
      { intros H. apply Hrn. apply elem_of_app. left. exact H. }
      { intros a' H. apply Hfresh. apply elem_of_app. left. exact H. }
      { apply slot_cons; [lia|]. apply slot_cons; [lia|]. exact Hslot. }
      { lia. }
      destruct (IHQ rest (done ++ [(k, s)]) k b2 idx2 st c X2 a mt) as (b3 & X3 & Hp3 & Hd3 & Hf3).
      { rewrite <- app_assoc. exact Ha. }
      { exact Har. }
      { rewrite <- app_assoc. exact Hok. }
      { exact Hst. }
      { exact Hwk. }
      { exact Hkh. }
      { exact Hnd2. }
      { intros H. apply Hrn. apply elem_of_app. right. exact H. }
      { intros a' H. rewrite Hf2.
        - apply Hfresh. apply elem_of_app. right. exact H.
        - intros H1. exact (Hdisj a' H1 H). }
      { rewrite entries_of_app. apply cursor_snoc. }
      { exact Hslot. }
      { lia. }
      exists b3, X3. split; [|split].
      * rewrite mar_pack_loop_S.
        pose proof (Ha' X) as HaX. pose proof Hok as Hok'.
        rewrite entries_of_app in HaX, Hok'. cbn [entries_of map fst snd] in HaX, Hok'.
        rewrite (bind_ok _ _ _ _ _ (lua_next_more _ _ _ _ _ _ _ _ _ _ HaX Hok' Hc)).
        cbv beta iota. run1. run1. run1. exact Hp3.
      * rewrite Hd3, Hd2, Hd1, enc_kids_cons, <- !app_assoc. reflexivity.
      * intros a' H. rewrite Hf3, Hf2; [reflexivity| |].
        -- intros H1. apply H. apply elem_of_app. left. exact H1.
        -- intros H1. apply H. apply elem_of_app. right. exact H1.
Qed.

End PackTree.

(** Induction over shapes, with the property known of every child. *)
Lemma shape_induction (P : shape -> Prop) :
  (forall v, P (SLeaf v)) ->
  (forall a kids, Forall (fun ks => P (snd ks)) kids -> P (SNode a kids)) ->
  forall s, P s.
Proof.
  intros Hl Hn. fix IH 1. intros [v|a kids]; [apply Hl|].
  apply Hn. induction kids as [|ks kids IHk]; constructor; [apply IH | exact IHk].
Qed.

Lemma in_heap_frame h1 h2 s :
  (forall x, x ∈ addrs s -> h2 !! x = h1 !! x) -> in_heap h1 s -> in_heap h2 s.
Proof.
  induction s as [v|a kids IH] using shape_induction; intros Hf Hin; [exact I|].
  apply in_heap_node in Hin as [Ha Hk]. apply in_heap_node.
  cbn [addrs] in Hf. fold (addrs_kids kids) in Hf. split.
  - rewrite Hf by left. exact Ha.
  - assert (Hf' : forall x, x ∈ addrs_kids kids -> h2 !! x = h1 !! x)
      by (intros x Hx; apply Hf; right; exact Hx).
    clear Hf Ha. unfold kids_in_heap in *.
    induction kids as [|[k s] kids IHk]; constructor.
    + apply Forall_cons in IH as [IH _]. apply Forall_cons in Hk as [Hk _].
      cbn [snd] in *. apply IH; [|exact Hk].
      intros x Hx. apply Hf'. rewrite addrs_kids_cons. apply elem_of_app. left. exact Hx.
    + apply Forall_cons in IH as [_ IH]. apply Forall_cons in Hk as [_ Hk].
      apply IHk; [exact IH | exact Hk |].
      intros x Hx. apply Hf'. rewrite addrs_kids_cons. apply elem_of_app. right. exact Hx.
Qed.

Lemma in_heap_lt h s x : in_heap h s -> x ∈ addrs s -> (x < length h)%nat.
Proof.
  revert x. induction s as [v|a kids IH] using shape_induction; intros x Hin Hx.
  - cbn in Hx. apply elem_of_nil in Hx. contradiction.
  - apply in_heap_node in Hin as [Ha Hk]. cbn [addrs] in Hx. fold (addrs_kids kids) in Hx.
    apply elem_of_cons in Hx as [-> | Hx]; [eapply lookup_lt_Some; exact Ha|].
    clear Ha. unfold kids_in_heap in Hk.
    induction kids as [|[k s] kids IHk]; [apply elem_of_nil in Hx; contradiction|].
    apply Forall_cons in IH as [IH1 IH2]. apply Forall_cons in Hk as [Hk1 Hk2].
    rewrite addrs_kids_cons in Hx. apply elem_of_app in Hx as [Hx | Hx].
    + apply IH1; assumption.
    + apply IHk; assumption.
Qed.

Lemma in_heap_held h s : in_heap h s -> held h s.
Proof.
  induction s as [v|a kids IH] using shape_induction; intros Hin; [exact I|].
  apply in_heap_node in Hin as [Ha Hk]. cbn [held]. split.
  - exists (entries_of kids). split; [exact Ha | reflexivity].
  - clear Ha. unfold kids_in_heap in Hk. induction kids as [|ks kids IHk]; [exact I|].
    apply Forall_cons in IH as [IH1 IH2]. apply Forall_cons in Hk as [Hk1 Hk2].
    split; [apply IH1; exact Hk1 | apply IHk; assumption].
Qed.

Lemma kids_in_heap_frame h1 h2 kids :
  (forall x, x ∈ addrs_kids kids -> h2 !! x = h1 !! x) ->
  kids_in_heap h1 kids -> kids_in_heap h2 kids.
Proof.
  unfold kids_in_heap. induction kids as [|[k s] kids IH]; intros Hf Hk; constructor.
  - apply Forall_cons in Hk as [Hk _]. cbn [snd] in *.
    eapply in_heap_frame; [|exact Hk].
    intros x Hx. apply Hf. rewrite addrs_kids_cons. apply elem_of_app. left. exact Hx.
  - apply Forall_cons in Hk as [_ Hk]. apply IH; [|exact Hk].
    intros x Hx. apply Hf. rewrite addrs_kids_cons. apply elem_of_app. right. exact Hx.
Qed.

Lemma kids_in_heap_lt h kids x :
  kids_in_heap h kids -> x ∈ addrs_kids kids -> (x < length h)%nat.
Proof.
  unfold kids_in_heap. induction kids as [|[k s] kids IH]; intros Hk Hx.
  - apply elem_of_nil in Hx. contradiction.
  - apply Forall_cons in Hk as [Hk1 Hk2]. rewrite addrs_kids_cons in Hx.
    apply elem_of_app in Hx as [Hx | Hx]; [eapply in_heap_lt; eassumption | apply IH; assumption].
Qed.

Lemma distinct_keys_by_keys es1 : forall es2,
  map fst es1 = map fst es2 -> distinct_keys es1 -> distinct_keys es2.
Proof.
  induction es1 as [|[k1 v1] es1 IH]; intros [|[k2 v2] es2] Hm; try discriminate; [auto|].
  cbn [map fst] in Hm. injection Hm as -> Hm. cbn [distinct_keys]. intros [Hf Hd].
  split; [|apply IH; assumption].
  clear IH Hd. revert es2 Hm. induction es1 as [|[k v] es1 IH]; intros [|[k' v'] es2] Hm;
    try discriminate; constructor.
  - cbn [map fst] in Hm. injection Hm as <- _. apply Forall_cons in Hf as [Hf _]. exact Hf.
  - cbn [map fst] in Hm. injection Hm as _ Hm. apply Forall_cons in Hf as [_ Hf].
    apply IH; assumption.
Qed.

Lemma similar_value_not_nil s s' : wf_shape s -> similar s s' -> value_of s' <> VNil.
Proof.
  destruct s as [v|a kids], s' as [v'|a' kids']; cbn [similar]; try contradiction.
  - intros Hw <-. apply (value_of_not_nil (SLeaf v)). exact Hw.
  - discriminate.
Qed.

Lemma zlen_enc_node a kids :
  zlen (enc_shape (SNode a kids)) = 6 + zlen (enc_kids kids).
Proof.
  cbn [enc_shape]. fold (enc_kids kids).
  rewrite !zlen_app. unfold zlen at 1 2. rewrite length_le_bytes. cbn [length]. lia.
Qed.

Lemma set_fresh acc k v es :
  distinct_keys (acc ++ (k, v) :: es) -> forall v', v' <> VNil ->
  Tbl.set acc k v' = acc ++ [(k, v')].
Proof.
  intros Hd v' Hv.
  assert (Hf : Forall (fun kv => Tbl.key_eqb (fst kv) k = false) acc).
  { apply distinct_keys_app in Hd as (_ & _ & Hd).
    eapply Forall_impl; [exact Hd|]. intros kv H. apply Forall_cons in H as [H _]. exact H. }
  unfold Tbl.set. destruct v'; try congruence; apply update_fresh; exact Hf.
Qed.

Section UnpackTree.

Variable host_call : value -> list value -> list object -> outcome (value * list object).
Variable host_load : list byte -> (fwhat * nat) + list byte.
Variable r2 : addr.
Variable rmt2 : option addr.

Lemma unpack_plain_table f mem buf len p idx st c h Y body :
  bytes_at mem p ([x05; x02] ++ le_bytes 4 (zlen body) ++ body) ->
  zlen body <= UINT32_MAX -> p - buf + 6 + zlen body <= len ->
  h !! r2 = Some (OTable Y rmt2) -> slot st 2 (VTable r2) ->
  unpack_value host_call host_load (S f) mem buf len p idx (mkState st h c)
  = (mar_unpack_loop host_call host_load f mem (p + 6) (zlen body) (p + 6) (int_succ idx) ;;
     p' <- mar_incr_ptr buf len (p + 6) (zlen body) ;;
     ret (p', int_succ idx))
      (mkState (VTable (length h) :: st)
               (<[r2 := OTable (Tbl.update Y (VNum (Num.of_int idx)) (VTable (length h))) rmt2]>
                  (h ++ [OTable [] None])) c).
Proof.
  intros Hb Hsize Hlen Hr2 Hslot.
  pose proof (zlen_nonneg body) as H0.
  change [x05; x02] with ([x05] ++ [x02]) in Hb. rewrite <- app_assoc in Hb.
  apply bytes_at_app in Hb as [Hb0 Hb]. change (zlen [x05]) with 1 in Hb.
  apply bytes_at_app in Hb as [Hb1 Hb]. change (zlen [x02]) with 1 in Hb.
  apply bytes_at_app in Hb as [Hb2 Hb3].
  assert (Hz : zlen (le_bytes 4 (zlen body)) = 4) by reflexivity.
  assert (Hv : le_Z (le_bytes 4 (zlen body)) = zlen body).
  { rewrite le_Z_le_bytes. apply Z.mod_small. unfold UINT32_MAX in Hsize.
    change (256 ^ Z.of_nat 4) with (2 ^ 32). lia. }
  assert (Hrs : lua_rawseti 2 idx
                  (mkState (VTable (length h) :: VTable (length h) :: st) (h ++ [OTable [] None]) c)
                = Ok (tt, mkState (VTable (length h) :: st)
                   (<[r2 := OTable (Tbl.update Y (VNum (Num.of_int idx)) (VTable (length h))) rmt2]>
                      (h ++ [OTable [] None])) c)).
  { apply (lua_rawseti_slot (VTable (length h)) (VTable (length h) :: st) _ c 2 idx r2 Y rmt2).
    - apply slot_cons; [lia|]. apply slot_cons; [lia | exact Hslot].
    - apply lookup_app_l_Some. exact Hr2. }
  unfold unpack_value, MAR_CHR. run1. run1. run_if. run_if. run_if. run_if.
  run1. run1. run_if. run_if.
  run1. rewrite Hv. run1. run1. run1.
  replace (p + 1 + 1 + 4) with (p + 6) by lia.
  reflexivity.
Qed.


Lemma unpack_tree_and_kids fuel :
  (forall s mem buf len p idx st c h Y,
      wf_shape s -> bytes_at mem p (enc_shape s) ->
      p - buf + zlen (enc_shape s) <= len ->
      h !! r2 = Some (OTable Y rmt2) -> slot st 2 (VTable r2) ->
      (weight s <= fuel)%nat ->
      exists idx' h' s' Y',
        unpack_value host_call host_load fuel mem buf len p idx (mkState st h c)
        = Ok ((p + zlen (enc_shape s), idx'), mkState (value_of s' :: st) h' c)
        /\ similar s s' /\ in_heap h' s'
        /\ (length h <= length h')%nat
        /\ (forall x, x ∈ addrs s' -> (length h <= x)%nat)
        /\ (forall x, (x < length h)%nat -> x <> r2 -> h' !! x = h !! x)
        /\ h' !! r2 = Some (OTable Y' rmt2)
        /\ NoDup (addrs s'))
  /\ (forall rest mem buf len p idx st c h Y t acc,
      Forall (fun ks => storable (fst ks) /\ key_ok (fst ks)) rest ->
      wf_kids rest ->
      distinct_keys (acc ++ entries_of rest) ->
      bytes_at mem p (enc_kids rest) ->
      p - buf + zlen (enc_kids rest) = len ->
      h !! t = Some (OTable acc None) -> t <> r2 ->
      h !! r2 = Some (OTable Y rmt2) ->
      slot (VTable t :: st) 2 (VTable r2) ->
      (weight_kids rest + 1 <= fuel)%nat ->
      exists h' rest' Y',
        mar_unpack_loop host_call host_load fuel mem buf len p idx
          (mkState (VTable t :: st) h c)
        = Ok (tt, mkState (VTable t :: st) h' c)
        /\ similar_kids rest rest' /\ kids_in_heap h' rest'
        /\ h' !! t = Some (OTable (acc ++ entries_of rest') None)
        /\ (length h <= length h')%nat
        /\ (forall x, x ∈ addrs_kids rest' -> (length h <= x)%nat)
        /\ (forall x, (x < length h)%nat -> x <> r2 -> x <> t -> h' !! x = h !! x)
        /\ h' !! r2 = Some (OTable Y' rmt2)
        /\ NoDup (addrs_kids rest')).
Proof.
  induction fuel as [fuel IH] using lt_wf_ind. split.
  - intros s mem buf len p idx st c h Y Hwf Hb Hlen Hr2 Hslot Hw.
    destruct s as [v|a kids].
    + cbn [weight enc_shape wf_shape] in *.
      destruct fuel as [|f]; [lia|].
      exists idx, h, (SLeaf v), Y. cbn [value_of].
      split; [apply unpack_scalar; assumption|].
      split; [reflexivity|]. split; [exact I|]. split; [lia|].
      split; [intros x Hx; apply elem_of_nil in Hx; contradiction|].
      split; [reflexivity|]. split; [exact Hr2 | apply NoDup_nil_2].
    + apply wf_shape_node in Hwf as (Hkeys & Hdist & Hsize & Hwk).
      rewrite weight_node in Hw. rewrite zlen_enc_node in *.
      cbn [enc_shape] in Hb. fold (enc_kids kids) in Hb.
      destruct fuel as [|f]; [lia|].
      pose proof (zlen_nonneg (enc_kids kids)) as H0.
      assert (Hr2lt : (r2 < length h)%nat) by (eapply lookup_lt_Some; exact Hr2).
      destruct (IH f ltac:(lia)) as [_ IHV].
      set (h2 := <[r2 := OTable (Tbl.update Y (VNum (Num.of_int idx)) (VTable (length h))) rmt2]>
                   (h ++ [OTable [] None])).
      assert (Hl2 : length h2 = S (length h)).
      { unfold h2. rewrite length_insert, length_app. cbn [length]. lia. }
      destruct (IHV kids mem (p + 6) (zlen (enc_kids kids)) (p + 6) (int_succ idx) st c h2
                  (Tbl.update Y (VNum (Num.of_int idx)) (VTable (length h))) (length h) [])
        as (h3 & kids' & Y3 & Hrun & Hsim & Hkh & Ht & Hlen3 & Hfresh & Hframe & Hr3 & Hnd3).
      { exact Hkeys. }
      { exact Hwk. }
      { exact Hdist. }
      { pose proof Hb as Hb'.
        change [x05; x02] with ([x05] ++ [x02]) in Hb'. rewrite <- app_assoc in Hb'.
        apply bytes_at_app in Hb' as [_ Hb']. change (zlen [x05]) with 1 in Hb'.
        apply bytes_at_app in Hb' as [_ Hb']. change (zlen [x02]) with 1 in Hb'.
        apply bytes_at_app in Hb' as [_ Hb'].
        change (zlen (le_bytes 4 (zlen (enc_kids kids)))) with 4 in Hb'.
        replace (p + 6) with (p + 1 + 1 + 4) by lia. exact Hb'. }
      { lia. }
      { unfold h2. rewrite list_lookup_insert_ne by lia. apply lookup_snoc. }
      { lia. }
      { unfold h2. apply list_lookup_insert_eq. rewrite length_app. cbn [length]. lia. }
      { apply slot_cons; [lia | exact Hslot]. }
      { lia. }
      exists (int_succ idx), h3, (SNode (length h) kids'), Y3. cbn [value_of].
      split; [|split; [|split; [|split; [|split; [|split; [|split]]]]]].
      * rewrite (unpack_plain_table f mem buf len p idx st c h Y (enc_kids kids) Hb Hsize
                   ltac:(lia) Hr2 Hslot).
        fold h2. run1. run1.
        replace (p + 6 + zlen (enc_kids kids)) with (p + (6 + zlen (enc_kids kids))) by lia.
        reflexivity.
      * apply similar_node. exact Hsim.
      * apply in_heap_node. split; [exact Ht | exact Hkh].
      * lia.
      * intros x Hx. cbn [addrs] in Hx. fold (addrs_kids kids') in Hx.
        apply elem_of_cons in Hx as [-> | Hx]; [lia|].
        apply Hfresh in Hx. lia.
      * intros x Hx Hne. rewrite Hframe by lia.
        unfold h2. rewrite list_lookup_insert_ne by congruence.
        apply lookup_app_l. exact Hx.
      * exact Hr3.
      * cbn [addrs]. fold (addrs_kids kids'). apply NoDup_cons_2; [|exact Hnd3].
        intros Hx. apply Hfresh in Hx. lia.
  - intros rest mem buf len p idx st c h Y t acc Hkeys Hwk Hdist Hb Hlen Ht Htr Hr2 Hslot Hw.
    destruct fuel as [|f]; [lia|].
    destruct rest as [|[k s] rest].
    + exists h, [], Y. change (zlen (enc_kids [])) with 0 in Hlen.
      split; [apply mar_unpack_loop_done; lia|].
      split; [constructor|]. split; [constructor|].
      split; [rewrite app_nil_r; exact Ht|]. split; [lia|].
      split; [intros x Hx; apply elem_of_nil in Hx; contradiction|].
      split; [reflexivity|]. split; [exact Hr2 | apply NoDup_nil_2].
    + rewrite weight_kids_cons in Hw. rewrite enc_kids_cons in *.
      apply Forall_cons in Hkeys as [[Hks Hkk] Hkeys]. apply Forall_cons in Hwk as [Hws Hwk].
      cbn [fst snd] in *.
      apply bytes_at_app in Hb as [Hb1 Hb]. apply bytes_at_app in Hb as [Hb2 Hb3].
      rewrite !zlen_app in Hlen.
      pose proof (zlen_enc_scalar_pos k Hks) as Hpos.
      pose proof (zlen_nonneg (enc_shape s)) as H1.
      pose proof (zlen_nonneg (enc_kids rest)) as H2.
      assert (Htlt : (t < length h)%nat) by (eapply lookup_lt_Some; exact Ht).
      assert (Hr2lt : (r2 < length h)%nat) by (eapply lookup_lt_Some; exact Hr2).
      destruct f as [|f0]; [lia|].
      destruct (IH (S f0) ltac:(lia)) as [IHU IHV].
      pose proof (unpack_scalar host_call host_load f0 mem buf len p idx
                    (VTable t :: st) h c k Hb1 Hks ltac:(lia)) as Hk1.
      destruct (IHU s mem buf len (p + zlen (enc_scalar k)) idx (k :: VTable t :: st) c h Y
                  Hws Hb2 ltac:(lia) Hr2)
        as (idx1 & h1 & s' & Y1 & Hrun1 & Hsim1 & Hin1 & Hlen1 & Hfresh1 & Hframe1 & Hr21 & Hnd1).
      { apply slot_cons; [lia | exact Hslot]. }
      { lia. }
      assert (Hset : Tbl.set acc k (value_of s') = acc ++ [(k, value_of s')]).
      { cbn [entries_of map fst snd] in Hdist.
        eapply set_fresh; [exact Hdist|]. eapply similar_value_not_nil; eassumption. }
      set (h2 := <[t := OTable (acc ++ [(k, value_of s')]) None]> h1).
      assert (Ht1 : h1 !! t = Some (OTable acc None)) by (rewrite Hframe1 by assumption; exact Ht).
      assert (Hl2 : length h2 = length h1) by (unfold h2; apply length_insert).
      destruct (IHV rest mem buf len (p + zlen (enc_scalar k) + zlen (enc_shape s)) idx1 st c h2
                  Y1 t (acc ++ [(k, value_of s')]))
        as (h3 & rest' & Y3 & Hrun3 & Hsim3 & Hkh3 & Ht3 & Hlen3 & Hfresh3 & Hframe3 & Hr3
            & Hnd3).
      { exact Hkeys. }
      { exact Hwk. }
      { eapply distinct_keys_by_keys; [|exact Hdist].
        rewrite <- app_assoc. rewrite !map_app. reflexivity. }
      { exact Hb3. }
      { lia. }
      { unfold h2. apply list_lookup_insert_eq. lia. }
      { exact Htr. }
      { unfold h2. rewrite list_lookup_insert_ne by congruence. exact Hr21. }
      { exact Hslot. }
      { lia. }
      exists h3, ((k, s') :: rest'), Y3.
      split; [|split; [|split; [|split; [|split; [|split; [|split; [|split]]]]]]].
      * rewrite mar_unpack_loop_S.
        replace (p - buf <? len) with true by (symmetry; apply Z.ltb_lt; lia).
        run1. run1.
        rewrite (bind_ok _ _ _ _ _ (lua_settable_m3 _ _ _ _ _ _ _ Ht1 Hkk)).
        rewrite Hset. fold h2. exact Hrun3.
      * constructor; [split; [reflexivity | exact Hsim1] | exact Hsim3].
      * constructor; [|exact Hkh3]. cbn [snd].
        eapply in_heap_frame; [|exact Hin1].
        intros x Hx. pose proof (Hfresh1 x Hx). pose proof (in_heap_lt _ _ _ Hin1 Hx).
        rewrite Hframe3 by lia. unfold h2. apply list_lookup_insert_ne. lia.
      * rewrite Ht3, <- app_assoc. reflexivity.
      * lia.
      * intros x Hx. rewrite addrs_kids_cons in Hx. apply elem_of_app in Hx as [Hx | Hx].
        -- apply Hfresh1. exact Hx.
        -- apply Hfresh3 in Hx. lia.
      * intros x Hx Hn1 Hn2. rewrite Hframe3 by lia.
        unfold h2. rewrite list_lookup_insert_ne by congruence. apply Hframe1; assumption.
      * exact Hr3.
      * rewrite addrs_kids_cons. apply NoDup_app. split; [exact Hnd1|]. split; [|exact Hnd3].
        intros x Hx1 Hx3. pose proof (in_heap_lt _ _ _ Hin1 Hx1). apply Hfresh3 in Hx3. lia.
Qed.

End UnpackTree.

Lemma insert_snoc {A} (l : list A) (x y : A) : <[length l := y]> (l ++ [x]) = l ++ [y].
Proof.
  replace (length l) with (length l + 0)%nat at 1 by lia.
  rewrite insert_app_r. reflexivity.
Qed.

Section Tree.

Variable host_call : value -> list value -> list object -> outcome (value * list object).
Variable host_load : list byte -> (fwhat * nat) + list byte.

Lemma marshal_tree_state kids f a mt h c :
  h !! a = Some (OTable (entries_of kids) mt) ->
  Forall (fun ks => storable (fst ks) /\ key_ok (fst ks)) kids ->
  distinct_keys (entries_of kids) -> wf_kids kids ->
  kids_in_heap h kids -> NoDup (addrs_kids kids) ->
  (weight_kids kids + 3 <= f)%nat ->
  exists X,
    tbl_marshal host_call f (mkState [VTable a] h c)
    = Ok (1, mkState [VStr (x8e :: x01 :: enc_kids kids); VTable a; VTable (length h); VTable a]
                     (h ++ [OTable X None]) c).
Proof.
  intros Ha Hkeys Hdist Hwk Hkh Hnd Hf.
  destruct f as [|[|f]]; [lia | lia |].
  destruct (tbl_marshal_start host_call f a h c) as (b0 & Hb0 & Hstart).
  assert (Hlt : (length h < length (h ++ [OTable [] None]))%nat)
    by (rewrite length_app; cbn [length]; lia).
  assert (Halt : (a < length h)%nat) by (eapply lookup_lt_Some; exact Ha).
  destruct (pack_tree_and_kids host_call (h ++ [OTable [] None]) (length h) None Hlt (S f))
    as [_ HQ].
  destruct (HQ kids [] VNil b0 1 [VTable (length h); VTable a] c [] a mt)
    as (b1 & X & Hrun & Hd & _).
  { apply lookup_app_l_Some. exact Ha. }
  { lia. }
  { apply table_ok_entries; assumption. }
  { eapply Forall_impl; [exact Hkeys|]. intros ks [H _]. exact H. }
  { exact Hwk. }
  { eapply kids_in_heap_frame; [|exact Hkh].
    intros x Hx. apply lookup_app_l. eapply kids_in_heap_lt; eassumption. }
  { exact Hnd. }
  { intros Hx. apply (kids_in_heap_lt _ _ _ Hkh) in Hx. lia. }
  { reflexivity. }
  { reflexivity. }
  { reflexivity. }
  { lia. }
  exists X. rewrite Hstart. rewrite !insert_snoc in Hrun.
  run1. run1. rewrite Hd, Hb0. reflexivity.
Qed.

Lemma unmarshal_tree_state kids f behind st h c r2 Y rmt2 :
  Forall (fun ks => storable (fst ks) /\ key_ok (fst ks)) kids ->
  distinct_keys (entries_of kids) -> wf_kids kids ->
  let s := x8e :: x01 :: enc_kids kids in
  (h ++ [OTable [] None; OTable [] None]) !! r2 = Some (OTable Y rmt2) ->
  r2 <> S (length h) ->
  slot (VTable (S (length h)) :: VTable (length h) :: VStr s :: st) 2 (VTable r2) ->
  (weight_kids kids + 1 <= f)%nat ->
  exists h' kids',
    tbl_unmarshal host_call host_load f behind (mkState (VStr s :: st) h c)
    = Ok (1, mkState (VTable (S (length h)) :: VTable (length h) :: VStr s :: st) h' c)
    /\ similar_kids kids kids'
    /\ in_heap h' (SNode (S (length h)) kids')
    /\ (forall x, x ∈ addrs_kids kids' -> (length h + 2 <= x)%nat)
    /\ (forall x, (x < length h)%nat -> x <> r2 -> h' !! x = h !! x)
    /\ NoDup (addrs (SNode (S (length h)) kids')).
Proof.
  intros Hkeys Hdist Hwk s Hr2 Hne Hslot Hf.
  pose proof (zlen_nonneg (enc_kids kids)) as H0.
  assert (Hl : zlen s - 2 = zlen (enc_kids kids))
    by (unfold s, zlen; cbn [length]; lia).
  assert (Hb : bytes_at (s ++ behind) 2 (enc_kids kids)).
  { change (s ++ behind) with ([x8e; x01] ++ enc_kids kids ++ behind).
    apply (bytes_at_middle [x8e; x01]). }
  set (h2 := h ++ [OTable [] None; OTable [] None]) in *.
  assert (Hl2 : length h2 = (length h + 2)%nat) by (unfold h2; rewrite length_app; reflexivity).
  destruct (unpack_tree_and_kids host_call host_load r2 rmt2 f) as [_ HV].
  destruct (HV kids (s ++ behind) 2 (zlen (enc_kids kids)) 2 1
              (VTable (length h) :: VStr s :: st) c h2 Y (S (length h)) [])
    as (h' & kids' & Y' & Hrun & Hsim & Hkh & Ht & Hlen & Hfresh & Hframe & _ & Hnd).
  { exact Hkeys. }
  { exact Hwk. }
  { exact Hdist. }
  { exact Hb. }
  { lia. }
  { unfold h2. replace (S (length h)) with (length h + 1)%nat by lia.
    rewrite lookup_app_r by lia. replace (length h + 1 - length h)%nat with 1%nat by lia.
    reflexivity. }
  { congruence. }
  { exact Hr2. }
  { exact Hslot. }
  { exact Hf. }
  exists h', kids'. split; [|split; [|split; [|split; [|split]]]].
  - rewrite tbl_unmarshal_start. cbv zeta.
    replace (zlen s <? 2) with false by (symmetry; apply Z.ltb_ge; lia).
    change (le_Z (take 1 s) =? MAR_MAGIC) with true.
    change (le_Z (take 1 (le_bytes 4 1)) =? le_Z (take 1 (drop 1 s))) with true.
    cbn [negb]. run1. run1. unfold mar_unpack. rewrite bind_assoc.
    rewrite Hl.
    replace ((h ++ [OTable [] None]) ++ [OTable [] None]) with h2
      by (unfold h2; rewrite <- app_assoc; reflexivity).
    rewrite length_app. cbn [length]. replace (length h + 1)%nat with (S (length h)) by lia.
    run1. reflexivity.
  - exact Hsim.
  - apply in_heap_node. split; [exact Ht | exact Hkh].
  - intros x Hx. apply Hfresh in Hx. lia.
  - intros x Hx Hn. rewrite Hframe by lia. unfold h2. apply lookup_app_l. exact Hx.
  - cbn [addrs]. fold (addrs_kids kids'). apply NoDup_cons_2; [|exact Hnd].
    intros Hx. apply Hfresh in Hx. lia.
Qed.


(** A table whose keys are booleans, numbers and strings and whose values
    are such scalars or, without sharing, tables of the same kind that
    have no metatable, nested at most five deep, which the stack slots
    every C function is given suffice for: [tbl_marshal] returns the
    header followed by the records of the pairs, a nested table as its
    length and its own records, and changes nothing in the heap but its
    own reference table; [tbl_unmarshal] of that string, on any heap,
    returns a new table that holds the same keys and scalars, with a new
    table for every nested one, no two of them the same, and leaves every
    older object as it was.  Nothing is said of the order in which the new
    tables are traversed. *)
Theorem tree_stream_round_trip fuel kids a mt h h0 behind :
  h !! a = Some (OTable (entries_of kids) mt) ->
  Forall (fun ks => storable (fst ks) /\ key_ok (fst ks)) kids ->
  distinct_keys (entries_of kids) -> wf_kids kids ->
  kids_in_heap h kids -> NoDup (addrs_kids kids) ->
  (depth_kids kids <= 5)%nat ->
  (weight_kids kids + 3 <= fuel)%nat ->
  let s := x8e :: x01 :: enc_kids kids in
  (exists X,
      call_c (tbl_marshal host_call fuel) [VTable a] h
      = Ok (VStr s, mkState [VStr s; VTable a; VTable (length h); VTable a]
                            (h ++ [OTable X None]) []))
  /\ (exists L kids',
        call_c (tbl_unmarshal host_call host_load fuel behind) [VStr s] h0
        = Ok (VTable (S (length h0)), L)
        /\ similar_kids kids kids'
        /\ held (heap L) (SNode (S (length h0)) kids')
        /\ NoDup (addrs (SNode (S (length h0)) kids'))
        /\ (forall x, x ∈ addrs_kids kids' -> (length h0 + 2 <= x)%nat)
        /\ (forall x, (x < length h0)%nat -> heap L !! x = h0 !! x)).
Proof.
  intros Ha Hkeys Hdist Hwk Hkh Hnd _ Hf s. split.
  - destruct (marshal_tree_state kids fuel a mt h [] Ha Hkeys Hdist Hwk Hkh Hnd Hf) as (X & Hm).
    exists X. unfold call_c. cbn [rev app].
    rewrite (bind_ok _ _ _ _ _ Hm). reflexivity.
  - destruct (unmarshal_tree_state kids fuel behind [] h0 [] (length h0) [] None
                Hkeys Hdist Hwk)
      as (h' & kids' & Hu & Hsim & Hin & Hfresh & Hframe & Hnew).
    { rewrite lookup_app_r by lia. rewrite Nat.sub_diag. reflexivity. }
    { lia. }
    { reflexivity. }
    { lia. }
    exists (mkState [VTable (S (length h0)); VTable (length h0); VStr s] h' []), kids'.
    split; [|split; [exact Hsim | split; [apply in_heap_held; exact Hin |
                                         split; [exact Hnew | split; [exact Hfresh|]]]]].
    + unfold call_c. cbn [rev app]. rewrite (bind_ok _ _ _ _ _ Hu). reflexivity.
    + intros x Hx. cbn [heap]. apply Hframe; lia.
Qed.

(** [tbl_clone] of such a table returns a new table that holds the same
    keys and scalars, with a new table for every nested one, no two of
    them the same; no object that existed before the call is changed. *)
Theorem clone_tree fuel kids a mt h behind :
  h !! a = Some (OTable (entries_of kids) mt) ->
  Forall (fun ks => storable (fst ks) /\ key_ok (fst ks)) kids ->
  distinct_keys (entries_of kids) -> wf_kids kids ->
  kids_in_heap h kids -> NoDup (addrs_kids kids) ->
  (depth_kids kids <= 5)%nat ->
  (weight_kids kids + 3 <= fuel)%nat ->
  exists L kids',
    call_c (tbl_clone host_call host_load fuel behind) [VTable a] h
    = Ok (VTable (S (S (length h))), L)
    /\ similar_kids kids kids'
    /\ held (heap L) (SNode (S (S (length h))) kids')
    /\ NoDup (addrs (SNode (S (S (length h))) kids'))
    /\ (forall x, x ∈ addrs_kids kids' -> (length h + 3 <= x)%nat)
    /\ (forall x, (x < length h)%nat -> heap L !! x = h !! x).
Proof.
  intros Ha Hkeys Hdist Hwk Hkh Hnd _ Hf.
  destruct (marshal_tree_state kids fuel a mt h [] Ha Hkeys Hdist Hwk Hkh Hnd Hf) as (X & Hm).
  assert (Hl1 : length (h ++ [OTable X None]) = S (length h))
    by (rewrite length_app; cbn [length]; lia).
  destruct (unmarshal_tree_state kids fuel behind [VTable a; VTable (length h); VTable a]
              (h ++ [OTable X None]) [] (length h) X None Hkeys Hdist Hwk)
    as (h' & kids' & Hu & Hsim & Hin & Hfresh & Hframe & Hnew).
  { apply lookup_app_l_Some. apply lookup_snoc. }
  { lia. }
  { reflexivity. }
  { lia. }
  rewrite Hl1 in *.
  eexists (mkState _ h' []), kids'.
  split; [|split; [exact Hsim | split; [apply in_heap_held; exact Hin |
                                       split; [exact Hnew | split]]]].
  - unfold call_c, tbl_clone. cbn [rev app]. rewrite bind_assoc.
    rewrite (bind_ok _ _ _ _ _ Hm). rewrite bind_assoc.
    rewrite (bind_ok _ _ _ _ _ Hu). reflexivity.
  - intros x Hx. apply Hfresh in Hx. lia.
  - intros x Hx. cbn [heap]. rewrite Hframe by lia. apply lookup_app_l. exact Hx.
Qed.

End Tree.

(** ** Functions and their upvalues *)

Lemma of_int_parts i :
  0 < i < 2 ^ 53 ->
  exists e m,
    0 <= e < 53 /\ 0 <= m < 2 ^ 52
    /\ Num.of_int i = (e + 1023) * 2 ^ 52 + m
    /\ i * 2 ^ (52 - e) = 2 ^ 52 + m.
Proof.
  intros Hi. unfold Num.of_int.
  replace (i =? 0) with false by (symmetry; apply Z.eqb_neq; lia).
  replace (i <? 0) with false by (symmetry; apply Z.ltb_ge; lia).
  rewrite Z.abs_eq by lia.
  set (e := Z.log2 i).
  assert (He : 0 <= e < 53).
  { subst e. split; [apply Z.log2_nonneg|]. apply Z.log2_lt_pow2; lia. }
  destruct (Z.log2_spec i ltac:(lia)) as [Hlo Hhi]. fold e in Hlo, Hhi.
  replace (Z.succ e) with (e + 1) in Hhi by lia.
  rewrite Z.pow_add_r in Hhi by lia. change (2 ^ 1) with 2 in Hhi.
  assert (Hp : 2 ^ e * 2 ^ (52 - e) = 2 ^ 52)
    by (rewrite <- Z.pow_add_r by lia; f_equal; lia).
  assert (Hq : 0 < 2 ^ (52 - e)) by (apply Z.pow_pos_nonneg; lia).
  exists e, ((i - 2 ^ e) * 2 ^ (52 - e)).
  split; [exact He|]. split; [|split].
  - split; [apply Z.mul_nonneg_nonneg; lia|].
    rewrite <- Hp. apply Z.mul_lt_mono_pos_r; lia.
  - lia.
  - rewrite Z.mul_sub_distr_r, Hp. lia.
Qed.

Lemma of_int_range i : 0 < i < 2 ^ 53 -> 2 ^ 52 <= Num.of_int i < 2 ^ 63.
Proof.
  intros Hi. destruct (of_int_parts i Hi) as (e & m & He & Hm & -> & _).
  split; nia.
Qed.

Lemma of_int_inj i j :
  0 < i < 2 ^ 53 -> 0 < j < 2 ^ 53 -> Num.of_int i = Num.of_int j -> i = j.
Proof.
  intros Hi Hj H.
  destruct (of_int_parts i Hi) as (e & m & He & Hm & Hi1 & Hi2).
  destruct (of_int_parts j Hj) as (e' & m' & He' & Hm' & Hj1 & Hj2).
  rewrite Hi1, Hj1 in H.
  assert (Hee : e = e').
  { assert (H1 : ((e + 1023) * 2 ^ 52 + m) / 2 ^ 52 = e + 1023)
      by (rewrite Z.div_add_l by lia; rewrite (Z.div_small m) by lia; lia).
    assert (H2 : ((e' + 1023) * 2 ^ 52 + m') / 2 ^ 52 = e' + 1023)
      by (rewrite Z.div_add_l by lia; rewrite (Z.div_small m') by lia; lia).
    rewrite H in H1. lia. }
  subst e'. assert (m = m') by lia. subst m'.
  assert (Hq : 0 < 2 ^ (52 - e)) by (apply Z.pow_pos_nonneg; lia).
  apply (Z.mul_reg_r _ _ (2 ^ (52 - e))); lia.
Qed.

Lemma of_int_not_zero i : 0 < i < 2 ^ 53 -> Num.is_zero (Num.of_int i) = false.
Proof.
  intros Hi. destruct (of_int_parts i Hi) as (e & m & He & Hm & -> & _).
  unfold Num.is_zero, Num.expo. apply andb_false_intro1. apply Z.eqb_neq.
  rewrite Z.add_comm, Z.div_add by lia. rewrite (Z.div_small m) by lia.
  rewrite Z.mod_small by lia. lia.
Qed.

Lemma num_key_distinct i j :
  0 < i < 2 ^ 53 -> 0 < j < 2 ^ 53 -> i <> j -> Tbl.key_eqb (num i) (num j) = false.
Proof.
  intros Hi Hj Hne. unfold num, Tbl.key_eqb, Num.eqb.
  rewrite (of_int_not_nan i), (of_int_not_nan j) by lia. cbn [orb].
  rewrite (of_int_not_zero i Hi). cbn [andb]. rewrite orb_false_r.
  apply Z.eqb_neq. pose proof (of_int_range i Hi). pose proof (of_int_range j Hj).
  rewrite !Z.mod_small by lia. intros He. apply Hne. apply of_int_inj; assumption.
Qed.

Lemma indexed_app a : forall i b,
  indexed i (a ++ b) = indexed i a ++ indexed (i + zlen a) b.
Proof.
  induction a as [|u a IH]; intros i b; cbn [app indexed].
  - change (zlen []) with 0. rewrite Z.add_0_r. reflexivity.
  - rewrite IH. do 3 f_equal. unfold zlen. cbn [length]. lia.
Qed.

Lemma length_indexed ups : forall i, length (indexed i ups) = length ups.
Proof. induction ups as [|u ups IH]; intros i; cbn; [reflexivity | f_equal; apply IH]. Qed.

Lemma indexed_fresh ups : forall i j,
  0 < i -> i + zlen ups <= j -> j < 2 ^ 53 ->
  Forall (fun kv => Tbl.key_eqb (fst kv) (num j) = false) (indexed i ups).
Proof.
  induction ups as [|u ups IH]; intros i j Hi Hj Hlt; cbn [indexed]; constructor.
  - cbn [fst]. unfold zlen in Hj. cbn [length] in Hj. apply num_key_distinct; lia.
  - apply IH; [lia| |lia]. unfold zlen in *. cbn [length] in Hj. lia.
Qed.

Lemma indexed_fresh_l ups : forall i j,
  0 < j -> j < i -> i + zlen ups <= 2 ^ 53 ->
  Forall (fun kv => Tbl.key_eqb (num j) (fst kv) = false) (indexed i ups).
Proof.
  induction ups as [|u ups IH]; intros i j Hj Hi Hlt; cbn [indexed]; constructor.
  - cbn [fst]. unfold zlen in Hlt. cbn [length] in Hlt. apply num_key_distinct; lia.
  - apply IH; [lia|lia|]. unfold zlen in *. cbn [length] in Hlt. lia.
Qed.

Lemma indexed_distinct ups : forall i,
  0 < i -> i + zlen ups <= 2 ^ 53 -> distinct_keys (indexed i ups).
Proof.
  induction ups as [|u ups IH]; intros i Hi Hlt; cbn [indexed distinct_keys]; [exact I|].
  unfold zlen in Hlt. cbn [length] in Hlt. split.
  - apply indexed_fresh_l; unfold zlen; lia.
  - apply IH; unfold zlen; lia.
Qed.

Lemma storable_not_nil v : storable v -> v <> VNil.
Proof. destruct v; cbn; congruence || contradiction. Qed.

Lemma storable_num i : 0 < i < 2 ^ 53 -> storable (num i).
Proof. intros Hi. pose proof (of_int_range i Hi). cbn. lia. Qed.

Lemma indexed_table_ok ups i :
  0 < i -> i + zlen ups <= 2 ^ 53 -> Forall storable ups ->
  table_ok (indexed i ups) /\ scalars (indexed i ups)
  /\ Forall (fun kv => key_ok (fst kv)) (indexed i ups).
Proof.
  intros Hi Hlt Hs.
  assert (H : Forall (fun kv => (key_ok (fst kv) /\ snd kv <> VNil)
                                /\ (storable (fst kv) /\ storable (snd kv))) (indexed i ups)).
  { revert i Hi Hlt. induction Hs as [|u ups Hu Hs IH]; intros i Hi Hlt; cbn [indexed];
      constructor.
    - unfold zlen in Hlt. cbn [length] in Hlt. cbn [fst snd].
      split; split.
      + cbn. apply of_int_not_nan. lia.
      + apply storable_not_nil. exact Hu.
      + apply storable_num. lia.
      + exact Hu.
    - apply IH; [lia|]. unfold zlen in *. cbn [length] in Hlt. lia. }
  split; [split|split].
  - eapply Forall_impl; [exact H|]. intros kv [H1 _]. exact H1.
  - apply indexed_distinct; assumption.
  - eapply Forall_impl; [exact H|]. intros kv [_ H1]. exact H1.
  - eapply Forall_impl; [exact H|]. intros kv [[H1 _] _]. exact H1.
Qed.

Lemma get_indexed ups : forall i j u,
  0 < i -> i + zlen ups <= 2 ^ 53 -> i <= j ->
  ups !! Z.to_nat (j - i) = Some u ->
  Tbl.get (indexed i ups) (num j) = u.
Proof.
  induction ups as [|u0 ups IH]; intros i j u Hi Hlt Hj Hu; [discriminate|].
  cbn [indexed Tbl.get]. unfold zlen in Hlt. cbn [length] in Hlt.
  destruct (Z.eq_dec i j) as [<- | Hne].
  - rewrite num_key_refl by lia. rewrite Z.sub_diag in Hu.
    change (Some u0 = Some u) in Hu. congruence.
  - assert (Hl : (Z.to_nat (j - i) < S (length ups))%nat)
      by (apply lookup_lt_Some in Hu; cbn [length] in Hu; exact Hu).
    rewrite num_key_distinct by lia.
    apply IH; [lia | unfold zlen; lia | lia |].
    replace (Z.to_nat (j - i)) with (S (Z.to_nat (j - (i + 1)))) in Hu by lia.
    exact Hu.
Qed.

Lemma border_indexed ups : Forall storable ups -> zlen ups < 2 ^ 53 ->
  forall f k, (k + f = length ups)%nat ->
  Tbl.border f (indexed 1 ups) (Z.of_nat k) = zlen ups.
Proof.
  intros Hs Hlt f. induction f as [|f IH]; intros k Hk; cbn [Tbl.border].
  - unfold zlen. f_equal. lia.
  - destruct (lookup_lt_is_Some_2 ups k ltac:(lia)) as [u Hu].
    fold (num (Z.of_nat k + 1)).
    rewrite (get_indexed ups 1 (Z.of_nat k + 1) u); try lia.
    + assert (Hn : u <> VNil).
      { apply storable_not_nil. eapply Forall_lookup_1; eassumption. }
      replace (Z.of_nat k + 1) with (Z.of_nat (S k)) by lia.
      destruct u; try congruence; apply IH; lia.
    + replace (Z.to_nat (Z.of_nat k + 1 - 1)) with k by lia. exact Hu.
Qed.

Lemma closure_at_m2 fa x s h c w code ups :
  h !! fa = Some (OFun w code ups) ->
  closure_at (-2) (mkState (x :: VFun fa :: s) h c)
  = Ok (Some (fa, w, code, ups), mkState (x :: VFun fa :: s) h c).
Proof.
  intros H. unfold closure_at. run1. unfold bind, get_heap. cbn [heap]. rewrite H. reflexivity.
Qed.

Lemma closure_at_m3 fa x y s h c w code ups :
  h !! fa = Some (OFun w code ups) ->
  closure_at (-3) (mkState (x :: y :: VFun fa :: s) h c)
  = Ok (Some (fa, w, code, ups), mkState (x :: y :: VFun fa :: s) h c).
Proof.
  intros H. unfold closure_at. run1. unfold bind, get_heap. cbn [heap]. rewrite H. reflexivity.
Qed.

Lemma getupvalues_loop rest : forall done t fa s h c w code,
  h !! fa = Some (OFun w code (done ++ rest)) ->
  h !! t = Some (OTable (indexed 1 done) None) ->
  Forall storable rest -> zlen (done ++ rest) < 2 ^ 53 ->
  getupvalues (length rest) (1 + zlen done) (mkState (VTable t :: VFun fa :: s) h c)
  = Ok (tt, mkState (VTable t :: VFun fa :: s)
                    (<[t := OTable (indexed 1 (done ++ rest)) None]> h) c).
Proof.
  induction rest as [|u rest IH]; intros done t fa s h c w code Hf Ht Hs Hlt.
  - cbn [length getupvalues]. rewrite app_nil_r.
    rewrite list_insert_id by exact Ht. reflexivity.
  - apply Forall_cons in Hs as [Hu Hs].
    assert (Hne : t <> fa) by (intros ->; congruence).
    pose proof (zlen_nonneg done) as H0. pose proof (zlen_nonneg rest) as H1.
    rewrite zlen_app in Hlt.
    replace (zlen (u :: rest)) with (1 + zlen rest) in Hlt by (unfold zlen; cbn [length]; lia).
    assert (Hget : lua_getupvalue (-2) (1 + zlen done) (mkState (VTable t :: VFun fa :: s) h c)
                   = Ok (true, mkState (u :: VTable t :: VFun fa :: s) h c)).
    { unfold lua_getupvalue.
      rewrite (bind_ok _ _ _ _ _ (closure_at_m2 _ _ _ _ _ _ _ _ Hf)).
      replace ((1 <=? 1 + zlen done) && (1 + zlen done <=? zlen (done ++ u :: rest))) with true.
      - replace (Z.to_nat (1 + zlen done - 1)) with (length done) by (unfold zlen; lia).
        rewrite list_lookup_middle by reflexivity. reflexivity.
      - symmetry. apply andb_true_intro. split; [apply Z.leb_le; lia|].
        apply Z.leb_le. rewrite zlen_app.
        replace (zlen (u :: rest)) with (1 + zlen rest) by (unfold zlen; cbn [length]; lia).
        lia. }
    assert (Hset : Tbl.set (indexed 1 done) (VNum (Num.of_int (1 + zlen done))) u
                   = indexed 1 (done ++ [u])).
    { rewrite indexed_app. cbn [indexed].
      assert (Hn : u <> VNil) by (apply storable_not_nil; exact Hu).
      unfold Tbl.set. fold (num (1 + zlen done)).
      destruct u; try congruence; apply update_fresh; apply indexed_fresh; lia. }
    cbn [length getupvalues]. run1.
    rewrite (bind_ok _ _ _ _ _ (lua_rawseti_m2 _ _ _ _ _ _ _ _ Ht)).
    rewrite Hset.
    replace (1 + zlen done + 1) with (1 + zlen (done ++ [u]))
      by (rewrite zlen_app; change (zlen [u]) with 1; lia).
    rewrite (IH (done ++ [u]) t fa s _ c w code).
    + rewrite list_insert_insert_eq, <- app_assoc. reflexivity.
    + rewrite list_lookup_insert_ne by exact Hne. rewrite <- app_assoc. exact Hf.
    + apply list_lookup_insert_eq. eapply lookup_lt_Some. exact Ht.
    + exact Hs.
    + rewrite <- app_assoc. cbn [app]. rewrite zlen_app.
      replace (zlen (u :: rest)) with (1 + zlen rest) by (unfold zlen; cbn [length]; lia).
      lia.
Qed.

Lemma zlen_cons {A} (x : A) l : zlen (x :: l) = 1 + zlen l.
Proof. unfold zlen. cbn [length]. lia. Qed.

Lemma setupvalues_loop rest : forall done junk t fa s h c w code mt,
  h !! fa = Some (OFun w code (done ++ junk)) -> length junk = length rest ->
  h !! t = Some (OTable (indexed 1 (done ++ rest)) mt) ->
  zlen (done ++ rest) < 2 ^ 53 ->
  setupvalues (length rest) (1 + zlen done) (mkState (VTable t :: VFun fa :: s) h c)
  = Ok (tt, mkState (VTable t :: VFun fa :: s)
                    (<[fa := OFun w code (done ++ rest)]> h) c).
Proof.
  induction rest as [|u rest IH]; intros done junk t fa s h c w code mt Hf Hj Ht Hlt.
  - destruct junk; [|discriminate]. cbn [length setupvalues].
    rewrite list_insert_id by exact Hf. reflexivity.
  - destruct junk as [|j0 junk]; [discriminate|]. cbn [length] in Hj.
    assert (Hne : t <> fa) by (intros ->; congruence).
    pose proof (zlen_nonneg done) as H0. pose proof (zlen_nonneg rest) as H1.
    pose proof Hlt as Hlt'. rewrite zlen_app, zlen_cons in Hlt'.
    assert (Hg : Tbl.get (indexed 1 (done ++ u :: rest)) (VNum (Num.of_int (1 + zlen done))) = u).
    { apply get_indexed; try lia.
      replace (Z.to_nat (1 + zlen done - 1)) with (length done) by (unfold zlen; lia).
      apply list_lookup_middle. reflexivity. }
    assert (Hset : lua_setupvalue (-3) (1 + zlen done)
                     (mkState (u :: VTable t :: VFun fa :: s) h c)
                   = Ok (true, mkState (VTable t :: VFun fa :: s)
                           (<[fa := OFun w code ((done ++ [u]) ++ junk)]> h) c)).
    { unfold lua_setupvalue.
      rewrite (bind_ok _ _ _ _ _ (closure_at_m3 _ _ _ _ _ _ _ _ _ Hf)).
      replace ((1 <=? 1 + zlen done) && (1 + zlen done <=? zlen (done ++ j0 :: junk)))
        with true.
      - run1. unfold bind, get_heap, put_heap, lua_pop, get_stack, put_stack, ret.
        cbn [stack heap calls]. cbn.
        replace (Z.to_nat (1 + zlen done - 1)) with (length done + 0)%nat by (unfold zlen; lia).
        rewrite insert_app_r. cbn. rewrite <- app_assoc. reflexivity.
      - symmetry. apply andb_true_intro. split; [apply Z.leb_le; lia|].
        apply Z.leb_le. rewrite zlen_app, zlen_cons. pose proof (zlen_nonneg junk). lia. }
    cbn [length setupvalues].
    rewrite (bind_ok _ _ _ _ _ (lua_rawgeti_m1 _ _ _ _ _ _ _ Ht)). rewrite Hg.
    run1.
    replace (1 + zlen done + 1) with (1 + zlen (done ++ [u]))
      by (rewrite zlen_app; change (zlen [u]) with 1; lia).
    rewrite (IH (done ++ [u]) junk t fa s _ c w code mt).
    + rewrite list_insert_insert_eq, <- app_assoc. reflexivity.
    + apply list_lookup_insert_eq. eapply lookup_lt_Some. exact Hf.
    + lia.
    + rewrite list_lookup_insert_ne by congruence. rewrite <- app_assoc. exact Ht.
    + rewrite <- app_assoc. exact Hlt.
Qed.

Section Functions.

Variable host_call : value -> list value -> list object -> outcome (value * list object).
Variable host_load : list byte -> (fwhat * nat) + list byte.

Lemma lua_dump_bytes_lua fa s h c code ups :
  h !! fa = Some (OFun WhatLua code ups) ->
  lua_dump_bytes (mkState (VFun fa :: s) h c) = Ok (code, mkState (VFun fa :: s) h c).
Proof.
  intros H. unfold lua_dump_bytes.
  rewrite (bind_ok _ _ _ _ _ (closure_at_m1 _ _ _ _ _ _ _ H)). reflexivity.
Qed.

Lemma pack_function fuel buf idx fa s h c r es mt code ups :
  slot (VFun fa :: s) 2 (VTable r) ->
  h !! r = Some (OTable es mt) ->
  Tbl.get es (VFun fa) = VNil ->
  h !! fa = Some (OFun WhatLua code ups) ->
  Forall storable ups -> zlen ups < 2 ^ 53 ->
  zlen code <= UINT32_MAX ->
  zlen (enc_pairs (indexed 1 ups)) <= UINT32_MAX ->
  (length ups + 3 <= fuel)%nat ->
  exists buf',
    pack_value host_call fuel buf (-1) idx (mkState (VFun fa :: s) h c)
    = Ok ((buf', int_succ idx),
          mkState (VFun fa :: s)
                  (<[r := OTable (Tbl.set es (VFun fa) (num idx)) mt]> h
                   ++ [OTable (indexed 1 ups) None]) c)
    /\ data buf' = data buf ++ enc_fun code ups.
Proof.
  intros Hs Hr Hg Hf Hst Hn Hcode Hbody Hfuel.
  destruct fuel as [|[|fuel]]; [lia | lia |].
  assert (Hne : fa <> r) by (intros ->; congruence).
  assert (Hrlt : (r < length h)%nat) by (eapply lookup_lt_Some; exact Hr).
  assert (Hflt : (fa < length h)%nat) by (eapply lookup_lt_Some; exact Hf).
  assert (Hs2 : slot (VFun fa :: VFun fa :: s) 2 (VTable r)).
  { apply slot_cons; [lia | exact Hs]. }
  assert (Hs3 : slot (num idx :: VFun fa :: VFun fa :: s) 2 (VTable r)).
  { apply slot_cons; [lia | exact Hs2]. }
  pose proof (lua_rawget_slot (VFun fa) (VFun fa :: s) h c 2 r es mt Hs2 Hr) as Hrg.
  rewrite Hg in Hrg.
  assert (Hck : check_key (VFun fa) (mkState (num idx :: VFun fa :: VFun fa :: s) h c)
               = Ok (tt, mkState (num idx :: VFun fa :: VFun fa :: s) h c)) by reflexivity.
  pose proof (lua_rawset_slot (num idx) (VFun fa) (VFun fa :: s) h c 2 r es mt Hs3 Hr Hck) as Hrs.
  set (h1 := <[r := OTable (Tbl.set es (VFun fa) (num idx)) mt]> h) in *.
  assert (Hl1 : length h1 = length h) by (unfold h1; apply length_insert).
  assert (Hf1 : h1 !! fa = Some (OFun WhatLua code ups)).
  { unfold h1. rewrite list_lookup_insert_ne by congruence. exact Hf. }
  pose proof (lua_dump_bytes_lua fa (VFun fa :: s) h1 c _ _ Hf1) as Hdump.
  pose proof (lua_getinfo_uS_m1 fa (VFun fa :: s) h1 c _ _ _ Hf1) as Hinfo.
  assert (Ht : lua_type (-1) (mkState (VFun fa :: s) h c)
               = Ok (LUA_TFUNCTION, mkState (VFun fa :: s) h c)) by reflexivity.
  set (h2 := h1 ++ [OTable [] None]).
  assert (Hup : getupvalues (length ups) 1 (mkState (VTable (length h1) :: VFun fa :: s) h2 c)
                = Ok (tt, mkState (VTable (length h1) :: VFun fa :: s)
                            (h1 ++ [OTable (indexed 1 ups) None]) c)).
  { assert (Hf2 : h2 !! fa = Some (OFun WhatLua code ([] ++ ups)))
      by (unfold h2; apply lookup_app_l_Some; exact Hf1).
    assert (Ht2 : h2 !! length h1 = Some (OTable (indexed 1 []) None))
      by (unfold h2; apply lookup_snoc).
    pose proof (getupvalues_loop ups [] (length h1) fa s h2 c WhatLua code Hf2 Ht2 Hst Hn) as H.
    cbn [app] in H. unfold h2 in H. rewrite insert_snoc in H. exact H. }
  destruct (indexed_table_ok ups 1 ltac:(lia) ltac:(lia) Hst) as (Hok & Hsc & _).
  set (h3 := h1 ++ [OTable (indexed 1 ups) None]) in *.
  assert (Ha3 : h3 !! length h1 = Some (OTable ([] ++ indexed 1 ups ++ []) None)).
  { rewrite app_nil_r. apply lookup_snoc. }
  assert (Hok' : table_ok ([] ++ indexed 1 ups ++ [])) by (rewrite app_nil_r; exact Hok).
  replace fuel with (length ups + S (fuel - length ups - 1))%nat by lia.
  set (f := (fuel - length ups - 1)%nat).
  destruct (pack_loop_scalars host_call (indexed 1 ups) [] VNil [] f (mkBuffer 128 0 [])
              (int_succ idx) (length h1) None (VFun fa :: s) h3 c Ha3 Hok' Hsc eq_refl)
    as (rb & prev' & Hc & Hd & Hloop).
  cbn [app] in Hc. rewrite app_nil_r in Ha3. cbn [app] in Ha3.
  rewrite mar_pack_loop_S in Hloop.
  rewrite (bind_ok _ _ _ _ _ (lua_next_done _ _ _ _ _ _ _ Ha3 Hok Hc)) in Hloop.
  cbv beta iota in Hloop. unfold ret in Hloop. rewrite length_indexed in Hloop.
  cbn [data app] in Hd.
  assert (Hrb : zlen (data rb) <= UINT32_MAX) by (rewrite Hd; exact Hbody).
  eexists. split.
  - unfold pack_value, MAR_CHR, MAR_I32. unfold num in *.
    run1. run1. run_if. run_if. run_if. run_if. run_if.
    run1. run1. run1. change (negb (type_of VNil =? LUA_TNIL)) with false. cbv iota.
    run1. run1. run1. run1. run1. run1. run1. run1. run1.
    cbn [data app size seek]. rewrite take_zlen.
    run1. run1. run1. run1. run1. run1. run1.
    change (bool_decide (WhatLua = WhatLua)) with true. cbv iota.
    run1. run1.
    replace (Z.to_nat (zlen ups)) with (length ups) by (unfold zlen; lia).
    fold h2. run1. run1. rewrite bind_assoc. run1.
    match goal with |- bind ?m ?k ?L = _ =>
      change m with (mar_pack_loop host_call (length ups + S f) (mkBuffer 128 0 []) (int_succ idx))
    end.
    run1. run1. run1. run1. run1. run1.
    reflexivity.
  - cbn [data]. rewrite Hd, !take_zlen. unfold enc_fun. rewrite <- !app_assoc. reflexivity.
Qed.


Lemma lua_load_ok chunk w n s h c :
  host_load chunk = inl (w, n) ->
  lua_load host_load chunk (mkState s h c)
  = Ok (tt, mkState (VFun (length h) :: s) (h ++ [OFun w chunk (replicate n VNil)]) c).
Proof. intros H. unfold lua_load. rewrite H. reflexivity. Qed.

Lemma lua_objlen_m1 t s h c es mt :
  h !! t = Some (OTable es mt) ->
  lua_objlen (-1) (mkState (VTable t :: s) h c)
  = Ok (Tbl.border (length es) es 0, mkState (VTable t :: s) h c).
Proof.
  intros H. unfold lua_objlen. run1. unfold bind, get_heap. cbn [heap]. rewrite H. reflexivity.
Qed.

Lemma unpack_function fuel mem buf len p idx s h c r es mt code ups w :
  bytes_at mem p (enc_fun code ups) ->
  p - buf + zlen (enc_fun code ups) <= len ->
  host_load code = inl (w, length ups) ->
  Forall storable ups -> zlen ups < 2 ^ 53 ->
  zlen code <= UINT32_MAX ->
  zlen (enc_pairs (indexed 1 ups)) <= UINT32_MAX ->
  slot s 2 (VTable r) -> h !! r = Some (OTable es mt) ->
  (length ups + 2 <= fuel)%nat ->
  unpack_value host_call host_load fuel mem buf len p idx (mkState s h c)
  = Ok ((p + zlen (enc_fun code ups), int_succ idx),
        mkState (VFun (length h) :: s)
                (<[r := OTable (Tbl.set es (num idx) (VFun (length h))) mt]> h
                 ++ [OFun w code ups; OTable (indexed 1 ups) None]) c).
Proof.
  intros Hb Hlen Hload Hst Hn Hcode Hbody Hslot Hr Hfuel.
  destruct fuel as [|fuel]; [lia|].
  replace fuel with (length (indexed 1 ups) + S (fuel - length ups - 1))%nat
    by (rewrite length_indexed; lia).
  set (f := (fuel - length ups - 1)%nat).
  set (body := enc_pairs (indexed 1 ups)) in *.
  pose proof (zlen_nonneg code) as H0. pose proof (zlen_nonneg body) as H1.
  assert (Hrlt : (r < length h)%nat) by (eapply lookup_lt_Some; exact Hr).
  assert (Hz : zlen (enc_fun code ups) = 10 + zlen code + zlen body).
  { unfold enc_fun. fold body. rewrite !zlen_app.
    change (zlen [x06; x02]) with 2.
    change (zlen (le_bytes 4 (zlen code))) with 4.
    change (zlen (le_bytes 4 (zlen body))) with 4. lia. }
  rewrite Hz in *.
  unfold enc_fun in Hb. fold body in Hb.
  change [x06; x02] with ([x06] ++ [x02]) in Hb. rewrite <- app_assoc in Hb.
  apply bytes_at_app in Hb as [Hb0 Hb]. change (zlen [x06]) with 1 in Hb.
  apply bytes_at_app in Hb as [Hb1 Hb]. change (zlen [x02]) with 1 in Hb.
  apply bytes_at_app in Hb as [Hb2 Hb]. change (zlen (le_bytes 4 (zlen code))) with 4 in Hb.
  apply bytes_at_app in Hb as [Hb3 Hb].
  apply bytes_at_app in Hb as [Hb4 Hb5]. change (zlen (le_bytes 4 (zlen body))) with 4 in Hb5.
  assert (Hv1 : le_Z (le_bytes 4 (zlen code)) = zlen code).
  { rewrite le_Z_le_bytes. apply Z.mod_small. unfold UINT32_MAX in Hcode.
    change (256 ^ Z.of_nat 4) with (2 ^ 32). lia. }
  assert (Hv2 : le_Z (le_bytes 4 (zlen body)) = zlen body).
  { rewrite le_Z_le_bytes. apply Z.mod_small. unfold UINT32_MAX in Hbody.
    change (256 ^ Z.of_nat 4) with (2 ^ 32). lia. }
  destruct (indexed_table_ok ups 1 ltac:(lia) ltac:(lia) Hst) as (Hok & Hsc & Hkeys).
  set (F := length h).
  set (hA := h ++ [OFun w code (replicate (length ups) VNil)]).
  set (hB := <[r := OTable (Tbl.set es (num idx) (VFun F)) mt]> hA).
  set (hC := hB ++ [OTable [] None]).
  set (hD := <[length hB := OTable (store_all [] (indexed 1 ups)) None]> hC).
  assert (HlB : length hB = S F).
  { unfold hB, hA. rewrite length_insert, length_app. cbn [length]. unfold F. lia. }
  assert (Hrs : lua_rawseti 2 idx (mkState (VFun F :: VFun F :: s) hA c)
                = Ok (tt, mkState (VFun F :: s) hB c)).
  { apply (lua_rawseti_slot (VFun F) (VFun F :: s) hA c 2 idx r es mt).
    - apply slot_cons; [lia|]. apply slot_cons; [lia | exact Hslot].
    - unfold hA. apply lookup_app_l_Some. exact Hr. }
  assert (HtC : hC !! length hB = Some (OTable [] None)) by apply lookup_snoc.
  assert (Hloop := unpack_loop_scalars host_call host_load (indexed 1 ups) [] f mem
                     (p + 1 + 1 + 4 + zlen code + 4) (zlen body)
                     (p + 1 + 1 + 4 + zlen code + 4) (int_succ idx) (length hB)
                     (VFun F :: s) hC c Hb5 Hsc Hkeys ltac:(fold body; lia) HtC).
  fold body hD in Hloop.
  rewrite mar_unpack_loop_done in Hloop by lia.
  assert (HtD : hD !! length hB = Some (OTable (indexed 1 ups) None)).
  { unfold hD. rewrite (store_all_table_ok (indexed 1 ups) []) by exact Hok.
    apply list_lookup_insert_eq. unfold hC. rewrite length_app. cbn [length]. lia. }
  assert (HfD : hD !! F = Some (OFun w code ([] ++ replicate (length ups) VNil))).
  { unfold hD. rewrite list_lookup_insert_ne by lia.
    unfold hC. apply lookup_app_l_Some.
    unfold hB. rewrite list_lookup_insert_ne by (unfold F; lia).
    unfold hA, F. apply lookup_snoc. }
  pose proof (lua_objlen_m1 _ (VFun F :: s) _ c _ _ HtD) as Hobj.
  rewrite length_indexed in Hobj.
  pose proof (border_indexed ups Hst Hn (length ups) 0%nat eq_refl) as Hbd.
  change (Z.of_nat 0) with 0 in Hbd. rewrite Hbd in Hobj.
  pose proof (setupvalues_loop ups [] (replicate (length ups) VNil) (length hB) F s hD c w code
                None HfD (length_replicate _ _) HtD Hn) as Hsu.
  cbn [app] in Hsu. change (1 + zlen []) with 1 in Hsu.
  unfold unpack_value, MAR_CHR.
  run1. run1. run_if. run_if. run_if. run_if. run_if.
  run1. run1. run_if.
  run1. rewrite Hv1.
  rewrite (bind_ok _ _ _ _ _ (peek_bytes_at' _ _ (zlen code) _ _ Hb3 eq_refl)).
  rewrite (bind_ok _ _ _ _ _ (lua_load_ok _ _ _ _ _ _ Hload)).
  fold F hA. run1. run1. run1.
  run1. rewrite Hv2. run1. fold hC.
  match goal with |- bind ?m ?k ?L = _ =>
    change m with (mar_unpack_loop host_call host_load (length (indexed 1 ups) + S f) mem
                     (p + 1 + 1 + 4 + zlen code + 4) (zlen body)
                     (p + 1 + 1 + 4 + zlen code + 4) (int_succ idx))
  end.
  run1. run1.
  replace (Z.to_nat (zlen ups)) with (length ups) by (unfold zlen; lia).
  run1. run1. run1.
  unfold ret. f_equal. f_equal.
  - f_equal. lia.
  - f_equal.
    assert (HB : hB = <[r := OTable (Tbl.set es (num idx) (VFun F)) mt]> h
                      ++ [OFun w code (replicate (length ups) VNil)]).
    { unfold hB, hA. apply insert_app_l. exact Hrlt. }
    set (h' := <[r := OTable (Tbl.set es (num idx) (VFun F)) mt]> h) in *.
    assert (Hl' : length h' = F) by (unfold h'; apply length_insert).
    unfold hD, hC. rewrite insert_snoc.
    rewrite (store_all_table_ok (indexed 1 ups) []) by exact Hok. cbn [app].
    rewrite HB, <- app_assoc. cbn [app].
    rewrite <- Hl'. replace (length h') with (length h' + 0)%nat at 1 by lia.
    rewrite insert_app_r. reflexivity.
Qed.


(** A Lua function at the top of the stack, where the value of a pair
    lies ([val = -1]), that the reference table does not hold yet, whose
    upvalues are booleans, numbers and strings: [pack_value] registers it
    under the next id and appends its record, the chunk [lua_dump] writes
    and the record of the table of its upvalues, each behind its length;
    where the loader accepts the chunk as a function with as many
    upvalues, [unpack_value] decodes that record to a new function with
    that chunk and these upvalues, registered under the next id. *)
Theorem function_round_trip code ups :
  Forall storable ups -> (length ups <= 255)%nat ->
  zlen code <= UINT32_MAX ->
  zlen (enc_pairs (indexed 1 ups)) <= UINT32_MAX ->
  (forall fuel buf idx fa s h c r es mt,
      slot (VFun fa :: s) 2 (VTable r) ->
      h !! r = Some (OTable es mt) ->
      Tbl.get es (VFun fa) = VNil ->
      h !! fa = Some (OFun WhatLua code ups) ->
      (length ups + 3 <= fuel)%nat ->
      exists buf',
        pack_value host_call fuel buf (-1) idx (mkState (VFun fa :: s) h c)
        = Ok ((buf', int_succ idx),
              mkState (VFun fa :: s)
                      (<[r := OTable (Tbl.set es (VFun fa) (num idx)) mt]> h
                       ++ [OTable (indexed 1 ups) None]) c)
        /\ data buf' = data buf ++ enc_fun code ups)
  /\ (forall fuel mem buf len p idx s h c r es mt w,
      bytes_at mem p (enc_fun code ups) ->
      p - buf + zlen (enc_fun code ups) <= len ->
      host_load code = inl (w, length ups) ->
      slot s 2 (VTable r) -> h !! r = Some (OTable es mt) ->
      (length ups + 2 <= fuel)%nat ->
      unpack_value host_call host_load fuel mem buf len p idx (mkState s h c)
      = Ok ((p + zlen (enc_fun code ups), int_succ idx),
            mkState (VFun (length h) :: s)
                    (<[r := OTable (Tbl.set es (num idx) (VFun (length h))) mt]> h
                     ++ [OFun w code ups; OTable (indexed 1 ups) None]) c)).
Proof.
  intros Hst Hn Hcode Hbody.
  assert (Hn' : zlen ups < 2 ^ 53) by (unfold zlen; lia).
  split.
  - intros fuel buf idx fa s h c r es mt Hs Hr Hg Hf Hfuel.
    apply pack_function; assumption.
  - intros fuel mem buf len p idx s h c r es mt w Hb Hlen Hload Hs Hr Hfuel.
    apply unpack_function; assumption.
Qed.

(** A function record whose chunk the loader rejects: [unpack_value]
    does not raise an error; the loader's message takes the place of the
    function, as the decoded value and in the reference table. *)
Theorem rejected_chunk_decodes_to_message fuel mem buf len p idx s h c r es mt t code msg :
  bytes_at mem p ([x06; t] ++ le_bytes 4 (zlen code) ++ code ++ le_bytes 4 0) ->
  Z_of_byte t <> MAR_TREF ->
  zlen code <= UINT32_MAX ->
  p - buf + (10 + zlen code) <= len ->
  host_load code = inr msg ->
  slot s 2 (VTable r) -> h !! r = Some (OTable es mt) ->
  unpack_value host_call host_load (S (S fuel)) mem buf len p idx (mkState s h c)
  = Ok ((p + (10 + zlen code), int_succ idx),
        mkState (VStr msg :: s)
                (<[r := OTable (Tbl.set es (num idx) (VStr msg)) mt]> h
                 ++ [OTable [] None]) c).
Proof.
  intros Hb Ht Hcode Hlen Hload Hslot Hr.
  pose proof (zlen_nonneg code) as H0.
  assert (Hrlt : (r < length h)%nat) by (eapply lookup_lt_Some; exact Hr).
  change [x06; t] with ([x06] ++ [t]) in Hb. rewrite <- app_assoc in Hb.
  apply bytes_at_app in Hb as [Hb0 Hb]. change (zlen [x06]) with 1 in Hb.
  apply bytes_at_app in Hb as [Hb1 Hb]. change (zlen [t]) with 1 in Hb.
  apply bytes_at_app in Hb as [Hb2 Hb]. change (zlen (le_bytes 4 (zlen code))) with 4 in Hb.
  apply bytes_at_app in Hb as [Hb3 Hb4].
  assert (Hv1 : le_Z (le_bytes 4 (zlen code)) = zlen code).
  { rewrite le_Z_le_bytes. apply Z.mod_small. unfold UINT32_MAX in Hcode.
    change (256 ^ Z.of_nat 4) with (2 ^ 32). lia. }
  assert (Hld : forall st, lua_load host_load code (mkState st h c)
                           = Ok (tt, mkState (VStr msg :: st) h c)).
  { intros st. unfold lua_load. rewrite Hload. reflexivity. }
  assert (Hrs : lua_rawseti 2 idx (mkState (VStr msg :: VStr msg :: s) h c)
                = Ok (tt, mkState (VStr msg :: s)
                            (<[r := OTable (Tbl.set es (num idx) (VStr msg)) mt]> h) c)).
  { apply (lua_rawseti_slot (VStr msg) (VStr msg :: s) h c 2 idx r es mt).
    - apply slot_cons; [lia|]. apply slot_cons; [lia | exact Hslot].
    - exact Hr. }
  set (h1 := <[r := OTable (Tbl.set es (num idx) (VStr msg)) mt]> h) in *.
  assert (Hobj : lua_objlen (-1) (mkState (VTable (length h1) :: VStr msg :: s)
                                    (h1 ++ [OTable [] None]) c)
                 = Ok (0, mkState (VTable (length h1) :: VStr msg :: s)
                            (h1 ++ [OTable [] None]) c)).
  { apply (lua_objlen_m1 (length h1) _ _ c [] None). apply lookup_snoc. }
  unfold unpack_value, MAR_CHR.
  run1. run1. run_if. run_if. run_if. run_if. run_if.
  run1. run1.
  replace (Z_of_byte t =? MAR_TREF) with false by (symmetry; apply Z.eqb_neq; exact Ht).
  run1. rewrite Hv1.
  rewrite (bind_ok _ _ _ _ _ (peek_bytes_at' _ _ (zlen code) _ _ Hb3 eq_refl)).
  rewrite (bind_ok _ _ _ _ _ (Hld s)).
  run1. run1. run1. run1.
  change (le_Z (le_bytes 4 0)) with 0. run1.
  replace (p + 1 + 1 + 4 + zlen code + 4 - (p + 1 + 1 + 4 + zlen code + 4) <? 0) with false
    by (symmetry; apply Z.ltb_ge; lia).
  run1. run1. change (Z.to_nat 0) with 0%nat. cbn [setupvalues].
  run1. run1. run1.
  unfold ret. do 3 f_equal. lia.
Qed.

End Functions.

(** ** Back-references *)

Lemma to_int_of_int i : 0 < i < 2 ^ 53 -> Num.to_int (Num.of_int i) = Some i.
Proof.
  intros Hi. destruct (of_int_parts i Hi) as (e & m & He & Hm & Hof & Hmul).
  unfold Num.to_int. rewrite (of_int_not_zero i Hi).
  assert (Hex : Num.expo (Num.of_int i) = e + 1023).
  { rewrite Hof. unfold Num.expo.
    rewrite Z.add_comm, Z.div_add by lia. rewrite (Z.div_small m) by lia.
    apply Z.mod_small. lia. }
  assert (Hma : Num.mant (Num.of_int i) = m).
  { rewrite Hof. unfold Num.mant. rewrite Z.add_comm, Z.mod_add by lia.
    apply Z.mod_small. lia. }
  assert (Hsi : Num.sign (Num.of_int i) = 0).
  { rewrite Hof. unfold Num.sign. rewrite Z.div_small; [reflexivity|]. nia. }
  rewrite Hex, Hma, Hsi. change (0 =? 1) with false. cbv iota.
  replace ((e + 1023 <? 1023) || (1086 <=? e + 1023)) with false
    by (symmetry; apply orb_false_intro; [apply Z.ltb_ge | apply Z.leb_gt]; lia).
  assert (Hq : 0 < 2 ^ (52 - e)) by (apply Z.pow_pos_nonneg; lia).
  destruct (1075 <=? e + 1023) eqn:E.
  - apply Z.leb_le in E. assert (e = 52) by lia. subst e.
    change (2 ^ (52 - 52)) with 1 in Hmul. change (2 ^ (52 + 1023 - 1075)) with 1.
    f_equal. lia.
  - replace (1075 - (e + 1023)) with (52 - e) by lia.
    rewrite <- Hmul. rewrite Z.mod_mul by lia. rewrite Z.eqb_refl.
    rewrite Z.div_mul by lia. f_equal. lia.
Qed.

Lemma wrap32s_small i : 0 <= i < 2 ^ 31 -> wrap32s i = i.
Proof.
  intros Hi. unfold wrap32s. cbv zeta. rewrite Z.mod_small by lia.
  replace (i <? 2 ^ 31) with true by (symmetry; apply Z.ltb_lt; lia). reflexivity.
Qed.

Lemma lua_tointeger_id i s h c :
  0 < i < 2 ^ 53 ->
  lua_tointeger (-1) (mkState (num i :: s) h c) = Ok (i, mkState (num i :: s) h c).
Proof.
  intros Hi. unfold lua_tointeger, num. run1. rewrite to_int_of_int by exact Hi. reflexivity.
Qed.

Section References.

Variable host_call : value -> list value -> list object -> outcome (value * list object).
Variable host_load : list byte -> (fwhat * nat) + list byte.

Lemma pack_reference fuel buf val idx s h c v r es mt i :
  val < 0 -> slot s val v ->
  (exists a, v = VTable a \/ v = VFun a \/ v = VUdata a) ->
  slot s 2 (VTable r) -> h !! r = Some (OTable es mt) ->
  Tbl.get es v = num i -> 0 < i < 2 ^ 31 ->
  exists buf',
    pack_value host_call (S fuel) buf val idx (mkState s h c) = Ok ((buf', idx), mkState s h c)
    /\ data buf' = data buf ++ [byte_of_Z (type_of v); x01] ++ le_bytes 4 i.
Proof.
  intros Hval Hsv (a & Hv) Hs2 Hr Hget Hi.
  pose proof (lua_type_slot _ _ h c _ Hsv) as Ht.
  pose proof (lua_pushvalue_slot _ _ h c _ Hsv) as Hpv.
  assert (Hs2' : slot (v :: s) 2 (VTable r)) by (apply slot_cons; [lia | exact Hs2]).
  pose proof (lua_rawget_slot v s h c 2 r es mt Hs2' Hr) as Hrg. rewrite Hget in Hrg.
  pose proof (lua_tointeger_id i s h c ltac:(lia)) as Hti.
  assert (Hw : wrap32s i = i) by (apply wrap32s_small; lia).
  destruct Hv as [-> | [-> | ->]]; cbn [type_of] in *;
    (eexists; split;
     [ unfold pack_value, MAR_CHR, MAR_I32; run; rewrite Hw; reflexivity
     | cbn [data]; rewrite <- !app_assoc; reflexivity ]).
Qed.


Lemma unpack_reference fuel mem buf len p idx s h c t r es mt i :
  t = x05 \/ t = x06 \/ t = x07 ->
  bytes_at mem p ([t; x01] ++ le_bytes 4 i) ->
  0 < i < 2 ^ 31 -> (p - buf) + 6 <= len ->
  slot s 2 (VTable r) -> h !! r = Some (OTable es mt) ->
  unpack_value host_call host_load (S fuel) mem buf len p idx (mkState s h c)
  = Ok ((p + 6, idx), mkState (Tbl.get es (num i) :: s) h c).
Proof.
  intros Ht Hb Hi Hlen Hs Hr.
  change [t; x01] with ([t] ++ [x01]) in Hb.
  apply bytes_at_app in Hb as [Hb Hb4].
  apply bytes_at_app in Hb as [Hb0 Hb1].
  change (zlen [t]) with 1 in *. change (zlen ([t] ++ [x01])) with 2 in *.
  assert (Hv : le_Z (le_bytes 4 i) = i).
  { rewrite le_Z_le_bytes. apply Z.mod_small. change (256 ^ Z.of_nat 4) with (2 ^ 32). lia. }
  assert (Hw : wrap32s i = i) by (apply wrap32s_small; lia).
  unfold unpack_value, MAR_CHR.
  destruct Ht as [-> | [-> | ->]]; run;
    rewrite Hv, Hw; unfold ret, num; do 3 f_equal; lia.
Qed.

(** A table, function or userdata that the reference table holds under
    the id [i]: [pack_value] appends its type tag, the sub-tag 1 and the
    four bytes of [i], and changes neither the Lua state nor the id
    counter; [unpack_value] decodes such a record to whatever its own
    reference table holds under [i], with the state otherwise as it was. *)
Theorem back_reference_round_trip i :
  0 < i < 2 ^ 31 ->
  (forall fuel buf val idx s h c v r es mt,
      val < 0 -> slot s val v ->
      (exists a, v = VTable a \/ v = VFun a \/ v = VUdata a) ->
      slot s 2 (VTable r) -> h !! r = Some (OTable es mt) ->
      Tbl.get es v = num i ->
      exists buf',
        pack_value host_call (S fuel) buf val idx (mkState s h c)
        = Ok ((buf', idx), mkState s h c)
        /\ data buf' = data buf ++ [byte_of_Z (type_of v); x01] ++ le_bytes 4 i)
  /\ (forall fuel mem buf len p idx s h c t r es mt,
      t = x05 \/ t = x06 \/ t = x07 ->
      bytes_at mem p ([t; x01] ++ le_bytes 4 i) ->
      (p - buf) + 6 <= len ->
      slot s 2 (VTable r) -> h !! r = Some (OTable es mt) ->
      unpack_value host_call host_load (S fuel) mem buf len p idx (mkState s h c)
      = Ok ((p + 6, idx), mkState (Tbl.get es (num i) :: s) h c)).
Proof.
  intros Hi. split.
  - intros fuel buf val idx s h c v r es mt Hval Hsv Hv Hs Hr Hg.
    exact (pack_reference fuel buf val idx s h c v r es mt i Hval Hsv Hv Hs Hr Hg Hi).
  - intros fuel mem buf len p idx s h c t r es mt Ht Hb Hlen Hs Hr.
    exact (unpack_reference fuel mem buf len p idx s h c t r es mt i Ht Hb Hi Hlen Hs Hr).
Qed.

End References.

(** ** The envelope *)

Section Foreign.

Variable host_call : value -> list value -> list object -> outcome (value * list object).
Variable host_load : list byte -> (fwhat * nat) + list byte.



End Foreign.



(** ** Truncated streams *)

Section Cuts.

Variable host_call : value -> list value -> list object -> outcome (value * list object).
Variable host_load : list byte -> (fwhat * nat) + list byte.



End Cuts.
(** ** Evaluating the library on concrete inputs *)

(** C1.  Cloning [{ {X}, B, X }]: [mar_pack] takes the id counter by
    value, so the ids handed out inside the first element are handed out
    again; [B] is registered under the id of [X], and the third field of
    the clone, which was [X = {"x"}], is the empty Record.  The clone is
    not deep-equal to the original. *)
Theorem clone_confuses_records :
  exists v L,
    call_c (tbl_clone no_call no_load 16 [x00]) [VTable 0%nat] heap_shared = Ok (v, L)
    /\ field heap_shared (field heap_shared (VTable 0%nat) (num 3)) (num 1) = VStr [x78]
    /\ field (heap L) (field (heap L) v (num 3)) (num 1) = VNil
    /\ deep_eqb 3 heap_shared (heap L) (VTable 0%nat) v = false.
Proof. do 2 eexists. split; [vm_compute; reflexivity|]. vm_compute. auto. Qed.

(** C2.  Cloning a Record [C] with [C.x = C]: the root is never entered in
    the reference table, so [clone(C).x] is a second Record, not
    [clone(C)].  Cloning [{ {S}, S, B, S }]: fields 2 and 4 hold one Record
    in the original and two different Records in the clone. *)
Theorem clone_breaks_identity :
  (exists c L,
     call_c (tbl_clone no_call no_load 16 [x00]) [VTable 0%nat] heap_cycle = Ok (c, L)
     /\ field heap_cycle (VTable 0%nat) (VStr [x78]) = VTable 0%nat
     /\ field (heap L) c (VStr [x78]) <> c)
  /\ (exists c L,
     call_c (tbl_clone no_call no_load 16 [x00]) [VTable 0%nat] heap_alias = Ok (c, L)
     /\ field heap_alias (VTable 0%nat) (num 2) = field heap_alias (VTable 0%nat) (num 4)
     /\ field (heap L) c (num 2) <> field (heap L) c (num 4)).
Proof.
  split; do 2 eexists; (split; [vm_compute; reflexivity|]);
    (split; [reflexivity | vm_compute; discriminate]).
Qed.

(** C3.  The decoder dereferences before it checks.  With nothing mapped
    behind the payload the read of the missing Boolean byte leaves the
    mapped memory; with one byte behind it the byte is read and only then
    is the stream refused.  A String length is used for the copy before it
    is checked, and a Composite length is used to decode the body before it
    is checked: bytes behind the payload are decoded as a pair, and here
    they decide which error is raised. *)
Theorem unpack_reads_before_check :
  call_c (tbl_unmarshal no_call no_load 16 []) [VStr stream_short_boolean] []
    = Undefined "read outside the mapped bytes"
  /\ (forall b, call_c (tbl_unmarshal no_call no_load 16 [b]) [VStr stream_short_boolean] []
               = LuaError "bad code")
  /\ call_c (tbl_unmarshal no_call no_load 16 [x42]) [VStr stream_short_string] []
    = Undefined "read outside the mapped bytes"
  /\ (forall b1 b2, call_c (tbl_unmarshal no_call no_load 16 [b1; b2]) [VStr stream_short_string] []
                   = LuaError "bad code")
  /\ call_c (tbl_unmarshal no_call no_load 16 [x08; x08]) [VStr stream_short_table] []
    = LuaError "table index is nil"
  /\ call_c (tbl_unmarshal no_call no_load 16 [x01; x00; x00]) [VStr stream_short_table] []
    = LuaError "bad code".
Proof. repeat split; intros; vm_compute; reflexivity. Qed.

(** C4, as stated, fails: a stream whose only value is a back-reference to
    the unregistered id 7 is decoded without error; the result is the
    empty Record. *)
Lemma unknown_reference_accepted :
  call_c (tbl_unmarshal no_call no_load 16 [x00]) [VStr stream_unknown_ref] []
  = Ok (VTable 1%nat,
        mkState [VTable 1%nat; VTable 0%nat; VStr stream_unknown_ref]
                [OTable [] None; OTable [] None] []).
Proof. vm_compute. reflexivity. Qed.

Ltac solve_bytes_at :=
  unfold bytes_at; split; [|split];
  [vm_compute; discriminate | vm_compute; discriminate | reflexivity].

Lemma unknown_reference_is_nil_witness :
  unpack_value no_call no_load 1 stream_unknown_ref 2 8 4 1
    (mkState [VBool true; VTable 1%nat; VTable 0%nat; VStr stream_unknown_ref]
             [OTable [] None; OTable [] None] [])
  = Ok ((10, 1),
        mkState [VNil; VBool true; VTable 1%nat; VTable 0%nat; VStr stream_unknown_ref]
                [OTable [] None; OTable [] None] []).
Proof.
  apply (unknown_reference_is_nil no_call no_load 0 stream_unknown_ref 2 8 4 1
           (mkState [VBool true; VTable 1%nat; VTable 0%nat; VStr stream_unknown_ref]
                    [OTable [] None; OTable [] None] [])
           x05 [x07; x00; x00; x00] 0%nat [] None).
  - left. reflexivity.
  - reflexivity.
  - solve_bytes_at.
  - lia.
  - reflexivity.
  - reflexivity.
  - reflexivity.
Defined.

(** C10.  [tbl_marshal] does not look at the type of its argument: a root
    that is not a table reaches [lua_next], which requires a table.  No Lua
    error is raised; the behaviour is undefined. *)
Theorem marshal_non_table_root (v : value) (h : list object) (fuel : nat) :
  match v with
  | VTable _ => True
  | _ => call_c (tbl_marshal no_call (S (S fuel))) [v] h
         = Undefined "raw access to a value that is not a table"
  end.
Proof. destruct v; try exact I; reflexivity. Qed.

(** C5, as stated, fails for tag=Opaque.  [marshal] of [{ u }], where the
    Reviver of [u] has captured [u], writes an Opaque record whose contents
    hold a back-reference to the record's own id 1.  Had the record been
    registered before its contents were decoded, the reference would find
    it; it finds the Reviver, which was decoded first: the Reviver's
    upvalue is the Reviver itself.  Only after the Reviver has been called
    is id 1 bound to the record's value, the result of that call. *)
Lemma opaque_registered_after_contents :
  exists s L v L',
    call_c (tbl_marshal demo_call 16) [VTable 0%nat] heap_opaque_self = Ok (VStr s, L)
    /\ call_c (tbl_unmarshal demo_call demo_load 16 [x00]) [VStr s] [] = Ok (v, L')
    /\ heap L' !! 3%nat = Some (OFun WhatLua reviver_code [VFun 3%nat])
    /\ calls L' = [(VFun 3%nat, [])]
    /\ field (heap L') (VTable 0%nat) (num 1) = VFun 3%nat
    /\ field (heap L') v (num 1) = VFun 3%nat.
Proof.
  do 4 eexists. split; [vm_compute; reflexivity|].
  split; [vm_compute; reflexivity|]. repeat split.
Qed.

Lemma registration_order_witness :
  field (<[0%nat := OTable (Tbl.set [] (num 1) (VTable 2%nat)) None]>
           ([OTable [] None; OTable [] None] ++ [OTable [] None]))
        (VTable 0%nat) (num 1)
  = VTable 2%nat.
Proof.
  refine (proj1 (proj2 (proj1 (registration_order no_call no_load)
    0%nat [x05; x02; x00; x00; x00; x00] 0 6 0 1
    (mkState [VBool true; VTable 1%nat; VTable 0%nat; VStr []]
             [OTable [] None; OTable [] None] [])
    [x00; x00; x00; x00] 0%nat [] None _ _ _ _ _ _))).
  - reflexivity.
  - solve_bytes_at.
  - lia.
  - reflexivity.
  - reflexivity.
  - lia.
Defined.

(** C7, as stated, fails.  Cloning [{ u }]: the hook is called with [u]
    and one result is taken from it, the Reviver; at decode the reloaded
    Reviver is called with no argument at all.  What it had captured came
    back as its upvalue, and its result stands in the clone. *)
Lemma reviver_called_without_arguments :
  exists v L f,
    call_c (tbl_clone demo_call demo_load 16 [x00]) [VTable 0%nat] heap_opaque = Ok (v, L)
    /\ calls L = [(VFun 3%nat, [VUdata 1%nat]); (f, [])]
    /\ field (heap L) v (num 1) = VStr [x73; x74].
Proof. do 3 eexists. split; [vm_compute; reflexivity|]. split; reflexivity. Qed.

Lemma persist_protocol_witness :
  (exists r,
     pack_value demo_call 8 (mkBuffer 128 0 []) (-1) 1
       (mkState [VUdata 1%nat; num 1; VTable 0%nat; VTable 5%nat; VTable 0%nat]
                (heap_opaque ++ [OTable [] None]) [])
     = Ok r)
  /\ (exists r,
     unpack_value demo_call demo_load 8 stream_opaque 2 51 11 1
       (mkState [num 1; VTable 1%nat; VTable 0%nat; VStr stream_opaque]
                [OTable [] None; OTable [] None] [])
     = Ok r).
Proof.
  split.
  - edestruct (proj1 (persist_protocol demo_call demo_load)
      7%nat (mkBuffer 128 0 []) (-1) 1
      [VUdata 1%nat; num 1; VTable 0%nat; VTable 5%nat; VTable 0%nat]
      (heap_opaque ++ [OTable [] None]) []
      1%nat 5%nat [] None 2%nat [(VStr str__persist, VFun 3%nat)] None 4%nat
      (<[5%nat := OTable (Tbl.set [] (VUdata 1%nat) (num 1)) None]>
         (heap_opaque ++ [OTable [] None]))) as [f Hf].
    + lia.
    + reflexivity.
    + reflexivity.
    + reflexivity.
    + reflexivity.
    + reflexivity.
    + reflexivity.
    + discriminate.
    + reflexivity.
    + vm_compute. reflexivity.
    + reflexivity.
    + vm_compute. discriminate.
    + eexists. exact (proj1 Hf).
  - eexists.
    eapply (proj2 (persist_protocol demo_call demo_load)
      7%nat stream_opaque 2 51 11 1
      (mkState [num 1; VTable 1%nat; VTable 0%nat; VStr stream_opaque]
               [OTable [] None; OTable [] None] [])
      x07 [x24; x00; x00; x00]).
    + right. reflexivity.
    + reflexivity.
    + solve_bytes_at.
    + vm_compute. discriminate.
    + vm_compute. reflexivity.
    + reflexivity.
    + reflexivity.
    + vm_compute. reflexivity.
    + reflexivity.
    + reflexivity.
Defined.

(** The stream for which the witness above decodes the Opaque record. *)
Example marshal_heap_opaque :
  exists L, call_c (tbl_marshal demo_call 16) [VTable 0%nat] heap_opaque
            = Ok (VStr stream_opaque, L).
Proof. eexists. vm_compute. reflexivity. Qed.

(** C8, as stated, fails in key position: a Record with a coroutine as
    key is packed without error, but decoding turns the key into nil and
    the host's table store refuses it. *)
Lemma coroutine_key_rejected :
  exists s L,
    call_c (tbl_marshal no_call 16) [VTable 0%nat] heap_thread_key = Ok (VStr s, L)
    /\ call_c (tbl_unmarshal no_call no_load 16 [x00]) [VStr s] []
       = LuaError "table index is nil".
Proof. do 2 eexists. split; [vm_compute; reflexivity | vm_compute; reflexivity]. Qed.

(** The same values in value position: the clone of
    [{ [true] = co, [false] = u, [1] = true }] holds the one pair
    [1 -> true]. *)
Example clone_drops_values :
  exists v L,
    call_c (tbl_clone no_call no_load 16 [x00]) [VTable 0%nat] heap_dropped = Ok (v, L)
    /\ heap L !! 5%nat = Some (OTable [(num 1, VBool true)] None)
    /\ v = VTable 5%nat.
Proof. do 2 eexists. split; [vm_compute; reflexivity|]. split; reflexivity. Qed.

Lemma dropped_values_witness :
  (exists buf',
     pack_value no_call 1 (mkBuffer 128 0 []) (-1) 1
       (mkState [VUdata 2%nat; VBool false; VTable 0%nat; VTable 3%nat; VTable 0%nat]
                (heap_dropped ++ [OTable [] None]) [])
     = Ok ((buf', 1),
           mkState [VUdata 2%nat; VBool false; VTable 0%nat; VTable 3%nat; VTable 0%nat]
                   (heap_dropped ++ [OTable [] None]) [])
     /\ data buf' = [] ++ [x07; x02])
  /\ unpack_value no_call no_load 1 [x07; x02] 0 2 0 1 (mkState [] [] [])
     = Ok ((0 + 2, 1), mkState [VNil] [] []).
Proof.
  split.
  - refine (proj1 (proj2 (dropped_values no_call no_load))
      0%nat (mkBuffer 128 0 []) (-1) 1
      (mkState [VUdata 2%nat; VBool false; VTable 0%nat; VTable 3%nat; VTable 0%nat]
               (heap_dropped ++ [OTable [] None]) [])
      2%nat 3%nat [] None _ _ _ _ _); first [reflexivity | exact I].
  - refine (proj1 (proj2 (proj2 (proj2 (dropped_values no_call no_load))))
      0%nat [x07; x02] 0 2 0 1 (mkState [] [] []) _ _).
    + solve_bytes_at.
    + lia.
Defined.

(** C9.  A payload of 2^31 bytes behind a marker that is not this host's:
    [tbl_unmarshal] keeps the length in an [int], which is negative here,
    so the loop that should reverse the payload starts with a negative
    count and an index below the buffer.  The payload is not reversed; the
    behaviour is undefined. *)
Lemma reversal_count_overflows :
  call_c (tbl_unmarshal no_call no_load 1 [])
         [VStr (x8e :: x00 :: replicate (Z.to_nat (2 ^ 31)) x00)] []
  = Undefined "byte reversal with a negative count".
Proof.
  apply unmarshal_reversal_overflow.
  - discriminate.
  - unfold zlen. rewrite length_replicate, Z2Nat.id by lia. lia.
Qed.


(** That stream decodes to [{ [false] = false }]: the reversed payload is
    the pair Boolean false, Boolean false. *)
Example unmarshal_reversed_stream :
  call_c (tbl_unmarshal no_call no_load 8 [x00])
         [VStr [x8e; x00; x00; x01; x00; x01]] []
  = Ok (VTable 1%nat,
        mkState [VTable 1%nat; VTable 0%nat; VStr [x8e; x00; x00; x01; x00; x01]]
                [OTable [] None; OTable [(VBool false, VBool false)] None] []).
Proof. vm_compute. reflexivity. Qed.


(** A cut inside the pair comes back with an error when the bytes behind
    the buffer can be read. *)
Example truncated_inside_pair_rejected :
  call_c (tbl_unmarshal no_call no_load 16 [x01; x01; x01; x01])
         [VStr (take 4 stream_flag)] []
  = LuaError "bad code".
Proof. vm_compute. reflexivity. Qed.


(** A number in the place of the stream is converted to its digits, which
    are no stream: [unmarshal(5)] raises "bad header" and [unmarshal(12)]
    raises "bad magic". *)
Example unmarshal_of_a_number :
  call_c (tbl_unmarshal no_call no_load 1 [x00]) [VNum (Num.of_int 5)] []
  = LuaError "bad header"
  /\ call_c (tbl_unmarshal no_call no_load 1 [x00]) [VNum (Num.of_int 12)] []
     = LuaError "bad magic".
Proof. split; vm_compute; reflexivity. Qed.

(** ** The further properties on concrete inputs *)

Lemma buf_write_keeps_room_witness :
  buf_ok (mkBuffer 128 0 [])
  /\ (UINT32_MAX < 2 ->
      buf_write [x01; x02] 2 (mkBuffer 128 0 []) (mkState [] [] []) = LuaError "buffer too long")
  /\ (2 <= UINT32_MAX ->
      exists buf',
        buf_write [x01; x02] 2 (mkBuffer 128 0 []) (mkState [] [] [])
        = Ok (buf', mkState [] [] [])
        /\ data buf' = data (mkBuffer 128 0 []) ++ take (Z.to_nat 2) [x01; x02]
        /\ head buf' = head (mkBuffer 128 0 []) + 2
        /\ size (mkBuffer 128 0 []) <= size buf' <= 2 * (size (mkBuffer 128 0 []) + 2)
        /\ buf_ok buf').
Proof.
  apply (buf_write_keeps_room [x01; x02] 2 (mkBuffer 128 0 []) (mkState [] [] [])).
  - split; vm_compute; discriminate.
  - lia.
  - vm_compute. discriminate.
Defined.

Lemma buf_read_once_witness :
  let (r1, b1) := buf_read (mkBuffer 3 0 [x01; x02; x03]) in
  let (r2, b2) := buf_read b1 in
  (0 < head (mkBuffer 3 0 [x01; x02; x03]) -> r1 = Some (data (mkBuffer 3 0 [x01; x02; x03])))
  /\ (head (mkBuffer 3 0 [x01; x02; x03]) = 0 -> r1 = None)
  /\ r2 = None /\ b2 = b1 /\ data b1 = data (mkBuffer 3 0 [x01; x02; x03]).
Proof. apply (buf_read_once (mkBuffer 3 0 [x01; x02; x03])). reflexivity. Defined.

Lemma encoder_appends_witness :
  (exists out, data (mkBuffer 128 0 [x01; x01]) = data (mkBuffer 128 0 []) ++ out)
  /\ (1 = 1 \/ 1 = int_succ 1).
Proof.
  apply (proj1 (encoder_appends no_call) 1%nat (mkBuffer 128 0 []) (-1) 1
           (mkState [VBool true] [] []) (mkBuffer 128 0 [x01; x01]) 1
           (mkState [VBool true] [] [])).
  vm_compute. reflexivity.
Defined.

Lemma marshal_returns_stream_witness :
  exists out, VStr stream_flag = VStr (x8e :: x01 :: out).
Proof.
  apply (marshal_returns_stream no_call 16 [VTable 0%nat] heap_flag (VStr stream_flag)
           (mkState [VStr stream_flag; VTable 0%nat; VTable 1%nat; VTable 0%nat]
                    [OTable [(VBool true, VBool true)] None; OTable [] None] [])).
  vm_compute. reflexivity.
Defined.

Lemma scalar_round_trip_witness :
  (forall buf val idx L,
      lua_at val L = Ok (VStr [x61; x62], L) ->
      exists buf',
        pack_value no_call 1 buf val idx L = Ok ((buf', idx), L)
        /\ data buf' = data buf ++ enc_scalar (VStr [x61; x62]))
  /\ (forall mem buf len p idx s h c,
      bytes_at mem p (enc_scalar (VStr [x61; x62])) ->
      (p - buf) + zlen (enc_scalar (VStr [x61; x62])) <= len ->
      unpack_value no_call no_load 1 mem buf len p idx (mkState s h c)
      = Ok ((p + zlen (enc_scalar (VStr [x61; x62])), idx),
            mkState (VStr [x61; x62] :: s) h c)).
Proof.
  apply (scalar_round_trip no_call no_load 0 (VStr [x61; x62])).
  vm_compute. discriminate.
Defined.

Lemma flat_stream_round_trip_witness :
  call_c (tbl_marshal no_call 3) [VTable 0%nat] heap_flag
  = Ok (VStr stream_flag,
        mkState [VStr stream_flag; VTable 0%nat; VTable (length heap_flag); VTable 0%nat]
                (heap_flag ++ [OTable [] None]) [])
  /\ exists es',
       call_c (tbl_unmarshal no_call no_load 3 [x00]) [VStr stream_flag] []
       = Ok (VTable 1%nat,
             mkState [VTable 1%nat; VTable 0%nat; VStr stream_flag]
                     ([] ++ [OTable [] None; OTable es' None]) [])
       /\ Permutation es' [(VBool true, VBool true)].
Proof.
  apply (flat_stream_round_trip no_call no_load 3 [(VBool true, VBool true)] 0%nat None
           heap_flag [] [x00]).
  - reflexivity.
  - split; repeat constructor; discriminate.
  - repeat constructor.
  - cbn. lia.
Defined.



Lemma marshal_rejects_light_userdata_witness :
  call_c (tbl_marshal no_call 3) [VTable 0%nat] heap_light = LuaError "invalid value type".
Proof.
  apply (marshal_rejects_light_userdata no_call 3 [] (VBool true) (VLight 7) [] 0%nat None
           heap_light).
  - reflexivity.
  - split; repeat constructor; discriminate.
  - constructor.
  - right. split; [exact I | eauto].
  - cbn. lia.
Defined.

Lemma marshal_rejects_c_function_witness :
  call_c (tbl_marshal no_call 3) [VTable 0%nat] heap_cfun
  = LuaError "attempt to persist a C function".
Proof.
  apply (marshal_rejects_c_function no_call 3 [] (VBool true) 1%nat [] 0%nat None
           heap_cfun [] []).
  - reflexivity.
  - split; repeat constructor; discriminate.
  - constructor.
  - exact I.
  - reflexivity.
  - cbn. lia.
Defined.

(** A hook that returns [true], and a host on which the hook cannot be
    called. *)
Lemma persist_hook_failures_witness :
  pack_value (const_call (VBool true)) 1 (mkBuffer 128 0 []) (-1) 1
    (mkState [VUdata 1%nat; VTable 0%nat; VNil] heap_hooked [])
  = LuaError "__persist must return a function"
  /\ pack_value no_call 1 (mkBuffer 128 0 []) (-1) 1
       (mkState [VUdata 1%nat; VTable 0%nat; VNil] heap_hooked [])
     = LuaError "attempt to call a value".
Proof.
  split.
  - apply (proj1 (persist_hook_failures (const_call (VBool true))) 0%nat (mkBuffer 128 0 [])
             (-1) 1 [VUdata 1%nat; VTable 0%nat; VNil] heap_hooked [] (VUdata 1%nat)
             0%nat [] None 2%nat [(VStr str__persist, VFun 3%nat)] None (VBool true)
             (<[0%nat := OTable (Tbl.set [] (VUdata 1%nat) (num 1)) None]> heap_hooked));
      try reflexivity; try lia; try discriminate.
    exists 1%nat. left. reflexivity.
  - apply (proj2 (persist_hook_failures no_call) 0%nat (mkBuffer 128 0 [])
             (-1) 1 [VUdata 1%nat; VTable 0%nat; VNil] heap_hooked [] (VUdata 1%nat)
             0%nat [] None 2%nat [(VStr str__persist, VFun 3%nat)] None);
      try reflexivity; try lia; try discriminate.
    exists 1%nat. left. reflexivity.
Defined.

Lemma decoder_rejects_unknown_tags_witness :
  unpack_value no_call no_load 1 [x02] 0 1 0 1 (mkState [] [] []) = LuaError "bad code"
  /\ unpack_value no_call no_load 1 [x01; x01] 0 0 0 1 (mkState [] [] []) = LuaError "bad code"
  /\ unpack_value no_call no_load 1 [x05; x09] 0 2 0 1 (mkState [] [] [])
     = LuaError "bad encoded data"
  /\ unpack_value no_call no_load 1 [x07; x09] 0 2 0 1 (mkState [] [] [])
     = Ok ((0 + 2, 1), mkState (VNil :: stack (mkState [] [] [])) (heap (mkState [] [] []))
                               (calls (mkState [] [] []))).
Proof.
  destruct (decoder_rejects_unknown_tags no_call no_load) as (H1 & H2 & H3 & H4).
  split; [|split; [|split]].
  - apply (H1 0%nat [x02] 0 1 0 1 (mkState [] [] []) x02); [solve_bytes_at|].
    vm_compute. intuition discriminate.
  - apply (H2 0%nat [x01; x01] 0 0 0 1 (mkState [] [] []) x01); [solve_bytes_at | lia].
  - apply (H3 0%nat [x05; x09] 0 2 0 1 (mkState [] [] []) x09); [solve_bytes_at | lia |].
    vm_compute. intuition discriminate.
  - apply (H4 0%nat [x07; x09] 0 2 0 1 (mkState [] [] []) x09); [solve_bytes_at | lia |].
    vm_compute. intuition discriminate.
Defined.

Lemma unmarshal_terminates_witness :
  call_c (tbl_unmarshal no_call no_load 9 [x00]) ([] ++ [VStr stream_flag]) [] <> OutOfFuel.
Proof.
  apply (unmarshal_terminates no_call no_load).
  - intros f args h. discriminate.
  - vm_compute. discriminate.
Defined.

Lemma decoded_value_is_local_witness :
  0 < 2 /\ 2 - 0 <= 2 /\
  forall mem2 len2,
    agree [x01; x01] mem2 0 2 -> 2 - 0 <= len2 ->
    unpack_value no_call no_load 1 mem2 0 len2 0 1 (mkState [] [] [])
    = Ok ((2, 1), mkState [VBool true] [] []).
Proof.
  apply (decoded_value_is_local no_call no_load 1 [x01; x01] 0 2 0 1 (mkState [] [] [])).
  vm_compute. reflexivity.
Defined.

(** Goals about a concrete table: every component is computed. *)
Ltac concrete :=
  repeat first
    [ apply Forall_nil
    | apply Forall_cons; split
    | apply NoDup_nil_2
    | apply NoDup_cons_2
    | exact I
    | match goal with
      | |- _ /\ _ => split
      | |- _ = _ => vm_compute; reflexivity
      | |- (_ <= _)%Z => vm_compute; discriminate
      | |- (_ < _)%Z => vm_compute; reflexivity
      | |- (_ <= _)%nat => vm_compute; lia
      | |- _ ∉ _ => vm_compute; intros H; inversion H
      end
    | progress cbn [fst snd storable key_ok distinct_keys map value_of wf_shape in_heap
                    addrs concat app]
    | progress unfold entries_of ].

Lemma tree_stream_round_trip_witness :
  let s := x8e :: x01 :: enc_kids kids_tree in
  (exists X,
      call_c (tbl_marshal no_call 20) [VTable 0%nat] heap_tree
      = Ok (VStr s, mkState [VStr s; VTable 0%nat; VTable (length heap_tree); VTable 0%nat]
                            (heap_tree ++ [OTable X None]) []))
  /\ (exists L kids',
        call_c (tbl_unmarshal no_call no_load 20 [x00]) [VStr s] []
        = Ok (VTable 1%nat, L)
        /\ similar_kids kids_tree kids'
        /\ held (heap L) (SNode 1%nat kids')
        /\ NoDup (addrs (SNode 1%nat kids'))
        /\ (forall x, x ∈ addrs_kids kids' -> (0 + 2 <= x)%nat)
        /\ (forall x, (x < 0)%nat -> heap L !! x = @nil object !! x)).
Proof.
  apply (tree_stream_round_trip no_call no_load 20 kids_tree 0%nat None heap_tree [] [x00]);
    unfold wf_kids, kids_in_heap, addrs_kids, entries_of, kids_tree, heap_tree; concrete.
Defined.

Lemma clone_tree_witness :
  exists L kids',
    call_c (tbl_clone no_call no_load 20 [x00]) [VTable 0%nat] heap_tree
    = Ok (VTable 4%nat, L)
    /\ similar_kids kids_tree kids'
    /\ held (heap L) (SNode 4%nat kids')
    /\ NoDup (addrs (SNode 4%nat kids'))
    /\ (forall x, x ∈ addrs_kids kids' -> (length heap_tree + 3 <= x)%nat)
    /\ (forall x, (x < length heap_tree)%nat -> heap L !! x = heap_tree !! x).
Proof.
  apply (clone_tree no_call no_load 20 kids_tree 0%nat None heap_tree [x00]);
    unfold wf_kids, kids_in_heap, addrs_kids, entries_of, kids_tree, heap_tree; concrete.
Defined.

Lemma function_round_trip_witness :
  (exists buf',
      pack_value no_call 4 (mkBuffer 128 0 []) (-1) 1
        (mkState [VFun 1%nat; VTable 0%nat; VNil] heap_closure [])
      = Ok ((buf', int_succ 1),
            mkState [VFun 1%nat; VTable 0%nat; VNil]
                    (<[0%nat := OTable (Tbl.set [] (VFun 1%nat) (num 1)) None]> heap_closure
                     ++ [OTable (indexed 1 [VBool true]) None]) [])
      /\ data buf' = [] ++ enc_fun hook_code [VBool true])
  /\ unpack_value no_call load_one 3 (enc_fun hook_code [VBool true] ++ [x00]) 0 22 0 1
       (mkState [VTable 0%nat; VNil] [OTable [] None] [])
     = Ok ((0 + zlen (enc_fun hook_code [VBool true]), int_succ 1),
           mkState [VFun 1%nat; VTable 0%nat; VNil]
                   (<[0%nat := OTable (Tbl.set [] (num 1) (VFun 1%nat)) None]> [OTable [] None]
                    ++ [OFun WhatLua hook_code [VBool true];
                        OTable (indexed 1 [VBool true]) None]) []).
Proof.
  destruct (function_round_trip no_call load_one hook_code [VBool true]) as [Hp Hu].
  - repeat constructor.
  - cbn. lia.
  - vm_compute. discriminate.
  - vm_compute. discriminate.
  - split.
    + apply (Hp 4%nat (mkBuffer 128 0 []) 1 1%nat [VTable 0%nat; VNil] heap_closure []
               0%nat [] None);
        first [reflexivity | cbn; lia].
    + apply (Hu 3%nat _ 0 22 0 1 [VTable 0%nat; VNil] [OTable [] None] [] 0%nat [] None WhatLua);
        first [reflexivity | cbn; lia | vm_compute; discriminate
              | vm_compute; repeat split; discriminate].
Defined.

Lemma rejected_chunk_decodes_to_message_witness :
  unpack_value no_call no_load 2
    ([x06; x02] ++ le_bytes 4 (zlen hook_code) ++ hook_code ++ le_bytes 4 0) 0 11 0 1
    (mkState [VTable 0%nat; VNil] [OTable [] None] [])
  = Ok ((0 + (10 + zlen hook_code), int_succ 1),
        mkState [VStr []; VTable 0%nat; VNil]
                (<[0%nat := OTable (Tbl.set [] (num 1) (VStr [])) None]> [OTable [] None]
                 ++ [OTable [] None]) []).
Proof.
  apply (rejected_chunk_decodes_to_message no_call no_load 0 _ 0 11 0 1 [VTable 0%nat; VNil]
           [OTable [] None] [] 0%nat [] None x02 hook_code []).
  - vm_compute. repeat split; discriminate.
  - vm_compute. discriminate.
  - vm_compute. discriminate.
  - vm_compute. discriminate.
  - reflexivity.
  - reflexivity.
  - reflexivity.
Defined.

Lemma back_reference_round_trip_witness :
  (exists buf',
      pack_value no_call 1 (mkBuffer 128 0 []) (-1) 2
        (mkState [VTable 1%nat; VTable 0%nat; VNil] heap_seen [])
      = Ok ((buf', 2), mkState [VTable 1%nat; VTable 0%nat; VNil] heap_seen [])
      /\ data buf' = [] ++ [byte_of_Z (type_of (VTable 1%nat)); x01] ++ le_bytes 4 1)
  /\ unpack_value no_call no_load 1 ([x05; x01] ++ le_bytes 4 1) 0 6 0 2
       (mkState [VTable 0%nat; VNil] heap_known [])
     = Ok ((0 + 6, 2),
           mkState [Tbl.get [(num 1, VTable 1%nat)] (num 1); VTable 0%nat; VNil]
                   heap_known []).
Proof.
  destruct (back_reference_round_trip no_call no_load 1) as [Hp Hu]; [lia|]. split.
  - apply (Hp 0%nat (mkBuffer 128 0 []) (-1) 2 [VTable 1%nat; VTable 0%nat; VNil] heap_seen []
             (VTable 1%nat) 0%nat [(VTable 1%nat, num 1)] None);
      first [reflexivity | lia | eauto].
  - apply (Hu 0%nat _ 0 6 0 2 [VTable 0%nat; VNil] heap_known [] x05 0%nat
             [(num 1, VTable 1%nat)] None);
      first [reflexivity | lia | (left; reflexivity)
            | vm_compute; repeat split; discriminate].
Defined.
